(** * The stitching engine of [services/videoProcessor.ts]

    A shallow embedding of [stitchVideos]: the scene data of [types.ts],
    the timing and geometry arithmetic as pure functions, and the
    asynchronous playback procedure as a computation over an explicit
    engine state that logs every call it makes on the browser (canvas,
    Web Audio graph, media elements, MediaRecorder, progress callback).

    JavaScript numbers are modelled as exact rationals [Q]: seconds,
    pixels, gains and percentages are computed without rounding. *)

From Stdlib Require Import QArith Qminmax Lqa ZArith List String Bool Lia.
From Stdlib Require Floats.PrimFloat.
Import ListNotations.
Open Scope Q_scope.

(** ** Scene data ([types.ts]) *)

Inductive TransitionType :=
  none | fade | wipe_left | wipe_right | slide_left | slide_right.

Inductive SceneStatus := pending | generating | completed | errored.

Record Transition := { type : TransitionType; duration : Q }.

Record Scene := {
  scene_number : Z;
  status : SceneStatus;
  videoUrl : option string;
  trimStart : option Q;
  trimEnd : option Q;
  overlayText : option string;
  transition : option Transition
}.

Record BackgroundMusic := { url : string; volume : Q }.

Inductive AspectRatio := ar16_9 | ar9_16.
Inductive ExportResolution := r720p | r1080p.
Inductive ExportFormat := mp4 | mov.

(** What a media element exposes once [loadedmetadata] has fired. *)
Record MediaInfo := { mediaDuration : Q; videoWidth : Q; videoHeight : Q }.

(** ** JavaScript value conventions *)

(** [x || 0] on an optional number: [undefined] and [0] both give [0]. *)
Definition orZero (x : option Q) : Q :=
  match x with
  | Some q => if Qeq_bool q 0 then 0 else q
  | None => 0
  end.

(** Truthiness of an optional string: [undefined] and the empty string are falsy. *)
Definition truthyStr (x : option string) : bool :=
  match x with
  | Some EmptyString => false
  | Some _ => true
  | None => false
  end.

Definition isCompleted (s : SceneStatus) : bool :=
  match s with completed => true | _ => false end.

Definition isNone (t : TransitionType) : bool :=
  match t with none => true | _ => false end.

(** ** The timeline and the per-iteration timing of the playback loop *)

(** [scenes.filter(s => s.status === 'completed' && s.videoUrl)] *)
Definition validScenesOf (scenes : list Scene) : list Scene :=
  filter (fun s => isCompleted (status s) && truthyStr (videoUrl s)) scenes.

(** [nextSceneIndex < validScenes.length] *)
Definition hasNextAt (validScenes : list Scene) (i : nat) : bool :=
  (S i <? List.length validScenes)%nat.

(** [hasNext ? validScenes[nextSceneIndex] : null] *)
Definition nextSceneAt (validScenes : list Scene) (i : nat) : option Scene :=
  if hasNextAt validScenes i then nth_error validScenes (S i) else None.

(** [nextScene?.transition] *)
Definition transitionOf (nextScene : option Scene) : option Transition :=
  match nextScene with
  | Some s => transition s
  | None => None
  end.

(** [transition?.type || 'none'] *)
Definition transitionTypeOf (tr : option Transition) : TransitionType :=
  match tr with
  | Some t => type t
  | None => none
  end.

(** [(transitionType !== 'none' && transition?.duration) ? transition.duration : 0] *)
Definition transitionDurationOf (tr : option Transition) : Q :=
  match tr with
  | Some t =>
      if isNone (type t) then 0
      else if Qeq_bool (duration t) 0 then 0 else duration t
  | None => 0
  end.

(** [currentScene.trimStart || 0] *)
Definition startOf (s : Scene) : Q := orZero (trimStart s).

(** [currentScene.trimEnd || 0] *)
Definition endTrimOf (s : Scene) : Q := orZero (trimEnd s).

(** [Math.min(duration, duration - endTrim)] *)
Definition endOf (videoDuration : Q) (s : Scene) : Q :=
  Qmin videoDuration (videoDuration - endTrimOf s).

(** [hasNext ? Math.max(start, end - transitionDuration) : end] *)
Definition soloEndTime (hasNext : bool) (start end_ transitionDuration : Q) : Q :=
  if hasNext then Qmax start (end_ - transitionDuration) else end_.

(** The constants one iteration of the loop computes before it plays. *)
Record Timing := {
  transitionType : TransitionType;
  transitionDuration : Q;
  start : Q;
  playEndTime : Q;
  soloEnd : Q
}.

Definition timingAt (validScenes : list Scene) (i : nat)
    (currentScene : Scene) (videoDuration : Q) : Timing :=
  let hasNext := hasNextAt validScenes i in
  let nextScene := nextSceneAt validScenes i in
  let tr := transitionOf nextScene in
  let td := transitionDurationOf tr in
  let st := startOf currentScene in
  let en := endOf videoDuration currentScene in
  {| transitionType := transitionTypeOf tr;
     transitionDuration := td;
     start := st;
     playEndTime := en;
     soloEnd := soloEndTime hasNext st en td |}.

(** ** Frame geometry *)

(** Lengths, times and levels are exact rationals here; what the code's
    binary64 arithmetic does to the geometry is computed in [Doubles]
    below. *)

(** Output surface size for an aspect ratio and a resolution tier. *)
Definition outWidth (a : AspectRatio) (r : ExportResolution) : Q :=
  match a, r with
  | ar16_9, r1080p => 1920
  | ar16_9, r720p => 1280
  | ar9_16, r1080p => 1080
  | ar9_16, r720p => 720
  end.

Definition outHeight (a : AspectRatio) (r : ExportResolution) : Q :=
  match a, r with
  | ar16_9, r1080p => 1080
  | ar16_9, r720p => 720
  | ar9_16, r1080p => 1920
  | ar9_16, r720p => 1280
  end.

(** A canvas rectangle as [ctx.rect] and [ctx.drawImage] take it:
    corner, width, height. *)
Record Rect := { rx : Q; ry : Q; rw : Q; rh : Q }.

(** [Math.max(width / vW, height / vH)] *)
Definition coverScale (width height vW vH : Q) : Q :=
  Qmax (width / vW) (height / vH).

(** Destination rectangle of [drawScaled(slot, alpha, xOffset)]; the
    solo loop computes the same rectangle with no offset. *)
Definition drawScaledRect (width height : Q) (m : MediaInfo) (xOffset : Q) : Rect :=
  let vW := videoWidth m in
  let vH := videoHeight m in
  let scale := coverScale width height vW vH in
  {| rx := (width - vW * scale) / 2 + xOffset;
     ry := (height - vH * scale) / 2;
     rw := vW * scale;
     rh := vH * scale |}.

Definition drawSoloRect (width height : Q) (m : MediaInfo) : Rect :=
  let vW := videoWidth m in
  let vH := videoHeight m in
  let scale := coverScale width height vW vH in
  {| rx := (width - vW * scale) / 2;
     ry := (height - vH * scale) / 2;
     rw := vW * scale;
     rh := vH * scale |}.

(** [ctx.rect(revealX, 0, width, height)] with [revealX = width * (1 - t)] *)
Definition wipeLeftClip (width height t : Q) : Rect :=
  {| rx := width * (1 - t); ry := 0; rw := width; rh := height |}.

(** [ctx.rect(0, 0, revealW, height)] with [revealW = width * t] *)
Definition wipeRightClip (width height t : Q) : Rect :=
  {| rx := 0; ry := 0; rw := width * t; rh := height |}.

(** A region by its edges, for comparing what is visible. *)
Record Box := { xmin : Q; ymin : Q; xmax : Q; ymax : Q }.

Definition boxOf (r : Rect) : Box :=
  {| xmin := rx r; ymin := ry r; xmax := rx r + rw r; ymax := ry r + rh r |}.

Definition surface (width height : Q) : Box :=
  {| xmin := 0; ymin := 0; xmax := width; ymax := height |}.



Definition contains (outer inner : Box) : Prop :=
  xmin outer <= xmin inner /\ ymin outer <= ymin inner /\
  xmax inner <= xmax outer /\ ymax inner <= ymax outer.


(** [Math.min(1, Math.max(0, tCurrent / (transitionDuration || 0.001)))] with
    [tCurrent = nextSlot.video.currentTime - nextStart] *)
Definition transitionProgress (transitionDuration nextStart currentTime : Q) : Q :=
  let tCurrent := currentTime - nextStart in
  let d := if Qeq_bool transitionDuration 0 then 1 # 1000 else transitionDuration in
  Qmin 1 (Qmax 0 (tCurrent / d)).

(** ** The same geometry in the code's arithmetic *)

(** The engine is modelled over exact rationals.  The numbers of the
    code are binary64 floating-point values; this module evaluates the
    geometry's expressions in that arithmetic, operation for operation,
    to tell what holds exactly from what holds only up to rounding. *)
Module Doubles.

Import PrimFloat.
Local Open Scope float_scope.

(** [Math.max] and [Math.min] on numbers that are not NaN *)
Definition max (a b : float) : float := if ltb a b then b else a.
Definition min (a b : float) : float := if ltb b a then b else a.

Record Rect := { rx : float; ry : float; rw : float; rh : float }.

(** [Math.max(width / vW, height / vH)] *)
Definition coverScale (width height vW vH : float) : float :=
  max (width / vW) (height / vH).

(** Destination rectangle of [drawScaled(slot, alpha, xOffset)] for a
    source of [vW] by [vH] pixels *)
Definition drawScaledRect (width height vW vH xOffset : float) : Rect :=
  let scale := coverScale width height vW vH in
  {| rx := (width - vW * scale) / 2 + xOffset;
     ry := (height - vH * scale) / 2;
     rw := vW * scale;
     rh := vH * scale |}.

(** [ctx.rect(revealX, 0, width, height)] with [revealX = width * (1 - t)] *)
Definition wipeLeftClip (width height t : float) : Rect :=
  {| rx := width * (1 - t); ry := 0; rw := width; rh := height |}.

(** [ctx.rect(0, 0, revealW, height)] with [revealW = width * t] *)
Definition wipeRightClip (width height t : float) : Rect :=
  {| rx := 0; ry := 0; rw := width * t; rh := height |}.



End Doubles.

(** ** The browser as the engine meets it *)

(** What one [requestAnimationFrame] callback of the solo loop reads:
    the playing element's flags and clock, and [Date.now()]. *)
Record Frame := { paused : bool; ended : bool; currentTime : Q; now : Z }.

(** The host answers every question the engine asks of it.  A media
    reference with no metadata never fires [loadedmetadata]; a list of
    frames is what the host schedules before it stops calling back (a
    hidden tab schedules none). *)
Record Host := {
  getContext2d : bool;
  isTypeSupported : string -> bool;
  recorderAccepts : string -> bool;
  metadata : string -> option MediaInfo;
  playResolves : string -> bool;
  soloFrames : nat -> list Frame;
  transFrames : nat -> list Q;
  pausedAtResume : nat -> bool
}.

Inductive Msg :=
| PreparingScene1
| ProcessingScene (scene : Z)
| PreparingTransition (scene : Z)
| Finalizing.

(** Every call the engine makes on the browser, in program order. *)
Inductive Event :=
| CreateCanvas (width height : Q)
| CreateAudioContext
| CreateSlot (k : nat)
| CreateBgMusic (src : string) (elementVolume gain : Q)
| CreateRecorder (mimeType : string) (videoBitsPerSecond : Z)
| RecorderStart
| RecorderPause
| RecorderResume
| RecorderStop
| BgPlay
| BgPause
| Progress (percent : Q) (message : Msg)
| SetSrc (k : nat) (src : string)
| LoadedMetadata (k : nat)
| SeekTo (k : nat) (time : Q)
| Seeked (k : nat)
| Play (k : nat)
| PauseVideo (k : nat)
| SetGain (k : nat) (value : Q)
| Save
| ClipRect (r : Rect)
| Restore
| DrawImage (k : nat) (r : Rect) (alpha : Q)
| DrawWrappedText (text : string) (x y maxWidth lineHeight fontSize : Q)
| CloseAudioContext
| RemoveSlot (k : nat)
| RemoveCanvas
| RemoveBgMusic.

(** ** Engine state *)

(** [MediaRecorder.state]; [held] is the state named "paused". *)
Inductive RecorderState := inactive | recording | held.

(** [interface VideoSlot]: the element (source, metadata, own volume)
    and the gain node its audio passes through. *)
Record VideoSlot := {
  src : option string;
  info : MediaInfo;
  elementVolume : Q;
  gainValue : Q
}.

Record BgMusicEl := {
  bgSrc : string;
  bgElementVolume : Q;
  bgGainValue : Q;
  bgPlaying : bool
}.

Record St := {
  canvas : option (Q * Q);
  audioCtx : bool;
  slots : list VideoSlot;
  bgMusicEl : option BgMusicEl;
  recorder : option RecorderState;
  activeSlotIndex : nat;
  lastProgressUpdate : Z
}.

(** Nothing is allocated before a stitch. *)
Definition idle : St :=
  {| canvas := None; audioCtx := false; slots := []; bgMusicEl := None;
     recorder := None; activeSlotIndex := 0; lastProgressUpdate := 0 |}.

Definition noMedia : MediaInfo :=
  {| mediaDuration := 0; videoWidth := 0; videoHeight := 0 |}.

Definition freshSlot : VideoSlot :=
  {| src := None; info := noMedia; elementVolume := 1; gainValue := 1 |}.

Definition slotAt (s : St) (k : nat) : VideoSlot := nth k (slots s) freshSlot.

Fixpoint updNth {A : Type} (k : nat) (f : A -> A) (l : list A) : list A :=
  match l, k with
  | [], _ => []
  | x :: tl, O => f x :: tl
  | x :: tl, S k' => x :: updNth k' f tl
  end.

Definition withSlots (f : list VideoSlot -> list VideoSlot) (s : St) : St :=
  {| canvas := canvas s; audioCtx := audioCtx s; slots := f (slots s);
     bgMusicEl := bgMusicEl s; recorder := recorder s;
     activeSlotIndex := activeSlotIndex s;
     lastProgressUpdate := lastProgressUpdate s |}.

Definition withRecorder (r : option RecorderState) (s : St) : St :=
  {| canvas := canvas s; audioCtx := audioCtx s; slots := slots s;
     bgMusicEl := bgMusicEl s; recorder := r;
     activeSlotIndex := activeSlotIndex s;
     lastProgressUpdate := lastProgressUpdate s |}.

Definition withBg (b : option BgMusicEl) (s : St) : St :=
  {| canvas := canvas s; audioCtx := audioCtx s; slots := slots s;
     bgMusicEl := b; recorder := recorder s;
     activeSlotIndex := activeSlotIndex s;
     lastProgressUpdate := lastProgressUpdate s |}.

(** ** Computations: state, call log, and how the awaited step ended *)

Inductive Err :=
| NoCompletedVideos      (* "No completed videos to stitch." *)
| NoCanvasContext        (* "Could not get canvas context" *)
| NotSupportedError      (* thrown by the MediaRecorder constructor *)
| IndexSizeError         (* thrown by the [volume] setter of a media element *)
| PlayRejected           (* a rejected [video.play()] promise *)
| TypeError
| StitchingFailed.       (* "Stitching failed." *)

Inductive Res (A : Type) :=
| Ret (a : A)
| Throw (e : Err)
| Pending.               (* an awaited promise that never settles *)
Arguments Ret {A} a.
Arguments Throw {A} e.
Arguments Pending {A}.

Record Out (A : Type) := mkOut { res : Res A; final : St; evs : list Event }.
Arguments mkOut {A}.
Arguments res {A}.
Arguments final {A}.
Arguments evs {A}.

Definition M (A : Type) : Type := St -> Out A.

Definition ret {A} (a : A) : M A := fun s => mkOut (Ret a) s [].

Definition bind {A B} (m : M A) (k : A -> M B) : M B :=
  fun s =>
    let o := m s in
    match res o with
    | Ret a => let o' := k a (final o) in
               mkOut (res o') (final o') (evs o ++ evs o')
    | Throw e => mkOut (Throw e) (final o) (evs o)
    | Pending => mkOut Pending (final o) (evs o)
    end.

Definition throw {A} (e : Err) : M A := fun s => mkOut (Throw e) s [].
Definition pend {A} : M A := fun s => mkOut Pending s [].
Definition get : M St := fun s => mkOut (Ret s) s [].
Definition modify (f : St -> St) : M unit := fun s => mkOut (Ret tt) (f s) [].
Definition emit (e : Event) : M unit := fun s => mkOut (Ret tt) s [e].

Declare Scope engine_scope.
Delimit Scope engine_scope with engine.
Notation "x <- m ;; k" := (bind m (fun x => k))
  (at level 61, m at next level, right associativity) : engine_scope.
Notation "m ;; k" := (bind m (fun _ => k))
  (at level 61, right associativity) : engine_scope.
Open Scope engine_scope.

(** [try { body } catch (error) { handler } finally { fin }]: a pending
    body never reaches either block. *)
Definition tryCatchFinally {A} (body : M A) (handler : Err -> M A) (fin : M unit) : M A :=
  fun s =>
    let o := body s in
    match res o with
    | Ret a =>
        let f := fin (final o) in
        mkOut (match res f with Ret _ => Ret a | Throw e => Throw e | Pending => Pending end)
              (final f) (evs o ++ evs f)
    | Throw e =>
        let h := handler e (final o) in
        match res h with
        | Pending => mkOut Pending (final h) (evs o ++ evs h)
        | r =>
            let f := fin (final h) in
            mkOut (match res f with Ret _ => r | Throw e' => Throw e' | Pending => Pending end)
                  (final f) (evs o ++ evs h ++ evs f)
        end
    | Pending => mkOut Pending (final o) (evs o)
    end.

(** ** Browser calls *)

Definition createCanvas (width height : Q) : M unit :=
  modify (fun s =>
    {| canvas := Some (width, height); audioCtx := audioCtx s; slots := slots s;
       bgMusicEl := bgMusicEl s; recorder := recorder s;
       activeSlotIndex := activeSlotIndex s;
       lastProgressUpdate := lastProgressUpdate s |}) ;;
  emit (CreateCanvas width height).

(** [if (!ctx) throw new Error("Could not get canvas context")] *)
Definition getContext (host : Host) : M unit :=
  if getContext2d host then ret tt else throw NoCanvasContext.

Definition createAudioContext : M unit :=
  modify (fun s =>
    {| canvas := canvas s; audioCtx := true; slots := slots s;
       bgMusicEl := bgMusicEl s; recorder := recorder s;
       activeSlotIndex := activeSlotIndex s;
       lastProgressUpdate := lastProgressUpdate s |}) ;;
  emit CreateAudioContext.

(** [createSlot]: element volume 1, a gain node at its default gain 1,
    wired element -> gain -> destination. *)
Definition createSlot : M unit :=
  s <- get ;;
  modify (withSlots (fun l => l ++ [freshSlot])) ;;
  emit (CreateSlot (List.length (slots s))).

(** The [volume] setter of a media element accepts [v] when
    [0 <= v <= 1] and throws an IndexSizeError otherwise. *)
Definition volumeAccepted (v : Q) : bool := Qle_bool 0 v && Qle_bool v 1.

(** [if (bgMusic && bgMusic.url) { ... }]: the element's own volume and
    the gain of its gain node both receive [bgMusic.volume].  The
    assignment [bgMusicEl.volume = bgMusic.volume] comes first and throws
    for a volume outside [[0,1]], before the element is wired to the
    mix; [CreateBgMusic] records the element once it is wired. *)
Definition setupBgMusic (bgMusic : option BackgroundMusic) : M unit :=
  match bgMusic with
  | Some b =>
      if truthyStr (Some (url b)) then
        if volumeAccepted (volume b) then
          modify (withBg (Some {| bgSrc := url b; bgElementVolume := volume b;
                                  bgGainValue := volume b; bgPlaying := false |})) ;;
          emit (CreateBgMusic (url b) (volume b) (volume b))
        else throw IndexSizeError
      else ret tt
  | None => ret tt
  end.

(** The codec probe of step 4. *)
Definition selectMimeType (host : Host) (format : ExportFormat) : string :=
  match format with
  | mp4 | mov =>
      if isTypeSupported host "video/mp4" then "video/mp4"
      else if isTypeSupported host "video/webm;codecs=h264" then "video/webm;codecs=h264"
      else if isTypeSupported host "video/webm;codecs=vp9" then "video/webm;codecs=vp9"
      else "video/webm"
  end%string.

Definition videoBitsPerSecond (r : ExportResolution) : Z :=
  match r with r1080p => 8000000 | r720p => 5000000 end.

(** [new MediaRecorder(combinedStream, { mimeType, videoBitsPerSecond })] *)
Definition newMediaRecorder (host : Host) (mimeType : string) (bps : Z) : M unit :=
  if recorderAccepts host mimeType then
    modify (withRecorder (Some inactive)) ;;
    emit (CreateRecorder mimeType bps)
  else throw NotSupportedError.

Definition recorderStart : M unit :=
  modify (withRecorder (Some recording)) ;; emit RecorderStart.
Definition recorderPause : M unit :=
  modify (withRecorder (Some held)) ;; emit RecorderPause.
Definition recorderResume : M unit :=
  modify (withRecorder (Some recording)) ;; emit RecorderResume.
Definition recorderStop : M unit :=
  modify (withRecorder (Some inactive)) ;; emit RecorderStop.

Definition setBgPlaying (p : bool) (s : St) : St :=
  match bgMusicEl s with
  | Some b => withBg (Some {| bgSrc := bgSrc b; bgElementVolume := bgElementVolume b;
                              bgGainValue := bgGainValue b; bgPlaying := p |}) s
  | None => s
  end.

(** [if (bgMusicEl) bgMusicEl.play().catch(...)] *)
Definition bgPlay : M unit :=
  s <- get ;;
  match bgMusicEl s with
  | Some _ => modify (setBgPlaying true) ;; emit BgPlay
  | None => ret tt
  end.

(** [if (bgMusicEl) bgMusicEl.pause()] *)
Definition bgPause : M unit :=
  s <- get ;;
  match bgMusicEl s with
  | Some _ => modify (setBgPlaying false) ;; emit BgPause
  | None => ret tt
  end.

Definition onProgress (percent : Q) (message : Msg) : M unit :=
  emit (Progress percent message).

Definition setSrc (k : nat) (u : string) : M unit :=
  modify (withSlots (updNth k (fun v =>
    {| src := Some u; info := info v; elementVolume := elementVolume v;
       gainValue := gainValue v |}))) ;;
  emit (SetSrc k u).

(** [await waitForEvent(video, 'loadedmetadata')] *)
Definition awaitLoadedMetadata (host : Host) (k : nat) : M unit :=
  s <- get ;;
  match src (slotAt s k) with
  | Some u =>
      match metadata host u with
      | Some m =>
          modify (withSlots (updNth k (fun v =>
            {| src := src v; info := m; elementVolume := elementVolume v;
               gainValue := gainValue v |}))) ;;
          emit (LoadedMetadata k)
      | None => pend
      end
  | None => pend
  end.

(** [video.currentTime = time; await waitForEvent(video, 'seeked')] *)
Definition seek (k : nat) (time : Q) : M unit :=
  emit (SeekTo k time) ;; emit (Seeked k).

(** [await video.play()] *)
Definition play (host : Host) (k : nat) : M unit :=
  s <- get ;;
  emit (Play k) ;;
  match src (slotAt s k) with
  | Some u => if playResolves host u then ret tt else throw PlayRejected
  | None => throw PlayRejected
  end.

Definition pauseVideo (k : nat) : M unit := emit (PauseVideo k).

(** [slot.gainNode.gain.value = value] *)
Definition setGain (k : nat) (value : Q) : M unit :=
  modify (withSlots (updNth k (fun v =>
    {| src := src v; info := info v; elementVolume := elementVolume v;
       gainValue := value |}))) ;;
  emit (SetGain k value).

Definition setActiveSlotIndex (k : nat) : M unit :=
  modify (fun s =>
    {| canvas := canvas s; audioCtx := audioCtx s; slots := slots s;
       bgMusicEl := bgMusicEl s; recorder := recorder s;
       activeSlotIndex := k;
       lastProgressUpdate := lastProgressUpdate s |}).

Definition setLastProgressUpdate (t : Z) : M unit :=
  modify (fun s =>
    {| canvas := canvas s; audioCtx := audioCtx s; slots := slots s;
       bgMusicEl := bgMusicEl s; recorder := recorder s;
       activeSlotIndex := activeSlotIndex s;
       lastProgressUpdate := t |}).

(** ** The render loops *)

Definition fontSizeOf (r : ExportResolution) : Q :=
  match r with r1080p => 48 | r720p => 32 end.

(** [(i / validScenes.length) * 100] *)
Definition soloPercent (i n : nat) : Q :=
  (inject_Z (Z.of_nat i) / inject_Z (Z.of_nat n)) * 100.

(** [(i + 0.9) / validScenes.length * 100] *)
Definition transitionPercent (i n : nat) : Q :=
  (inject_Z (Z.of_nat i) + (9 # 10)) / inject_Z (Z.of_nat n) * 100.

(** [drawSolo], one call per scheduled frame.  Of the current scene the
    closure reads [overlayText] and [scene_number]. *)
Fixpoint drawSolo (width height : Q) (resolution : ExportResolution)
    (n i : nat) (overlay : option string) (sceneNumber : Z)
    (cur : nat) (soloEndTime : Q) (frames : list Frame) : M unit :=
  match frames with
  | [] => pend
  | f :: rest =>
      if paused f || ended f || Qle_bool soloEndTime (currentTime f) then ret tt
      else
        s <- get ;;
        emit (DrawImage cur (drawSoloRect width height (info (slotAt s cur))) 1) ;;
        (if truthyStr overlay then
           let fontSize := fontSizeOf resolution in
           emit (DrawWrappedText (match overlay with Some txt => txt | None => EmptyString end)
                   (width / 2) (height * (9 # 10))
                   (width * (8 # 10)) (fontSize * (12 # 10)) fontSize)
         else ret tt) ;;
        (if (now f - lastProgressUpdate s >? 100)%Z then
           onProgress (soloPercent i n) (ProcessingScene sceneNumber) ;;
           setLastProgressUpdate (now f)
         else ret tt) ;;
        drawSolo width height resolution n i overlay sceneNumber cur soloEndTime rest
  end.

(** [drawScaled(slot, alpha, xOffset)] *)
Definition drawScaled (width height : Q) (k : nat) (alpha xOffset : Q) : M unit :=
  s <- get ;;
  emit (DrawImage k (drawScaledRect width height (info (slotAt s k)) xOffset) alpha).

(** The visual effect of one transition frame. *)
Definition drawEffect (width height : Q) (ty : TransitionType)
    (cur next : nat) (t : Q) : M unit :=
  match ty with
  | fade =>
      drawScaled width height cur 1 0 ;;
      drawScaled width height next t 0
  | wipe_left =>
      drawScaled width height cur 1 0 ;;
      emit Save ;;
      emit (ClipRect (wipeLeftClip width height t)) ;;
      drawScaled width height next 1 0 ;;
      emit Restore
  | wipe_right =>
      drawScaled width height cur 1 0 ;;
      emit Save ;;
      emit (ClipRect (wipeRightClip width height t)) ;;
      drawScaled width height next 1 0 ;;
      emit Restore
  | slide_left =>
      drawScaled width height cur 1 (- width * t) ;;
      drawScaled width height next 1 (width * (1 - t))
  | slide_right =>
      drawScaled width height cur 1 (width * t) ;;
      drawScaled width height next 1 (- width * (1 - t))
  | none =>
      drawScaled width height next 1 0
  end.

(** One call of [drawTrans]; the result says whether the loop resolved. *)
Definition drawTransFrame (width height : Q) (ty : TransitionType)
    (transitionDuration nextStart : Q) (cur next : nat) (currentTime : Q) : M bool :=
  let t := transitionProgress transitionDuration nextStart currentTime in
  if Qle_bool 1 t then ret true
  else
    setGain cur (1 - t) ;;
    setGain next t ;;
    drawEffect width height ty cur next t ;;
    ret false.

Fixpoint drawTrans (width height : Q) (ty : TransitionType)
    (transitionDuration nextStart : Q) (cur next : nat)
    (frames : list Q) : M unit :=
  match frames with
  | [] => pend
  | currentTime :: rest =>
      resolved <- drawTransFrame width height ty transitionDuration nextStart
                    cur next currentTime ;;
      if resolved then ret tt
      else drawTrans width height ty transitionDuration nextStart cur next rest
  end.

(** "Transition Done": stop the outgoing element, reset both gains, swap. *)
Definition swapSlots (cur next : nat) : M unit :=
  pauseVideo cur ;;
  setGain cur 1 ;;
  setGain next 1 ;;
  setActiveSlotIndex next.

(** ** The playback loop and the whole stitch *)

(** [scene.videoUrl!] *)
Definition urlOf (s : Scene) : string :=
  match videoUrl s with Some u => u | None => EmptyString end.

(** The body of [for (let i = 0; i < validScenes.length; i++)]. *)
Definition iteration (host : Host) (width height : Q) (resolution : ExportResolution)
    (validScenes : list Scene) (i : nat) : M unit :=
  match nth_error validScenes i with
  | None => throw TypeError
  | Some currentScene =>
      s <- get ;;
      let n := List.length validScenes in
      let cur := activeSlotIndex s in
      let next := (1 - cur)%nat in
      let hasNext := hasNextAt validScenes i in
      let nextScene := nextSceneAt validScenes i in
      let tm := timingAt validScenes i currentScene
                  (mediaDuration (info (slotAt s cur))) in
      (if (i =? 0)%nat then seek cur (start tm) ;; play host cur else ret tt) ;;
      drawSolo width height resolution n i (overlayText currentScene)
        (scene_number currentScene) cur (soloEnd tm) (soloFrames host i) ;;
      match hasNext, nextScene with
      | true, Some ns =>
          recorderPause ;;
          onProgress (transitionPercent i n) (PreparingTransition (scene_number ns)) ;;
          setSrc next (urlOf ns) ;;
          awaitLoadedMetadata host next ;;
          let nextStart := startOf ns in
          seek next nextStart ;;
          play host next ;;
          (if pausedAtResume host i then play host cur else ret tt) ;;
          recorderResume ;;
          drawTrans width height (transitionType tm) (transitionDuration tm)
            nextStart cur next (transFrames host i) ;;
          swapSlots cur next
      | _, _ => pauseVideo cur
      end
  end.

Fixpoint forLoop (host : Host) (width height : Q) (resolution : ExportResolution)
    (validScenes : list Scene) (remaining i : nat) : M unit :=
  match remaining with
  | O => ret tt
  | S k =>
      iteration host width height resolution validScenes i ;;
      forLoop host width height resolution validScenes k (S i)
  end.

(** The [try] block: first load, the loop, and the wrap-up. *)
Definition playback (host : Host) (width height : Q) (resolution : ExportResolution)
    (validScenes : list Scene) (mimeType : string) : M string :=
  match validScenes with
  | [] => throw TypeError
  | firstScene :: _ =>
      onProgress 0 PreparingScene1 ;;
      s <- get ;;
      setSrc (activeSlotIndex s) (urlOf firstScene) ;;
      awaitLoadedMetadata host (activeSlotIndex s) ;;
      forLoop host width height resolution validScenes (List.length validScenes) 0 ;;
      onProgress 100 Finalizing ;;
      recorderStop ;;
      bgPause ;;
      ret mimeType
  end.

(** The [finally] block. *)
Definition cleanup : M unit :=
  s <- get ;;
  emit CloseAudioContext ;;
  emit (RemoveSlot 0) ;;
  emit (RemoveSlot 1) ;;
  emit RemoveCanvas ;;
  match bgMusicEl s with
  | Some _ => emit RemoveBgMusic
  | None => ret tt
  end.

(** [stitchVideos]; the result is the type of the blob behind the
    returned object URL. *)
Definition stitchVideos (host : Host) (scenes : list Scene)
    (bgMusic : option BackgroundMusic) (resolution : ExportResolution)
    (format : ExportFormat) (aspectRatio : AspectRatio) : M string :=
  let validScenes := validScenesOf scenes in
  if (List.length validScenes =? 0)%nat then throw NoCompletedVideos
  else
    let width := outWidth aspectRatio resolution in
    let height := outHeight aspectRatio resolution in
    createCanvas width height ;;
    getContext host ;;
    createAudioContext ;;
    createSlot ;;
    createSlot ;;
    setupBgMusic bgMusic ;;
    let mimeType := selectMimeType host format in
    newMediaRecorder host mimeType (videoBitsPerSecond resolution) ;;
    recorderStart ;;
    bgPlay ;;
    setActiveSlotIndex 0 ;;
    setLastProgressUpdate 0 ;;
    tryCatchFinally
      (playback host width height resolution validScenes mimeType)
      (fun _ => throw StitchingFailed)
      cleanup.

(** ** Reading a call log *)

Fixpoint progressValues (l : list Event) : list Q :=
  match l with
  | [] => []
  | Progress p _ :: tl => p :: progressValues tl
  | _ :: tl => progressValues tl
  end.

Fixpoint nondecreasing (l : list Q) : Prop :=
  match l with
  | [] => True
  | x :: tl => (match tl with [] => True | y :: _ => x <= y end) /\ nondecreasing tl
  end.

Definition isAllocation (e : Event) : bool :=
  match e with
  | CreateCanvas _ _ | CreateAudioContext | CreateSlot _
  | CreateBgMusic _ _ _ | CreateRecorder _ _ => true
  | _ => false
  end.

(** Does the log start a load or a seek while the recorder is recording?
    [rs] is the recorder's state before the first event. *)
Fixpoint loadsWhileRecording (rs : RecorderState) (l : list Event) : bool :=
  match l with
  | [] => false
  | e :: tl =>
      match e with
      | RecorderStart | RecorderResume => loadsWhileRecording recording tl
      | RecorderPause => loadsWhileRecording held tl
      | RecorderStop => loadsWhileRecording inactive tl
      | SetSrc _ _ | SeekTo _ _ =>
          match rs with
          | recording => true
          | _ => loadsWhileRecording rs tl
          end
      | _ => loadsWhileRecording rs tl
      end
  end.

(** Level at which the background track reaches the mix.  A media
    element keeps applying its own [volume] (and [muted]) to the audio it
    hands to its [MediaElementAudioSourceNode] (Web Audio API: "volume
    ... MUST behave as they normally would"), which is why [createSlot]
    leaves the video elements unmuted at volume 1 ("Source node handles
    audio") and sets their level on the gain node alone; the gain node
    then scales the samples again. *)
Definition bgMixLevel (s : St) : option Q :=
  match bgMusicEl s with
  | Some b => Some (bgElementVolume b * bgGainValue b)
  | None => None
  end.

(** * Properties *)

(** ** Sample inputs *)

Definition clip (k : Z) (u : string) (tr : option Transition) : Scene :=
  {| scene_number := k; status := completed; videoUrl := Some u;
     trimStart := None; trimEnd := None; overlayText := None; transition := tr |}.

Definition frame (t : Q) (ms : Z) : Frame :=
  {| paused := false; ended := false; currentTime := t; now := ms |}.

Definition hd720 : MediaInfo :=
  {| mediaDuration := 8; videoWidth := 1280; videoHeight := 720 |}.

(** A host that records plain WebM only, loads every clip as 8 s of
    1280x720 video, and delivers frames until each phase is over. *)
Definition webmHost : Host :=
  {| getContext2d := true;
     isTypeSupported := fun m => String.eqb m "video/webm";
     recorderAccepts := fun m => String.eqb m "video/webm";
     metadata := fun _ => Some hd720;
     playResolves := fun _ => true;
     soloFrames := fun _ =>
       [frame 1 1000; frame 4 1050; frame 7 1200;
        {| paused := true; ended := true; currentTime := 8; now := 1400 |}];
     transFrames := fun _ => [1 # 2; 1; 2; 3];
     pausedAtResume := fun _ => false |}.

(** The same host, except that every [play()] promise is rejected. *)
Definition noAutoplayHost : Host :=
  {| getContext2d := true;
     isTypeSupported := isTypeSupported webmHost;
     recorderAccepts := recorderAccepts webmHost;
     metadata := metadata webmHost;
     playResolves := fun _ => false;
     soloFrames := soloFrames webmHost;
     transFrames := transFrames webmHost;
     pausedAtResume := pausedAtResume webmHost |}.

Definition fadeFirst : list Scene :=
  [clip 1 "a.mp4" (Some {| type := fade; duration := 1 |});
   clip 2 "b.mp4" (Some {| type := wipe_left; duration := 2 |})].

Definition twoFreshSlots : St := withSlots (fun _ => [freshSlot; freshSlot]) idle.

(** ** Vocabulary of the statements *)


(** A scene with its [transition] field replaced. *)
Definition setTransition (tr : option Transition) (c : Scene) : Scene :=
  {| scene_number := scene_number c; status := status c; videoUrl := videoUrl c;
     trimStart := trimStart c; trimEnd := trimEnd c; overlayText := overlayText c;
     transition := tr |}.

(** The types step 4 probes with [MediaRecorder.isTypeSupported], in order. *)
Definition probedTypes : list string :=
  ["video/mp4"; "video/webm;codecs=h264"; "video/webm;codecs=vp9"]%string.

(** The engine's order of preference: the probed types, then plain
    WebM, which it takes without probing when none of them is
    supported. *)
Definition preferenceList : list string :=
  probedTypes ++ ["video/webm"%string].

(** The recorder's constructor throws its NotSupportedError for exactly
    the types that [MediaRecorder.isTypeSupported] reports as
    unsupported. *)
Definition recorderConsistent (host : Host) : Prop :=
  forall m, recorderAccepts host m = isTypeSupported host m.

(** A list of percentages that never decreases and stays within bounds. *)
Definition boundedMono (lo hi : Q) (l : list Q) : Prop :=
  nondecreasing l /\ Forall (fun p => lo <= p <= hi) l.

(** Every run of [m] reports percentages that never decrease and stay
    within the bounds. *)
Definition reportsWithin {A} (lo hi : Q) (m : M A) : Prop :=
  forall s, boundedMono lo hi (progressValues (evs (m s))).

(** Steps 1 to 4 of [stitchVideos], from the canvas to the start of the
    recording, followed by [rest]. *)
Definition startRecording {A} (host : Host) (width height : Q)
    (bgMusic : option BackgroundMusic) (mimeType : string) (bps : Z)
    (rest : M A) : M A :=
  createCanvas width height ;;
  getContext host ;;
  createAudioContext ;;
  createSlot ;;
  createSlot ;;
  setupBgMusic bgMusic ;;
  newMediaRecorder host mimeType bps ;;
  recorderStart ;;
  bgPlay ;;
  setActiveSlotIndex 0 ;;
  setLastProgressUpdate 0 ;;
  rest.

(** Step 3 passes: there is no track, or its URL is empty, or its volume
    is one the element accepts. *)
Definition volumeOk (bgMusic : option BackgroundMusic) : bool :=
  match bgMusic with
  | Some b => negb (truthyStr (Some (url b))) || volumeAccepted (volume b)
  | None => true
  end.

(** The background element that step 3 creates, once it plays. *)
Definition bgElementOf (bgMusic : option BackgroundMusic) : option BgMusicEl :=
  match bgMusic with
  | Some b =>
      if truthyStr (Some (url b)) then
        Some {| bgSrc := url b; bgElementVolume := volume b;
                bgGainValue := volume b; bgPlaying := true |}
      else None
  | None => None
  end.

(** Engine state when the [try] block is entered, starting from [idle]. *)
Definition recordingState (width height : Q) (bgMusic : option BackgroundMusic) : St :=
  {| canvas := Some (width, height); audioCtx := true;
     slots := [freshSlot; freshSlot]; bgMusicEl := bgElementOf bgMusic;
     recorder := Some recording; activeSlotIndex := 0; lastProgressUpdate := 0 |}.

(** Calls made before the [try] block is entered, starting from [idle]. *)
Definition startEvents (width height : Q) (bgMusic : option BackgroundMusic)
    (mimeType : string) (bps : Z) : list Event :=
  [CreateCanvas width height; CreateAudioContext; CreateSlot 0; CreateSlot 1] ++
  match bgElementOf bgMusic with
  | Some e => [CreateBgMusic (bgSrc e) (bgElementVolume e) (bgGainValue e)]
  | None => []
  end ++
  [CreateRecorder mimeType bps; RecorderStart] ++
  match bgElementOf bgMusic with
  | Some _ => [BgPlay]
  | None => []
  end.

(** Calls that concern the background track. *)
Definition isBgCall (e : Event) : bool :=
  match e with
  | CreateBgMusic _ _ _ | BgPlay | BgPause | RemoveBgMusic => true
  | _ => false
  end.

(** A gain write stays within [[0,1]]. *)
Definition gainOk (e : Event) : Prop :=
  match e with
  | SetGain _ value => 0 <= value <= 1
  | _ => True
  end.

(** Every gain that a run of [m] writes lies in [[0,1]]. *)
Definition gainsInRange {A} (m : M A) : Prop :=
  forall s, Forall gainOk (evs (m s)).

(** The sources bound to the slots, in slot order. *)
Definition srcs (s : St) : list (option string) := map src (slots s).

(** Two slots, [cur] active and bound to a source. *)
Definition readyAt (cur : nat) (l : list (option string)) (active : nat) : Prop :=
  List.length l = 2%nat /\ active = cur /\ (cur < 2)%nat /\ nth cur l None <> None.

(** Two slots, [cur] active, both bound to a source. *)
Definition bothAt (cur : nat) (l : list (option string)) (active : nat) : Prop :=
  List.length l = 2%nat /\ active = cur /\ (cur < 2)%nat /\
  nth 0 l None <> None /\ nth 1 l None <> None.

Definition ready (s : St) : Prop :=
  readyAt (activeSlotIndex s) (srcs s) (activeSlotIndex s).

(** From a state satisfying [P], [m] returns and leaves a state
    satisfying [Q]. *)
Definition hoare {A} (P : St -> Prop) (m : M A) (Q : A -> St -> Prop) : Prop :=
  forall s, P s -> exists a, res (m s) = Ret a /\ Q a (final (m s)).

(** From a state whose slot sources and active index satisfy [P], [m]
    returns and has changed neither. *)
Definition keeping {A} (P : list (option string) -> nat -> Prop) (m : M A) : Prop :=
  forall s, P (srcs s) (activeSlotIndex s) ->
    (exists a, res (m s) = Ret a) /\
    srcs (final (m s)) = srcs s /\
    activeSlotIndex (final (m s)) = activeSlotIndex s.

(** A host on which nothing stalls or fails: a canvas context exists,
    every clip loads and plays, every solo phase sees the clip end, and
    every transition is sampled at or after its end. *)
Definition cooperative (host : Host) (validScenes : list Scene) : Prop :=
  getContext2d host = true /\
  (forall u, metadata host u <> None) /\
  (forall u, playResolves host u = true) /\
  (forall i, Exists (fun f => ended f = true) (soloFrames host i)) /\
  (forall i nextScene, nth_error validScenes (S i) = Some nextScene ->
     Exists (fun currentTime =>
               1 <= transitionProgress (transitionDurationOf (transition nextScene))
                      (startOf nextScene) currentTime)
            (transFrames host i)).

(** No run of [m] calls the progress callback. *)
Definition silent {A} (m : M A) : Prop :=
  forall s, progressValues (evs (m s)) = [].

(** Every run of [m] that returns has reported 100 last. *)
Definition endsAt100 {A} (m : M A) : Prop :=
  forall s a, res (m s) = Ret a ->
    exists before, progressValues (evs (m s)) = before ++ [100].

(** The two numbers that fix the background track's level. *)
Definition bgLevels (s : St) : option (Q * Q) :=
  match bgMusicEl s with
  | Some b => Some (bgElementVolume b, bgGainValue b)
  | None => None
  end.

(** No run of [m] touches the background track's level. *)
Definition keepsBgLevels {A} (m : M A) : Prop :=
  forall s, bgLevels (final (m s)) = bgLevels s.

(** The transition configured on a scene, as a reader of the
    [transition] field takes it: its kind, [none] when the field is
    absent, *)
Definition configuredKind (s : Scene) : TransitionType :=
  match transition s with
  | Some tr => type tr
  | None => none
  end.

(** and its duration, which counts only for a kind other than [none]. *)
Definition configuredDuration (s : Scene) : Q :=
  match transition s with
  | Some tr => match type tr with none => 0 | _ => duration tr end
  | None => 0
  end.




(** The calls with which iteration [i] starts the first clip. *)
Definition firstClipCalls (i cur : nat) (time : Q) : list Event :=
  if (i =? 0)%nat then [SeekTo cur time; Seeked cur; Play cur] else [].

(** The calls that load, seek and start the next clip while the
    recorder is paused. *)
Definition nextClipCalls (host : Host) (validScenes : list Scene) (i cur : nat)
    (nextScene : Scene) : list Event :=
  [RecorderPause;
   Progress (transitionPercent i (List.length validScenes))
     (PreparingTransition (scene_number nextScene));
   SetSrc (1 - cur) (urlOf nextScene); LoadedMetadata (1 - cur);
   SeekTo (1 - cur) (startOf nextScene); Seeked (1 - cur); Play (1 - cur)] ++
  (if pausedAtResume host i then [Play cur] else []) ++
  [RecorderResume].

(** The engine after the first clip of [fadeFirst] has loaded on slot 0. *)
Definition firstLoaded : St :=
  withSlots (fun _ =>
    [ {| src := Some "a.mp4"%string; info := hd720; elementVolume := 1; gainValue := 1 |};
      freshSlot ])
    (recordingState 1280 720 None).

(** [r] is a source of [srcW] by [srcH] scaled by
    [max(outW/srcW, outH/srcH)] and centred on the surface; such a
    rectangle contains the surface whenever its size is at least the
    size of the surface. *)
Definition coverFit (outW outH srcW srcH : Q) (r : Rect) : Prop :=
  let scale := Qmax (outW / srcW) (outH / srcH) in
  rw r == srcW * scale /\ rh r == srcH * scale /\
  rx r == (outW - rw r) / 2 /\ ry r == (outH - rh r) / 2 /\
  (outW <= rw r -> outH <= rh r -> contains (boxOf r) (surface outW outH)).

(** * The caption, the workflow layer and the generation service *)

(** ** Caption wrapping ([drawWrappedText]) *)

(** [text.split(' ')] *)
Fixpoint splitSpace (text : string) : list string :=
  match text with
  | EmptyString => [EmptyString]
  | String c rest =>
      if Ascii.eqb c Ascii.Space then EmptyString :: splitSpace rest
      else match splitSpace rest with
           | w :: ws => String c w :: ws
           | [] => [String c EmptyString]
           end
  end.

(** The wrapping loop from index [n] on, with [line] the line being
    filled; the result is [lines] after the final [lines.push(line)].
    [measure] is [ctx.measureText(_).width] in the font the context has
    when the function is entered (its own font is assigned only later,
    inside [save]/[restore]). *)
Fixpoint wrapWords (measure : string -> Q) (maxWidth : Q) (n : nat)
    (line : string) (words : list string) : list string :=
  match words with
  | [] => [line]
  | w :: rest =>
      let testLine := (line ++ w ++ " ")%string in
      if negb (Qle_bool (measure testLine) maxWidth) && negb (n =? 0)%nat then
        line :: wrapWords measure maxWidth (S n) (w ++ " ")%string rest
      else
        wrapWords measure maxWidth (S n) testLine rest
  end.

Definition wrapText (measure : string -> Q) (maxWidth : Q) (text : string) : list string :=
  wrapWords measure maxWidth 0 EmptyString (splitSpace text).

Inductive TextCall :=
| StrokeText (line : string) (x y : Q)
| FillText (line : string) (x y : Q).

(** [for (let k = lines.length - 1; k >= 0; k--)], entered with
    [k = count - 1]. *)
Fixpoint drawLines (lines : list string) (x y lineHeight : Q) (count : nat)
    : list TextCall :=
  match count with
  | O => []
  | S k =>
      let lineY := y - inject_Z (Z.of_nat (List.length lines - 1 - k)) * lineHeight in
      StrokeText (nth k lines EmptyString) x lineY ::
      FillText (nth k lines EmptyString) x lineY ::
      drawLines lines x y lineHeight k
  end.

(** What the function sets on the context between [save] and [restore]. *)
Record TextStyle := { fontPx : Q; strokeWidth : Q; shadowBlur : Q }.

Definition drawWrappedText (measure : string -> Q) (text : string)
    (x y maxWidth lineHeight fontSize : Q) : TextStyle * list TextCall :=
  let lines := wrapText measure maxWidth text in
  ({| fontPx := fontSize; strokeWidth := fontSize / 8; shadowBlur := 4 |},
   drawLines lines x y lineHeight (List.length lines)).

(** The words of a text, each followed by the space the loop appends. *)
Definition spaced (words : list string) : string :=
  String.concat EmptyString (map (fun w => (w ++ " ")%string) words).

Definition yOf (c : TextCall) : Q :=
  match c with StrokeText _ _ y | FillText _ _ y => y end.

(** ** Reading a call log with a state machine *)

(** Run a partial transition function over a log; [None] when a call
    is not allowed in the state reached. *)
Fixpoint scan {T : Type} (step : T -> Event -> option T) (t : T) (l : list Event)
    : option T :=
  match l with
  | [] => Some t
  | e :: tl =>
      match step t e with
      | Some t' => scan step t' tl
      | None => None
      end
  end.

(** From a machine state and an engine state related by [P], the log of
    [m] is accepted, and when [m] returns the states reached are related
    by [Q]. *)
Definition triple {T A : Type} (step : T -> Event -> option T)
    (P : T -> St -> Prop) (m : M A) (Q : A -> T -> St -> Prop) : Prop :=
  forall t s, P t s ->
    exists t', scan step t (evs (m s)) = Some t' /\
               forall a, res (m s) = Ret a -> Q a t' (final (m s)).

(** The recorder's states and the calls each one allows: [start] when
    inactive, [pause] and [stop] when recording, [resume] when paused; a
    frame painted on the canvas is captured only while recording. *)
Definition recorderStep (rs : RecorderState) (e : Event) : option RecorderState :=
  match e with
  | RecorderStart => match rs with inactive => Some recording | _ => None end
  | RecorderPause => match rs with recording => Some held | _ => None end
  | RecorderResume => match rs with held => Some recording | _ => None end
  | RecorderStop => match rs with recording => Some inactive | _ => None end
  | DrawImage _ _ _ | DrawWrappedText _ _ _ _ _ _ =>
      match rs with recording => Some recording | _ => None end
  | _ => Some rs
  end.

(** Clips are bound to slots in timeline order, alternating between the
    two slots from slot 0 on: with [loaded] clips bound so far, the next
    [src] assignment must put clip [loaded] on slot [loaded mod 2]. *)
Definition loadStep (urls : list string) (loaded : nat) (e : Event) : option nat :=
  match e with
  | SetSrc k u =>
      match nth_error urls loaded with
      | Some u' =>
          if (k =? loaded mod 2)%nat && String.eqb u u' then Some (S loaded) else None
      | None => None
      end
  | _ => Some loaded
  end.

(** Before iteration [i] of a timeline of [n] clips: clips [0..i] are
    bound (all of them once [i] reaches [n]) and clip [i] plays on slot
    [i mod 2]. *)
Definition loadInv (n i : nat) (loaded : nat) (s : St) : Prop :=
  loaded = Nat.min (S i) n /\ ((i < n)%nat -> activeSlotIndex s = (i mod 2)%nat).

(** ** The shape of a stitch's call log *)

(** Calls made by the playback loop. *)
Definition loopEvent (e : Event) : bool :=
  match e with
  | Progress _ _ | SetSrc _ _ | LoadedMetadata _ | SeekTo _ _ | Seeked _
  | Play _ | PauseVideo _ | SetGain _ _ | Save | ClipRect _ | Restore
  | DrawImage _ _ _ | DrawWrappedText _ _ _ _ _ _
  | RecorderPause | RecorderResume => true
  | _ => false
  end.

(** The machine that accepts exactly the logs made of calls in [c]. *)
Definition allowStep (c : Event -> bool) (t : unit) (e : Event) : option unit :=
  if c e then Some tt else None.

Definition isRelease (e : Event) : bool :=
  match e with
  | CloseAudioContext | RemoveSlot _ | RemoveCanvas | RemoveBgMusic => true
  | _ => false
  end.

(** The calls of the [finally] block. *)
Definition releaseCalls (bgMusic : option BackgroundMusic) : list Event :=
  [CloseAudioContext; RemoveSlot 0; RemoveSlot 1; RemoveCanvas] ++
  match bgElementOf bgMusic with
  | Some _ => [RemoveBgMusic]
  | None => []
  end.

(** The calls that follow the loop in the [try] block. *)
Definition wrapUpCalls (bgMusic : option BackgroundMusic) : list Event :=
  [Progress 100 Finalizing; RecorderStop] ++
  match bgElementOf bgMusic with
  | Some _ => [BgPause]
  | None => []
  end.

(** What follows the loop's calls, by outcome of the [try] block. *)
Definition tailCalls {A : Type} (bgMusic : option BackgroundMusic) (r : Res A)
    : list Event :=
  match r with
  | Ret _ => wrapUpCalls bgMusic ++ releaseCalls bgMusic
  | Throw _ => releaseCalls bgMusic
  | Pending => []
  end.

(** The log of [m] is a run of loop calls, followed by [tail] when [m]
    returns. *)
Definition shaped {A : Type} (tail : list Event) (m : M A) (s : St) : Prop :=
  exists body,
    forallb loopEvent body = true /\
    evs (m s) = body ++ match res (m s) with Ret _ => tail | _ => [] end.

(** The calls that follow the loop, as the state says whether a
    background element exists. *)
Definition playTail (s : St) : list Event :=
  [Progress 100 Finalizing; RecorderStop] ++
  match bgLevels s with
  | Some _ => [BgPause]
  | None => []
  end.

(** A host whose canvas refuses a 2D context. *)
Definition headlessHost : Host :=
  {| getContext2d := false;
     isTypeSupported := isTypeSupported webmHost;
     recorderAccepts := recorderAccepts webmHost;
     metadata := metadata webmHost;
     playResolves := playResolves webmHost;
     soloFrames := soloFrames webmHost;
     transFrames := transFrames webmHost;
     pausedAtResume := pausedAtResume webmHost |}.

(** The first step of the set-up that fails, if any: no 2D context
    (step 1), a background volume the element rejects (step 3), a type
    the recorder's constructor rejects (step 4). *)
Definition setupError (host : Host) (bgMusic : option BackgroundMusic)
    (mimeType : string) : option Err :=
  if negb (getContext2d host) then Some NoCanvasContext
  else if negb (volumeOk bgMusic) then Some IndexSizeError
  else if negb (recorderAccepts host mimeType) then Some NotSupportedError
  else None.

(** The calls of steps 1 to 3 that are completed when the set-up
    fails. *)
Definition setupCalls (host : Host) (width height : Q)
    (bgMusic : option BackgroundMusic) : list Event :=
  CreateCanvas width height ::
  if getContext2d host then
    [CreateAudioContext; CreateSlot 0; CreateSlot 1] ++
    (if volumeOk bgMusic then
       match bgElementOf bgMusic with
       | Some e => [CreateBgMusic (bgSrc e) (bgElementVolume e) (bgGainValue e)]
       | None => []
       end
     else [])
  else [].

(** A background track louder than a media element accepts. *)
Definition tooLoud : BackgroundMusic :=
  {| url := "music.mp3"; volume := 3 # 2 |}.

(** A host on which no clip ever reports its metadata. *)
Definition deadLinkHost : Host :=
  {| getContext2d := true;
     isTypeSupported := isTypeSupported webmHost;
     recorderAccepts := recorderAccepts webmHost;
     metadata := fun _ => None;
     playResolves := playResolves webmHost;
     soloFrames := soloFrames webmHost;
     transFrames := transFrames webmHost;
     pausedAtResume := pausedAtResume webmHost |}.

(** ** The workflow layer ([App]) *)

Module App.

(** A scene as the application holds it: the fields the engine reads
    ([fields]) and the application-state fields the handlers use. *)
Record SceneRow := { id : string; errorMsg : option string; fields : Scene }.

(** The fields of [interface Project] that the handlers below read. *)
Record Project := {
  projectId : string;
  name : string;
  characterImageBase64 : option string;
  scenes : list SceneRow;
  backgroundMusic : option BackgroundMusic;
  aspectRatio : AspectRatio
}.

(** [{ ...p, scenes: updatedScenes }] *)
Definition withScenes (p : Project) (l : list SceneRow) : Project :=
  {| projectId := projectId p; name := name p;
     characterImageBase64 := characterImageBase64 p; scenes := l;
     backgroundMusic := backgroundMusic p; aspectRatio := aspectRatio p |}.

(** [Partial<Scene>]: a key is absent ([None]) or present with its new
    value, which for an optional field may be [undefined]. *)
Record Updates := {
  newStatus : option SceneStatus;
  newVideoUrl : option (option string);
  newErrorMsg : option (option string);
  newTrimStart : option (option Q);
  newTrimEnd : option (option Q);
  newOverlayText : option (option string);
  newTransition : option (option Transition)
}.

Definition over {A : Type} (new : option A) (old : A) : A :=
  match new with
  | Some v => v
  | None => old
  end.

(** [{ ...s, ...updates }] *)
Definition spread (s : SceneRow) (updates : Updates) : SceneRow :=
  {| id := id s;
     errorMsg := over (newErrorMsg updates) (errorMsg s);
     fields :=
       {| scene_number := scene_number (fields s);
          status := over (newStatus updates) (status (fields s));
          videoUrl := over (newVideoUrl updates) (videoUrl (fields s));
          trimStart := over (newTrimStart updates) (trimStart (fields s));
          trimEnd := over (newTrimEnd updates) (trimEnd (fields s));
          overlayText := over (newOverlayText updates) (overlayText (fields s));
          transition := over (newTransition updates) (transition (fields s)) |} |}.

(** The two [useState] cells the handlers write. *)
Record Ui := { currentProject : option Project; projects : list Project }.

(** The cells, and how many times the generation service has been
    called. *)
Record World := { ui : Ui; served : nat }.

(** The state of the promise of one [generateSceneVideo] call. *)
Inductive Settled :=
| Resolved (videoUrl : string)
| Rejected (message : string)
| Outstanding.

(** The generation service as the handlers see it: the outcome of its
    [n]-th call, given the arguments of the call. *)
Definition Service : Type :=
  nat -> SceneRow -> option string -> AspectRatio -> Settled.

(** [updateProject]: [setCurrentProject(updated)] and the functional
    update of [projects]. *)
Definition updateProject (updated : Project) (u : Ui) : Ui :=
  {| currentProject := Some updated;
     projects := map (fun p => if String.eqb (projectId p) (projectId updated)
                               then updated else p) (projects u) |}.

(** [scenes.map(s => s.id === sceneId ? { ...s, ...updates } : s)] *)
Definition updateScenes (sceneId : string) (updates : Updates) (l : list SceneRow)
    : list SceneRow :=
  map (fun s => if String.eqb (id s) sceneId then spread s updates else s) l.

(** [handleUpdateScene].  [render] is the value of [currentProject] in
    the render whose closures are running: the handler reads it, not
    the cell. *)
Definition handleUpdateScene (render : option Project) (sceneId : string)
    (updates : Updates) (u : Ui) : Ui :=
  match render with
  | None => u
  | Some p => updateProject (withScenes p (updateScenes sceneId updates (scenes p))) u
  end.

Definition onUi (f : Ui -> Ui) (w : World) : World :=
  {| ui := f (ui w); served := served w |}.

(** [handleGenerateVideoForScene]; the boolean tells whether its promise
    settles. *)
Definition handleGenerateVideoForScene (render : option Project) (service : Service)
    (sceneId : string) (w : World) : World * bool :=
  match render with
  | None => (w, true)
  | Some p =>
      match find (fun s => String.eqb (id s) sceneId) (scenes p) with
      | None => (w, true)
      | Some scene =>
          let w1 :=
            onUi (handleUpdateScene render sceneId
                    {| newStatus := Some generating; newVideoUrl := None;
                       newErrorMsg := Some None; newTrimStart := None;
                       newTrimEnd := None; newOverlayText := None;
                       newTransition := None |}) w in
          let w2 := {| ui := ui w1; served := S (served w1) |} in
          match service (served w1) scene (characterImageBase64 p) (aspectRatio p) with
          | Resolved videoUrl =>
              (onUi (handleUpdateScene render sceneId
                       {| newStatus := Some completed; newVideoUrl := Some (Some videoUrl);
                          newErrorMsg := None; newTrimStart := None;
                          newTrimEnd := None; newOverlayText := None;
                          newTransition := None |}) w2, true)
          | Rejected message =>
              (onUi (handleUpdateScene render sceneId
                       {| newStatus := Some errored; newVideoUrl := None;
                          newErrorMsg := Some (Some message); newTrimStart := None;
                          newTrimEnd := None; newOverlayText := None;
                          newTransition := None |}) w2, true)
          | Outstanding => (w2, false)
          end
      end
  end.

(** [scene.status !== 'completed' && scene.status !== 'generating'] *)
Definition needsVideo (scene : SceneRow) : bool :=
  match status (fields scene) with
  | completed | generating => false
  | _ => true
  end.

(** [for (const scene of currentProject.scenes)] over the scenes left. *)
Fixpoint forScenes (render : option Project) (service : Service)
    (rest : list SceneRow) (w : World) : World * bool :=
  match rest with
  | [] => (w, true)
  | scene :: tl =>
      if needsVideo scene then
        let (w1, settled) := handleGenerateVideoForScene render service (id scene) w in
        if settled then forScenes render service tl w1 else (w1, false)
      else forScenes render service tl w
  end.

(** [handleGenerateAllVideos] *)
Definition handleGenerateAllVideos (render : option Project) (service : Service)
    (w : World) : World * bool :=
  match render with
  | None => (w, true)
  | Some p => forScenes render service (scenes p) w
  end.

(** [s.status === 'completed' && s.videoUrl] *)
Definition isReady (s : SceneRow) : bool :=
  isCompleted (status (fields s)) && truthyStr (videoUrl (fields s)).

(** [currentProject?.scenes.filter(...).length || 0] *)
Definition readyVideosCount (render : option Project) : nat :=
  match render with
  | Some p => List.length (filter isReady (scenes p))
  | None => 0%nat
  end.

(** [currentProject?.scenes.length || 0] *)
Definition totalVideos (render : option Project) : nat :=
  match render with
  | Some p => List.length (scenes p)
  | None => 0%nat
  end.

(** [readyVideosCount > 0 && readyVideosCount === totalVideos]; the
    export button is disabled unless it holds. *)
Definition canStitch (render : option Project) : bool :=
  (0 <? readyVideosCount render)%nat && (readyVideosCount render =? totalVideos render)%nat.

(** The scenes that [handleStitchVideos] hands to the engine. *)
Definition stitchInput (p : Project) : list Scene := map fields (scenes p).

(** *** The debug console *)

Inductive Level := info | warn | error.

Record LogEntry := { time : string; level : Level; message : string }.

(** [l.slice(-n)] for a literal [n]: the last [n] elements, or all of
    [l] if it has fewer ([slice(-0)] is [slice(0)]). *)
Definition sliceFromEnd {A : Type} (n : nat) (l : list A) : list A :=
  match n with
  | O => l
  | _ => skipn (List.length l - n) l
  end.

(** [setLogs(prev => [...prev.slice(-199), entry])] *)
Definition addLog (prev : list LogEntry) (entry : LogEntry) : list LogEntry :=
  sliceFromEnd 199 prev ++ [entry].

End App.

(** ** The generation service ([geminiService]) *)

Module Gemini.

(** What the service reads from its surroundings. *)
Record AiStudio := { hasSelectedApiKey : bool; openSelectKey : bool }.

Record Env := {
  hasWindow : bool;                  (* typeof window !== 'undefined' *)
  storedKey : option string;         (* localStorage.getItem('veo3_api_key') *)
  API_KEY : option string;           (* process.env.API_KEY *)
  aistudio : option AiStudio         (* window.aistudio *)
}.

(** [getApiKey] *)
Definition getApiKey (env : Env) : string :=
  let fromEnv := if truthyStr (API_KEY env) then
                   match API_KEY env with Some k => k | None => EmptyString end
                 else EmptyString in
  if hasWindow env then
    if truthyStr (storedKey env) then
      match storedKey env with Some k => k | None => EmptyString end
    else fromEnv
  else fromEnv.

(** [key !== process.env.API_KEY] for a string [key] *)
Definition differsFrom (key : string) (x : option string) : bool :=
  match x with
  | Some k => negb (String.eqb key k)
  | None => true
  end.

(** [ensureApiKey] *)
Definition ensureApiKey (env : Env) : bool :=
  if truthyStr (Some (getApiKey env)) && differsFrom (getApiKey env) (API_KEY env) then true
  else
    match (if hasWindow env then aistudio env else None) with
    | Some studio =>
        if negb (hasSelectedApiKey studio) then openSelectKey studio else true
    | None => truthyStr (API_KEY env)
    end.

Inductive Result (A : Type) :=
| Ok (a : A)
| Error (message : string).
Arguments Ok {A} a.
Arguments Error {A} message.

(** [{ ...s, id: crypto.randomUUID(), status: 'pending' }] *)
Definition fresh (uuid : string) (s : App.SceneRow) : App.SceneRow :=
  {| App.id := uuid;
     App.errorMsg := App.errorMsg s;
     App.fields :=
       {| scene_number := scene_number (App.fields s);
          status := pending;
          videoUrl := videoUrl (App.fields s);
          trimStart := trimStart (App.fields s);
          trimEnd := trimEnd (App.fields s);
          overlayText := overlayText (App.fields s);
          transition := transition (App.fields s) |} |}.

(** [rawScenes.map(...)]; [randomUUID n] is the result of the [n]-th
    call of [crypto.randomUUID()]. *)
Fixpoint stamp (randomUUID : nat -> string) (n : nat) (rawScenes : list App.SceneRow)
    : list App.SceneRow :=
  match rawScenes with
  | [] => []
  | s :: tl => fresh (randomUUID n) s :: stamp randomUUID (S n) tl
  end.

(** [generateScriptFromIdea] from the model's response on.  [parse] is
    [JSON.parse] followed by the read of the array; [None] when either
    throws. *)
Definition generateScriptFromIdea (responseText : option string)
    (parse : string -> option (list App.SceneRow)) (randomUUID : nat -> string)
    : Result (list App.SceneRow) :=
  match responseText with
  | Some text =>
      if truthyStr responseText then
        match parse text with
        | Some rawScenes => Ok (stamp randomUUID 0 rawScenes)
        | None => Error "Failed to generate valid script format."
        end
      else Error "No script generated."
  | None => Error "No script generated."
  end.

End Gemini.

(** ** Errors *)

(** What an error of [stitchVideos] tells about the call. *)
Definition explains (host : Host) (scenes : list Scene)
    (bgMusic : option BackgroundMusic) (format : ExportFormat) (e : Err) : Prop :=
  match e with
  | NoCompletedVideos => validScenesOf scenes = []
  | NoCanvasContext => validScenesOf scenes <> [] /\ getContext2d host = false
  | IndexSizeError =>
      validScenesOf scenes <> [] /\ getContext2d host = true /\
      volumeOk bgMusic = false
  | NotSupportedError =>
      validScenesOf scenes <> [] /\ getContext2d host = true /\
      volumeOk bgMusic = true /\
      recorderAccepts host (selectMimeType host format) = false
  | StitchingFailed =>
      validScenesOf scenes <> [] /\ getContext2d host = true /\
      volumeOk bgMusic = true /\
      recorderAccepts host (selectMimeType host format) = true
  | PlayRejected | TypeError => False
  end.

(** ** Sample data of the workflow layer *)

Definition draft (k : Z) (i : string) : App.SceneRow :=
  {| App.id := i; App.errorMsg := None;
     App.fields := {| scene_number := k; status := pending; videoUrl := None;
                      trimStart := None; trimEnd := None; overlayText := None;
                      transition := None |} |}.

Definition done (k : Z) (i u : string) : App.SceneRow :=
  {| App.id := i; App.errorMsg := None; App.fields := clip k u None |}.

Definition projectOf (l : list App.SceneRow) : App.Project :=
  {| App.projectId := "p1"; App.name := "demo"; App.characterImageBase64 := None;
     App.scenes := l; App.backgroundMusic := None; App.aspectRatio := ar16_9 |}.

(** A generation service that resolves every call. *)
Definition obliging : App.Service := fun _ _ _ _ => App.Resolved "blob:video".

(** [q] is the project [p] with the scenes of one id updated, and
    nothing else changed. *)
Definition oneSceneEdited (p : App.Project) (q : option App.Project) : Prop :=
  exists sceneId updates,
    q = Some (App.withScenes p (App.updateScenes sceneId updates (App.scenes p))).

(** An environment outside AI Studio, with a key typed into the
    settings dialog. *)
Definition ownKeyEnv : Gemini.Env :=
  {| Gemini.hasWindow := true; Gemini.storedKey := Some "my-key"%string;
     Gemini.API_KEY := None; Gemini.aistudio := None |}.

(** ** Arithmetic helpers *)


Ltac split_minmax :=
  repeat match goal with
  | |- context [Qmax ?a ?b] =>
      let H := fresh "Hmax" in
      destruct (Q.max_spec a b) as [[? H]|[? H]]; rewrite H in *
  | |- context [Qmin ?a ?b] =>
      let H := fresh "Hmin" in
      destruct (Q.min_spec a b) as [[? H]|[? H]]; rewrite H in *
  end.


Lemma le_of_div_le (a b c : Q) : 0 < b -> a / b <= c -> a <= b * c.
Proof.
  intros Hb H.
  assert (E : a == b * (a / b)) by (field; intro; lra).
  rewrite E. apply Qmult_le_l; assumption.
Qed.

Lemma coverScale_covers (width height vW vH : Q) :
  0 < vW -> 0 < vH ->
  width <= vW * coverScale width height vW vH /\
  height <= vH * coverScale width height vW vH.
Proof.
  intros HW HH. unfold coverScale. split.
  - apply le_of_div_le; [exact HW | apply Q.le_max_l].
  - apply le_of_div_le; [exact HH | apply Q.le_max_r].
Qed.

Lemma transitionProgress_range (td nextStart ct : Q) :
  0 <= transitionProgress td nextStart ct <= 1.
Proof. unfold transitionProgress. split; split_minmax; lra. Qed.

(** ** Solo phase timing *)


(** ** Frame geometry *)

(** In exact arithmetic the scaled source is never smaller than the
    surface. *)
Lemma coverFit_exact (outW outH srcW srcH : Q) (r : Rect) :
  0 < srcW -> 0 < srcH -> coverFit outW outH srcW srcH r ->
  contains (boxOf r) (surface outW outH).
Proof.
  intros HW HH (Hw & Hh & _ & _ & Hc).
  destruct (coverScale_covers outW outH srcW srcH HW HH) as [Hx Hy].
  unfold coverScale in Hx, Hy. apply Hc; [rewrite Hw | rewrite Hh]; assumption.
Qed.




Section CoverInDoubles.

Import PrimFloat.
Local Open Scope float_scope.


End CoverInDoubles.



Section WipeInDoubles.

Import PrimFloat.
Local Open Scope float_scope.


End WipeInDoubles.

(** ** Crossfade gains *)

Lemma drawEffect_pure (width height : Q) (ty : TransitionType) (cur next : nat) (t : Q) (s : St) :
  res (drawEffect width height ty cur next t s) = Ret tt /\
  final (drawEffect width height ty cur next t s) = s.
Proof. destruct ty; split; reflexivity. Qed.

Lemma two_slots (s : St) :
  List.length (slots s) = 2%nat -> exists a b, slots s = [a; b].
Proof.
  destruct (slots s) as [|a [|b [|c l]]]; simpl; intros H; try discriminate.
  exists a, b. reflexivity.
Qed.

Lemma drawTransFrame_resolved (width height : Q) (ty : TransitionType)
    (td nextStart : Q) (cur next : nat) (ct : Q) (s : St) :
  1 <= transitionProgress td nextStart ct ->
  drawTransFrame width height ty td nextStart cur next ct s = mkOut (Ret true) s [].
Proof.
  intros H. unfold drawTransFrame.
  apply Qle_bool_iff in H. rewrite H. reflexivity.
Qed.

Lemma drawTransFrame_writes (width height : Q) (ty : TransitionType)
    (td nextStart : Q) (cur : nat) (ct : Q) (s : St) :
  (cur < 2)%nat -> List.length (slots s) = 2%nat ->
  transitionProgress td nextStart ct < 1 ->
  let t := transitionProgress td nextStart ct in
  let o := drawTransFrame width height ty td nextStart cur (1 - cur) ct s in
  res o = Ret false /\
  gainValue (slotAt (final o) cur) = 1 - t /\
  gainValue (slotAt (final o) (1 - cur)) = t.
Proof.
  intros Hcur Hlen Ht t o.
  destruct (two_slots s Hlen) as (a & b & Hs).
  subst o. unfold drawTransFrame. fold t.
  destruct (Qle_bool 1 t) eqn:E.
  - apply Qle_bool_iff in E. subst t. lra.
  - unfold bind, setGain, modify, emit; simpl.
    match goal with
    | |- context [drawEffect ?w ?h ?y ?c ?n ?x ?st] =>
        destruct (drawEffect_pure w h y c n x st) as [Hres Hfin]
    end.
    rewrite Hres; simpl. rewrite Hfin.
    unfold slotAt, withSlots; simpl. rewrite Hs.
    destruct cur as [|[|k]]; [| |lia]; simpl; repeat split; reflexivity.
Qed.

(** One transition frame and the swap: progress in [[0,1]]; below 1 the
    gains become [1 - t] and [t]; at 1 nothing is written; the swap resets
    both gains and exchanges the roles. *)
Lemma crossfade_frame :
  forall (width height : Q) (ty : TransitionType)
         (transitionDuration nextStart currentTime : Q) (cur : nat) (s : St),
    (cur < 2)%nat -> List.length (slots s) = 2%nat ->
    let next := (1 - cur)%nat in
    let t := transitionProgress transitionDuration nextStart currentTime in
    let o := drawTransFrame width height ty transitionDuration nextStart cur next currentTime s in
    let outgoing := gainValue (slotAt (final o) cur) in
    let incoming := gainValue (slotAt (final o) next) in
    let swapped := final (swapSlots cur next s) in
    (0 <= t <= 1) /\
    (t < 1 ->
       res o = Ret false /\ outgoing == 1 - t /\ incoming == t /\
       (0 <= outgoing <= 1) /\ (0 <= incoming <= 1)) /\
    (t == 0 -> outgoing == 1 /\ incoming == 0) /\
    (1 <= t -> res o = Ret true /\ final o = s /\ evs o = []) /\
    gainValue (slotAt swapped cur) = 1 /\ gainValue (slotAt swapped next) = 1 /\
    activeSlotIndex swapped = next.
Proof.
  intros width height ty td ns ct cur s Hcur Hlen next t o outgoing incoming swapped.
  pose proof (transitionProgress_range td ns ct) as Hr. fold t in Hr.
  assert (Hlt : t < 1 -> res o = Ret false /\ outgoing = 1 - t /\ incoming = t).
  { intros Ht. apply (drawTransFrame_writes width height ty td ns cur ct s Hcur Hlen Ht). }
  split; [exact Hr|]. split; [|split; [|split]].
  - intros Ht. destruct (Hlt Ht) as (Hres & Ho & Hi).
    rewrite Ho, Hi. repeat split; try reflexivity; try assumption; lra.
  - intros Ht0. assert (Ht : t < 1) by lra.
    destruct (Hlt Ht) as (_ & Ho & Hi). rewrite Ho, Hi. split; lra.
  - intros Ht1. subst o.
    rewrite (drawTransFrame_resolved width height ty td ns cur next ct s Ht1).
    repeat split.
  - destruct (two_slots s Hlen) as (a & b & Hs).
    subst swapped next. unfold slotAt; simpl. rewrite Hs.
    destruct cur as [|[|k]]; [| |lia]; repeat split.
Qed.

(** ** Which scene configures a transition *)

Lemma nextSceneAt_some (validScenes : list Scene) (i : nat) (nextScene : Scene) :
  nth_error validScenes (S i) = Some nextScene ->
  nextSceneAt validScenes i = Some nextScene.
Proof.
  intros H. unfold nextSceneAt, hasNextAt.
  assert (Hlt : (S i < List.length validScenes)%nat).
  { apply nth_error_Some. rewrite H. discriminate. }
  apply Nat.ltb_lt in Hlt. rewrite Hlt. exact H.
Qed.

Lemma iteration_ignores_first_transition (host : Host) (width height : Q)
    (resolution : ExportResolution) (tr : option Transition) (c : Scene)
    (rest : list Scene) (i : nat) :
  iteration host width height resolution (setTransition tr c :: rest) i =
  iteration host width height resolution (c :: rest) i.
Proof. destruct i; reflexivity. Qed.

Lemma forLoop_ignores_first_transition (host : Host) (width height : Q)
    (resolution : ExportResolution) (tr : option Transition) (c : Scene)
    (rest : list Scene) (remaining : nat) :
  forall i,
    forLoop host width height resolution (setTransition tr c :: rest) remaining i =
    forLoop host width height resolution (c :: rest) remaining i.
Proof.
  induction remaining as [|k IH]; intros i; simpl.
  - reflexivity.
  - rewrite iteration_ignores_first_transition, IH. reflexivity.
Qed.

Lemma playback_ignores_first_transition (host : Host) (width height : Q)
    (resolution : ExportResolution) (tr : option Transition) (c : Scene)
    (rest : list Scene) (mimeType : string) :
  playback host width height resolution (setTransition tr c :: rest) mimeType =
  playback host width height resolution (c :: rest) mimeType.
Proof.
  unfold playback.
  change (List.length (setTransition tr c :: rest)) with (List.length (c :: rest)).
  change (urlOf (setTransition tr c)) with (urlOf c).
  rewrite forLoop_ignores_first_transition. reflexivity.
Qed.

(** C6 as stated fails: with [fade 1 s] configured on the first clip
    and [wipe_left 2 s] on the second (the last), the transition between
    them is the last clip's wipe of 2 s, not the first clip's fade of 1 s,
    and the frames drawn are those of a wipe. *)
Lemma C6_counterexample :
  let first := clip 1 "a.mp4" (Some {| type := fade; duration := 1 |}) in
  let last := clip 2 "b.mp4" (Some {| type := wipe_left; duration := 2 |}) in
  let tm := timingAt [first; last] 0 first 8 in
  transitionType tm <> transitionTypeOf (transition first) /\
  ~ transitionDuration tm == transitionDurationOf (transition first) /\
  transitionType tm = transitionTypeOf (transition last) /\
  transitionDuration tm == transitionDurationOf (transition last) /\
  In (ClipRect (wipeLeftClip 1280 720 (transitionProgress 2 0 (1 # 2))))
     (evs (stitchVideos webmHost [first; last] None r720p mp4 ar16_9 idle)).
Proof.
  vm_compute. repeat split; try (intro H; discriminate H).
  repeat match goal with |- _ \/ _ => first [left; reflexivity | right] end.
Qed.

(** ** Reasoning about computations *)

Lemma evs_bind {A B} (m : M A) (k : A -> M B) (s : St) :
  evs (bind m k s) =
  evs (m s) ++ match res (m s) with
               | Ret a => evs (k a (final (m s)))
               | _ => []
               end.
Proof.
  unfold bind. destruct (res (m s)); simpl; try reflexivity;
    symmetry; apply app_nil_r.
Qed.

Lemma res_bind_Ret {A B} (m : M A) (k : A -> M B) (s : St) (b : B) :
  res (bind m k s) = Ret b ->
  exists a, res (m s) = Ret a /\ res (k a (final (m s))) = Ret b.
Proof.
  unfold bind. destruct (res (m s)) as [a| |]; simpl; intros H; try discriminate.
  exists a. split; [reflexivity | exact H].
Qed.

Lemma final_bind {A B} (m : M A) (k : A -> M B) (s : St) :
  final (bind m k s) =
  match res (m s) with
  | Ret a => final (k a (final (m s)))
  | _ => final (m s)
  end.
Proof. unfold bind. destruct (res (m s)); reflexivity. Qed.

Lemma progressValues_app (l1 l2 : list Event) :
  progressValues (l1 ++ l2) = progressValues l1 ++ progressValues l2.
Proof.
  induction l1 as [|e l1 IH]; simpl; [reflexivity|].
  destruct e; simpl; rewrite ?IH; reflexivity.
Qed.

Lemma boundedMono_nil (lo hi : Q) : boundedMono lo hi [].
Proof. split; [exact I | constructor]. Qed.

Lemma boundedMono_one (lo hi p : Q) : lo <= p -> p <= hi -> boundedMono lo hi [p].
Proof.
  intros H1 H2. split; [simpl; tauto|]. constructor; [split; assumption | constructor].
Qed.

Lemma boundedMono_app (a b b' c : Q) (l1 l2 : list Q) :
  boundedMono a b l1 -> boundedMono b' c l2 ->
  a <= b -> b <= b' -> b' <= c ->
  boundedMono a c (l1 ++ l2).
Proof.
  intros [M1 F1] [M2 F2] Hab Hbb Hbc. split.
  - induction l1 as [|x l1 IH]; simpl; [exact M2|].
    destruct M1 as [Hx M1]. inversion F1 as [|? ? Fx F1']; subst.
    split; [|apply IH; assumption].
    destruct l1 as [|y l1]; simpl.
    + destruct l2 as [|z l2]; [exact I|].
      inversion F2 as [|? ? Fz _]; subst. lra.
    + exact Hx.
  - apply Forall_app. split.
    + eapply Forall_impl; [|exact F1]. simpl. intros p Hp. lra.
    + eapply Forall_impl; [|exact F2]. simpl. intros p Hp. lra.
Qed.

Lemma silent_within {A} (lo hi : Q) (m : M A) : silent m -> reportsWithin lo hi m.
Proof. intros H s. rewrite H. apply boundedMono_nil. Qed.

Lemma silent_bind {A B} (m : M A) (k : A -> M B) :
  silent m -> (forall a, silent (k a)) -> silent (bind m k).
Proof.
  intros Hm Hk s. rewrite evs_bind, progressValues_app, Hm.
  destruct (res (m s)); simpl; [apply Hk | reflexivity | reflexivity].
Qed.

Lemma reportsWithin_bind {A B} (a b b' c : Q) (m : M A) (k : A -> M B) :
  reportsWithin a b m -> (forall x, reportsWithin b' c (k x)) ->
  a <= b -> b <= b' -> b' <= c ->
  reportsWithin a c (bind m k).
Proof.
  intros Hm Hk Hab Hbb Hbc s. rewrite evs_bind, progressValues_app.
  apply (boundedMono_app a b b' c); try assumption; [apply Hm|].
  destruct (res (m s)); simpl; [apply Hk | apply boundedMono_nil | apply boundedMono_nil].
Qed.

Lemma silent_then {A B} (lo hi : Q) (m : M A) (k : A -> M B) :
  silent m -> (forall x, reportsWithin lo hi (k x)) -> reportsWithin lo hi (bind m k).
Proof.
  intros Hm Hk s. rewrite evs_bind, progressValues_app, Hm. simpl.
  destruct (res (m s)); simpl; [apply Hk | apply boundedMono_nil | apply boundedMono_nil].
Qed.

Lemma endsAt100_bind {A B} (m : M A) (k : A -> M B) :
  (forall a, endsAt100 (k a)) -> endsAt100 (bind m k).
Proof.
  intros Hk s b Hb.
  destruct (res_bind_Ret m k s b Hb) as (a & Ha & Hka).
  destruct (Hk a (final (m s)) b Hka) as (before & Hbefore).
  exists (progressValues (evs (m s)) ++ before).
  rewrite evs_bind, progressValues_app, Ha, Hbefore. apply app_assoc.
Qed.

Create HintDb silent.

Ltac silent_step :=
  match goal with
  | |- silent (bind _ _) => apply silent_bind; [|intros]
  | |- silent (if ?c then _ else _) => destruct c
  | |- silent (match ?x with _ => _ end) => destruct x
  | |- silent _ => solve [auto with silent]
  | |- silent _ => solve [intros ?; reflexivity]
  end.

Ltac silent_tac := repeat silent_step.

Lemma silent_ret {A} (a : A) : silent (ret a).
Proof. intros s. reflexivity. Qed.
Lemma silent_throw {A} (e : Err) : silent (@throw A e).
Proof. intros s. reflexivity. Qed.
Lemma silent_pend {A} : silent (@pend A).
Proof. intros s. reflexivity. Qed.
Lemma silent_get : silent get.
Proof. intros s. reflexivity. Qed.
Lemma silent_modify (f : St -> St) : silent (modify f).
Proof. intros s. reflexivity. Qed.
#[export] Hint Resolve silent_ret silent_throw silent_pend silent_get silent_modify : silent.

Ltac silent_prim := intros s; unfold bind; simpl; reflexivity.

Lemma silent_createCanvas (w h : Q) : silent (createCanvas w h).
Proof. silent_prim. Qed.
Lemma silent_getContext (host : Host) : silent (getContext host).
Proof. unfold getContext. silent_tac. Qed.
Lemma silent_createAudioContext : silent createAudioContext.
Proof. silent_prim. Qed.
Lemma silent_createSlot : silent createSlot.
Proof. silent_prim. Qed.
Lemma silent_setupBgMusic (bg : option BackgroundMusic) : silent (setupBgMusic bg).
Proof. unfold setupBgMusic. destruct bg as [b|]; [destruct (truthyStr (Some (url b))); [destruct (volumeAccepted (volume b))|]|]; silent_prim. Qed.
Lemma silent_newMediaRecorder (host : Host) (m : string) (bps : Z) :
  silent (newMediaRecorder host m bps).
Proof. unfold newMediaRecorder. destruct (recorderAccepts host m); silent_prim. Qed.
Lemma silent_recorderStart : silent recorderStart.
Proof. silent_prim. Qed.
Lemma silent_recorderPause : silent recorderPause.
Proof. silent_prim. Qed.
Lemma silent_recorderResume : silent recorderResume.
Proof. silent_prim. Qed.
Lemma silent_recorderStop : silent recorderStop.
Proof. silent_prim. Qed.
Lemma silent_bgPlay : silent bgPlay.
Proof. intros s. unfold bgPlay, bind; simpl. destruct (bgMusicEl s); reflexivity. Qed.
Lemma silent_bgPause : silent bgPause.
Proof. intros s. unfold bgPause, bind; simpl. destruct (bgMusicEl s); reflexivity. Qed.
Lemma silent_setSrc (k : nat) (u : string) : silent (setSrc k u).
Proof. silent_prim. Qed.
Lemma silent_awaitLoadedMetadata (host : Host) (k : nat) : silent (awaitLoadedMetadata host k).
Proof.
  intros s. unfold awaitLoadedMetadata, bind; simpl.
  destruct (src (slotAt s k)) as [u|]; [destruct (metadata host u)|]; reflexivity.
Qed.
Lemma silent_seek (k : nat) (t : Q) : silent (seek k t).
Proof. silent_prim. Qed.
Lemma silent_play (host : Host) (k : nat) : silent (play host k).
Proof.
  intros s. unfold play, bind; simpl.
  destruct (src (slotAt s k)) as [u|]; [destruct (playResolves host u)|]; reflexivity.
Qed.
Lemma silent_pauseVideo (k : nat) : silent (pauseVideo k).
Proof. silent_prim. Qed.
Lemma silent_setGain (k : nat) (v : Q) : silent (setGain k v).
Proof. silent_prim. Qed.
Lemma silent_setActiveSlotIndex (k : nat) : silent (setActiveSlotIndex k).
Proof. silent_prim. Qed.
Lemma silent_setLastProgressUpdate (t : Z) : silent (setLastProgressUpdate t).
Proof. silent_prim. Qed.
Lemma silent_drawScaled (w h : Q) (k : nat) (alpha x : Q) : silent (drawScaled w h k alpha x).
Proof. silent_prim. Qed.
Lemma silent_cleanup : silent cleanup.
Proof. intros s. unfold cleanup, bind; simpl. destruct (bgMusicEl s); reflexivity. Qed.
#[export] Hint Resolve silent_createCanvas silent_getContext silent_createAudioContext
  silent_createSlot silent_setupBgMusic silent_newMediaRecorder silent_recorderStart
  silent_recorderPause silent_recorderResume silent_recorderStop silent_bgPlay
  silent_bgPause silent_setSrc silent_awaitLoadedMetadata silent_seek silent_play
  silent_pauseVideo silent_setGain silent_setActiveSlotIndex
  silent_setLastProgressUpdate silent_drawScaled silent_cleanup : silent.

Lemma silent_drawEffect (w h : Q) (ty : TransitionType) (cur next : nat) (t : Q) :
  silent (drawEffect w h ty cur next t).
Proof. destruct ty; intros s; reflexivity. Qed.
#[export] Hint Resolve silent_drawEffect : silent.

Lemma silent_drawTransFrame (w h : Q) (ty : TransitionType) (td ns : Q) (cur next : nat) (ct : Q) :
  silent (drawTransFrame w h ty td ns cur next ct).
Proof. unfold drawTransFrame. silent_tac. Qed.
#[export] Hint Resolve silent_drawTransFrame : silent.

Lemma silent_drawTrans (w h : Q) (ty : TransitionType) (td ns : Q) (cur next : nat)
    (frames : list Q) :
  silent (drawTrans w h ty td ns cur next frames).
Proof.
  induction frames as [|ct rest IH]; simpl; [auto with silent|].
  apply silent_bind; [auto with silent|].
  intros [|]; auto with silent.
Qed.

Lemma silent_swapSlots (cur next : nat) : silent (swapSlots cur next).
Proof. unfold swapSlots. silent_tac. Qed.
#[export] Hint Resolve silent_drawTrans silent_swapSlots : silent.

(** ** Progress reporting *)

Lemma percent_mono (x y : Q) (n : nat) :
  (0 < n)%nat -> x <= y ->
  x / inject_Z (Z.of_nat n) * 100 <= y / inject_Z (Z.of_nat n) * 100.
Proof.
  intros Hn Hxy.
  assert (HN : 0 < inject_Z (Z.of_nat n)).
  { change 0 with (inject_Z 0). rewrite <- Zlt_Qlt. lia. }
  apply Qmult_le_compat_r; [|lra].
  unfold Qdiv. apply Qmult_le_compat_r; [exact Hxy|].
  apply Qlt_le_weak, Qinv_lt_0_compat, HN.
Qed.

Lemma inject_S (i : nat) :
  inject_Z (Z.of_nat (S i)) == inject_Z (Z.of_nat i) + 1.
Proof. rewrite Nat2Z.inj_succ. unfold Z.succ. rewrite inject_Z_plus. reflexivity. Qed.

Lemma solo_le_transition (i n : nat) :
  (0 < n)%nat -> soloPercent i n <= transitionPercent i n.
Proof. intros Hn. unfold soloPercent, transitionPercent. apply percent_mono; [exact Hn | lra]. Qed.

Lemma transition_le_next_solo (i n : nat) :
  (0 < n)%nat -> transitionPercent i n <= soloPercent (S i) n.
Proof.
  intros Hn. unfold soloPercent, transitionPercent.
  apply percent_mono; [exact Hn | rewrite inject_S; lra].
Qed.

Lemma soloPercent_full (n : nat) : (0 < n)%nat -> soloPercent n n == 100.
Proof.
  intros Hn. unfold soloPercent.
  assert (HN : 0 < inject_Z (Z.of_nat n)).
  { change 0 with (inject_Z 0). rewrite <- Zlt_Qlt. lia. }
  field. intro E. lra.
Qed.

Lemma soloPercent_le_100 (i n : nat) :
  (0 < n)%nat -> (i <= n)%nat -> soloPercent i n <= 100.
Proof.
  intros Hn Hi. rewrite <- (soloPercent_full n Hn).
  unfold soloPercent. apply percent_mono; [exact Hn|].
  rewrite <- Zle_Qle. lia.
Qed.

Lemma soloPercent_0 (n : nat) : soloPercent 0 n == 0.
Proof. unfold soloPercent. simpl. unfold Qdiv. ring. Qed.

Lemma drawSolo_reports (w h : Q) (r : ExportResolution) (n i : nat)
    (overlay : option string) (num : Z) (cur : nat) (soloEndTime : Q) (frames : list Frame) :
  reportsWithin (soloPercent i n) (soloPercent i n)
    (drawSolo w h r n i overlay num cur soloEndTime frames).
Proof.
  induction frames as [|f rest IH]; simpl.
  - apply silent_within; auto with silent.
  - destruct (paused f || ended f || Qle_bool soloEndTime (currentTime f)).
    + apply silent_within; auto with silent.
    + apply silent_then; [auto with silent|]. intros s.
      apply silent_then; [intros ?; reflexivity|]. intros _.
      apply silent_then; [destruct (truthyStr overlay); intros ?; reflexivity|]. intros _.
      apply (reportsWithin_bind _ (soloPercent i n) (soloPercent i n)); try lra.
      * destruct (now f - lastProgressUpdate s >? 100)%Z.
        -- intros s'. apply boundedMono_one; lra.
        -- apply silent_within; auto with silent.
      * intros _. exact IH.
Qed.

Lemma iteration_reports (host : Host) (w h : Q) (r : ExportResolution)
    (validScenes : list Scene) (i : nat) :
  (0 < List.length validScenes)%nat ->
  reportsWithin (soloPercent i (List.length validScenes))
                (transitionPercent i (List.length validScenes))
    (iteration host w h r validScenes i).
Proof.
  intros Hn. unfold iteration.
  pose proof (solo_le_transition i _ Hn) as Hle.
  destruct (nth_error validScenes i) as [c|]; [|apply silent_within; auto with silent].
  apply silent_then; [auto with silent|]. intros s.
  apply silent_then; [silent_tac|]. intros _.
  apply (reportsWithin_bind _ (soloPercent i (List.length validScenes))
           (transitionPercent i (List.length validScenes)));
    try lra; [apply drawSolo_reports|].
  intros _.
  destruct (hasNextAt validScenes i); [|apply silent_within; auto with silent].
  destruct (nextSceneAt validScenes i) as [ns|]; [|apply silent_within; auto with silent].
  apply silent_then; [auto with silent|]. intros _.
  apply (reportsWithin_bind _ (transitionPercent i (List.length validScenes))
           (transitionPercent i (List.length validScenes))); try lra.
  - intros s'. apply boundedMono_one; lra.
  - intros _. apply silent_within. silent_tac.
Qed.

Lemma forLoop_reports (host : Host) (w h : Q) (r : ExportResolution)
    (validScenes : list Scene) (remaining : nat) :
  forall i,
    (0 < List.length validScenes)%nat ->
    (i + remaining = List.length validScenes)%nat ->
    reportsWithin (soloPercent i (List.length validScenes)) 100
      (forLoop host w h r validScenes remaining i).
Proof.
  induction remaining as [|k IH]; intros i Hn Hsum; simpl.
  - apply silent_within; auto with silent.
  - pose proof (solo_le_transition i _ Hn) as H1.
    pose proof (transition_le_next_solo i _ Hn) as H2.
    assert (H3 : soloPercent (S i) (List.length validScenes) <= 100)
      by (apply soloPercent_le_100; lia).
    apply (reportsWithin_bind _ (transitionPercent i (List.length validScenes))
             (soloPercent (S i) (List.length validScenes))); try assumption.
    + apply iteration_reports; exact Hn.
    + intros _. apply IH; [exact Hn | lia].
Qed.

Lemma wrapUp_reports (mimeType : string) :
  reportsWithin 100 100
    (onProgress 100 Finalizing ;; recorderStop ;; bgPause ;; ret mimeType).
Proof.
  apply (reportsWithin_bind _ 100 100); try lra.
  - intros s. apply boundedMono_one; lra.
  - intros _. apply silent_within. silent_tac.
Qed.

Lemma playback_reports (host : Host) (w h : Q) (r : ExportResolution)
    (validScenes : list Scene) (mimeType : string) :
  reportsWithin 0 100 (playback host w h r validScenes mimeType).
Proof.
  unfold playback. destruct validScenes as [|c rest] eqn:E.
  - apply silent_within; auto with silent.
  - rewrite <- E.
    assert (Hn : (0 < List.length validScenes)%nat) by (rewrite E; simpl; lia).
    apply (reportsWithin_bind _ 0 0); try lra.
    + intros s. apply boundedMono_one; lra.
    + intros _. apply silent_then; [auto with silent|]. intros s.
      apply silent_then; [auto with silent|]. intros _.
      apply silent_then; [auto with silent|]. intros _.
      apply (reportsWithin_bind _ 100 100); try lra.
      * intros s'.
        destruct (forLoop_reports host w h r validScenes (List.length validScenes)
                    0%nat Hn eq_refl s') as [Hm Hf].
        split; [exact Hm|].
        eapply Forall_impl; [|exact Hf]. simpl. intros p Hp.
        pose proof (soloPercent_0 (List.length validScenes)). lra.
      * intros _. apply wrapUp_reports.
Qed.

Lemma evs_tryCatchFinally {A} (body : M A) (fin : M unit) (s : St) :
  silent fin ->
  progressValues (evs (tryCatchFinally body (fun _ => throw StitchingFailed) fin s)) =
  progressValues (evs (body s)).
Proof.
  intros Hfin. unfold tryCatchFinally.
  destruct (res (body s)); simpl;
    rewrite ?progressValues_app, ?Hfin; simpl; rewrite ?app_nil_r; reflexivity.
Qed.

Lemma res_tryCatchFinally_Ret {A} (body : M A) (fin : M unit) (s : St) (a : A) :
  res (tryCatchFinally body (fun _ => throw StitchingFailed) fin s) = Ret a ->
  res (body s) = Ret a.
Proof.
  unfold tryCatchFinally. destruct (res (body s)) as [b| |]; simpl.
  - destruct (res (fin (final (body s)))); intros H; try discriminate. exact H.
  - destruct (res (fin (final (body s)))); intros H; discriminate.
  - intros H; discriminate.
Qed.

Lemma playback_endsAt100 (host : Host) (w h : Q) (r : ExportResolution)
    (validScenes : list Scene) (mimeType : string) :
  endsAt100 (playback host w h r validScenes mimeType).
Proof.
  unfold playback. destruct validScenes as [|c rest].
  - intros s a H. discriminate.
  - do 5 (apply endsAt100_bind; intros ?).
    intros s' b _. exists []. unfold bgPause, bind; simpl.
    destruct (bgMusicEl s'); reflexivity.
Qed.

Lemma stitchVideos_reports (host : Host) (scenes : list Scene)
    (bg : option BackgroundMusic) (r : ExportResolution) (f : ExportFormat)
    (a : AspectRatio) :
  reportsWithin 0 100 (stitchVideos host scenes bg r f a).
Proof.
  unfold stitchVideos.
  destruct (List.length (validScenesOf scenes) =? 0)%nat;
    [apply silent_within; auto with silent|].
  do 11 (apply silent_then; [auto with silent | intros ?]).
  intros s. rewrite evs_tryCatchFinally by auto with silent.
  apply playback_reports.
Qed.

Lemma stitchVideos_endsAt100 (host : Host) (scenes : list Scene)
    (bg : option BackgroundMusic) (r : ExportResolution) (f : ExportFormat)
    (a : AspectRatio) :
  endsAt100 (stitchVideos host scenes bg r f a).
Proof.
  unfold stitchVideos.
  destruct (List.length (validScenesOf scenes) =? 0)%nat;
    [intros s u H; discriminate|].
  do 11 (apply endsAt100_bind; intros ?).
  intros s u H. apply res_tryCatchFinally_Ret in H.
  rewrite evs_tryCatchFinally by auto with silent.
  exact (playback_endsAt100 _ _ _ _ _ _ s u H).
Qed.

(** C3 (amended): in every stitch the percentages passed to the progress
    callback never decrease and lie between 0 and 100, and every stitch
    that returns its result has reported exactly 100 last. *)
Theorem C3_progress_monotone :
  forall (host : Host) (scenes : list Scene) (bgMusic : option BackgroundMusic)
         (resolution : ExportResolution) (format : ExportFormat)
         (aspectRatio : AspectRatio) (s : St),
    let o := stitchVideos host scenes bgMusic resolution format aspectRatio s in
    nondecreasing (progressValues (evs o)) /\
    Forall (fun p => 0 <= p <= 100) (progressValues (evs o)) /\
    (forall u, res o = Ret u ->
       exists before, progressValues (evs o) = before ++ [100]).
Proof.
  intros host scenes bg r f a s o.
  destruct (stitchVideos_reports host scenes bg r f a s) as [Hm Hf].
  split; [exact Hm|]. split; [exact Hf|].
  intros u Hu. exact (stitchVideos_endsAt100 host scenes bg r f a s u Hu).
Qed.

Lemma C3_progress_monotone_witness :
  let o := stitchVideos webmHost fadeFirst None r720p mp4 ar16_9 idle in
  res o = Ret "video/webm"%string /\
  nondecreasing (progressValues (evs o)) /\
  exists before, progressValues (evs o) = before ++ [100].
Proof.
  intros o.
  assert (Hret : res o = Ret "video/webm"%string) by reflexivity.
  destruct (C3_progress_monotone webmHost fadeFirst None r720p mp4 ar16_9 idle)
    as (Hm & _ & Hlast).
  split; [exact Hret|]. split; [exact Hm|].
  exact (Hlast "video/webm"%string Hret).
Defined.

(** C3 as stated fails on a stitch that aborts: when the first clip's
    [play()] is rejected the stitch throws "Stitching failed." after a
    single report, and the last value reported is 0; with no completed
    clip it throws before any report. *)
Lemma C3_counterexample :
  let aborted :=
    stitchVideos noAutoplayHost [clip 1 "a.mp4" None] None r720p mp4 ar16_9 idle in
  let empty := stitchVideos webmHost [] None r720p mp4 ar16_9 idle in
  res aborted = Throw StitchingFailed /\
  progressValues (evs aborted) = [0] /\
  ~ List.last (progressValues (evs aborted)) 0 == 100 /\
  res empty = Throw NoCompletedVideos /\
  progressValues (evs empty) = [].
Proof. vm_compute. repeat split. intro H; discriminate H. Qed.

(** ** The start of the recording *)

Lemma stitchVideos_unfold (host : Host) (scenes : list Scene)
    (bg : option BackgroundMusic) (r : ExportResolution) (f : ExportFormat)
    (a : AspectRatio) :
  stitchVideos host scenes bg r f a =
  if (List.length (validScenesOf scenes) =? 0)%nat then throw NoCompletedVideos
  else startRecording host (outWidth a r) (outHeight a r) bg
         (selectMimeType host f) (videoBitsPerSecond r)
         (tryCatchFinally
            (playback host (outWidth a r) (outHeight a r) r (validScenesOf scenes)
               (selectMimeType host f))
            (fun _ => throw StitchingFailed) cleanup).
Proof. reflexivity. Qed.

Lemma startRecording_run {A} (host : Host) (w h : Q) (bg : option BackgroundMusic)
    (mime : string) (bps : Z) (rest : M A) :
  getContext2d host = true ->
  volumeOk bg = true ->
  recorderAccepts host mime = true ->
  startRecording host w h bg mime bps rest idle =
  mkOut (res (rest (recordingState w h bg)))
        (final (rest (recordingState w h bg)))
        (startEvents w h bg mime bps ++ evs (rest (recordingState w h bg))).
Proof.
  intros Hctx Hvol Hacc.
  unfold startRecording, getContext, newMediaRecorder, recordingState, startEvents.
  rewrite Hctx, Hacc.
  destruct bg as [b|]; unfold bgElementOf, setupBgMusic; [|reflexivity].
  unfold volumeOk in Hvol.
  destruct (truthyStr (Some (url b))); [|reflexivity].
  cbn [negb orb] in Hvol. rewrite Hvol. reflexivity.
Qed.

Lemma startRecording_rejected {A} (host : Host) (w h : Q) (bg : option BackgroundMusic)
    (mime : string) (bps : Z) (rest : M A) :
  getContext2d host = true ->
  volumeOk bg = true ->
  recorderAccepts host mime = false ->
  res (startRecording host w h bg mime bps rest idle) = Throw NotSupportedError /\
  ~ In RecorderStart (evs (startRecording host w h bg mime bps rest idle)) /\
  ~ In (CreateRecorder mime bps) (evs (startRecording host w h bg mime bps rest idle)).
Proof.
  intros Hctx Hvol Hacc.
  unfold startRecording, getContext, newMediaRecorder.
  rewrite Hctx, Hacc.
  destruct bg as [b|]; unfold setupBgMusic, volumeOk in *;
    [destruct (truthyStr (Some (url b))); [cbn [negb orb] in Hvol; rewrite Hvol|]|];
    (split; [reflexivity | split; vm_compute; intuition discriminate]).
Qed.

Lemma res_cleanup (s : St) : res (cleanup s) = Ret tt.
Proof. unfold cleanup, bind; simpl. destruct (bgMusicEl s); reflexivity. Qed.

Lemma evs_tryCatchFinally_prefix {A} (body : M A) (handler : Err -> M A) (fin : M unit) (s : St) :
  exists tl, evs (tryCatchFinally body handler fin s) = evs (body s) ++ tl.
Proof.
  unfold tryCatchFinally. destruct (res (body s)) as [a|e|]; simpl.
  - eexists. reflexivity.
  - destruct (res (handler e (final (body s)))); simpl; eexists; reflexivity.
  - exists []. symmetry. apply app_nil_r.
Qed.

Lemma tryCatchFinally_never_NotSupported {A} (body : M A) (s : St) :
  res (tryCatchFinally body (fun _ => throw StitchingFailed) cleanup s) <>
  Throw NotSupportedError.
Proof.
  unfold tryCatchFinally. destruct (res (body s)) as [a|e|];
    unfold throw; cbn [res final evs]; rewrite ?res_cleanup; discriminate.
Qed.

Lemma evs_bind_ret {A B} (m : M A) (k : A -> M B) (s s1 : St) (a : A) (l : list Event) :
  m s = mkOut (Ret a) s1 l -> evs (bind m k s) = l ++ evs (k a s1).
Proof. intros H. unfold bind. rewrite H. reflexivity. Qed.

Lemma evs_bind_prefix {A B} (m : M A) (k : A -> M B) (s : St) :
  exists tl, evs (bind m k s) = evs (m s) ++ tl.
Proof. rewrite evs_bind. eexists. reflexivity. Qed.

Lemma playback_first_load (host : Host) (w h : Q) (r : ExportResolution)
    (c : Scene) (rest : list Scene) (mime : string) (s : St) :
  exists tl,
    evs (playback host w h r (c :: rest) mime s) =
    Progress 0 PreparingScene1 :: SetSrc (activeSlotIndex s) (urlOf c) :: tl.
Proof.
  unfold playback.
  erewrite evs_bind_ret by reflexivity.
  erewrite evs_bind_ret by reflexivity.
  match goal with
  | |- context [evs (bind ?m ?k ?x)] => destruct (evs_bind_prefix m k x) as [tl ->]
  end.
  exists tl. reflexivity.
Qed.

Lemma first_load_while_recording (host : Host) (scenes : list Scene)
    (bg : option BackgroundMusic) (r : ExportResolution) (f : ExportFormat)
    (a : AspectRatio) :
  validScenesOf scenes <> [] ->
  getContext2d host = true ->
  volumeOk bg = true ->
  recorderAccepts host (selectMimeType host f) = true ->
  loadsWhileRecording inactive (evs (stitchVideos host scenes bg r f a idle)) = true.
Proof.
  intros Hne Hctx Hvol Hacc. rewrite stitchVideos_unfold.
  destruct (validScenesOf scenes) as [|c rest]; [congruence|].
  change (List.length (c :: rest) =? 0)%nat with false. cbv iota.
  rewrite (startRecording_run _ _ _ _ _ _ _ Hctx Hvol Hacc). cbn [evs].
  match goal with
  | |- context [evs (tryCatchFinally ?b ?hd ?fn ?x)] =>
      destruct (evs_tryCatchFinally_prefix b hd fn x) as [tl ->]
  end.
  destruct (playback_first_load host (outWidth a r) (outHeight a r) r c rest
              (selectMimeType host f) (recordingState (outWidth a r) (outHeight a r) bg))
    as [tl' ->].
  unfold startEvents. destruct (bgElementOf bg); reflexivity.
Qed.

Lemma validScenes_none_completed (scenes : list Scene) :
  filter (fun c => isCompleted (status c)) scenes = [] -> validScenesOf scenes = [].
Proof.
  unfold validScenesOf. induction scenes as [|c l IH]; simpl; [reflexivity|].
  destruct (isCompleted (status c)); simpl; [discriminate | exact IH].
Qed.

Lemma selectMimeType_find (host : Host) (f : ExportFormat) :
  selectMimeType host f =
  match find (isTypeSupported host) probedTypes with
  | Some m => m
  | None => "video/webm"%string
  end.
Proof.
  unfold selectMimeType, probedTypes; simpl.
  destruct f;
    destruct (isTypeSupported host "video/mp4");
    destruct (isTypeSupported host "video/webm;codecs=h264");
    destruct (isTypeSupported host "video/webm;codecs=vp9"); reflexivity.
Qed.

(** ** Empty timeline *)

(** C4: when no input clip is completed, [stitchVideos] throws "No
    completed videos to stitch." at once: it has made no call on the
    browser (no canvas, audio context, slot, music element or recorder is
    created) and the engine state is what it was. *)
Theorem C4_empty_timeline :
  forall (host : Host) (scenes : list Scene) (bgMusic : option BackgroundMusic)
         (resolution : ExportResolution) (format : ExportFormat)
         (aspectRatio : AspectRatio) (s : St),
    filter (fun c => isCompleted (status c)) scenes = [] ->
    let o := stitchVideos host scenes bgMusic resolution format aspectRatio s in
    res o = Throw NoCompletedVideos /\ final o = s /\ evs o = [] /\
    existsb isAllocation (evs o) = false.
Proof.
  intros host scenes bg r f a s Hnone o. subst o.
  rewrite stitchVideos_unfold, (validScenes_none_completed scenes Hnone).
  repeat split.
Qed.

Lemma C4_empty_timeline_witness :
  let scenes :=
    [{| scene_number := 1; status := pending; videoUrl := None;
        trimStart := None; trimEnd := None; overlayText := None; transition := None |};
     {| scene_number := 2; status := errored; videoUrl := Some "b.mp4"%string;
        trimStart := None; trimEnd := None; overlayText := None; transition := None |}] in
  let o := stitchVideos webmHost scenes None r1080p mp4 ar9_16 idle in
  res o = Throw NoCompletedVideos /\ final o = idle /\ evs o = [] /\
  existsb isAllocation (evs o) = false.
Proof.
  intros scenes.
  apply (C4_empty_timeline webmHost scenes None r1080p mp4 ar9_16 idle).
  reflexivity.
Defined.

(** ** Recorder state during the first load *)

(** C5 at a single completed clip: the recorder is started before the
    clip's source is assigned, nothing pauses it in between, and the
    load, the seek and the first [play()] all happen while it records.
    On a two-clip timeline every load and seek after those twelve calls
    happens while the recorder is paused. *)
Theorem C5_first_clip_loads_while_recording :
  let o := stitchVideos webmHost [clip 1 "a.mp4" None] None r720p mp4 ar16_9 idle in
  let o2 := stitchVideos webmHost fadeFirst None r720p mp4 ar16_9 idle in
  res o = Ret "video/webm"%string /\
  firstn 12 (evs o) =
    [CreateCanvas 1280 720; CreateAudioContext; CreateSlot 0; CreateSlot 1;
     CreateRecorder "video/webm" 5000000; RecorderStart;
     Progress 0 PreparingScene1; SetSrc 0 "a.mp4"; LoadedMetadata 0;
     SeekTo 0 0; Seeked 0; Play 0] /\
  loadsWhileRecording inactive (evs o) = true /\
  firstn 12 (evs o2) = firstn 12 (evs o) /\
  In (SetSrc 1 "b.mp4") (skipn 12 (evs o2)) /\
  loadsWhileRecording recording (skipn 12 (evs o2)) = false.
Proof.
  vm_compute. repeat split.
  repeat match goal with |- _ \/ _ => first [left; reflexivity | right] end.
Qed.

(** ** Codec selection *)

Lemma find_app_one {A : Type} (f : A -> bool) (l : list A) (x : A) :
  find f (l ++ [x]) =
  match find f l with
  | Some y => Some y
  | None => if f x then Some x else None
  end.
Proof.
  induction l as [|y l IH]; simpl; [reflexivity|].
  destruct (f y); [reflexivity | exact IH].
Qed.

Lemma selectMimeType_preferred (host : Host) (f : ExportFormat) :
  match find (isTypeSupported host) preferenceList with
  | Some m => selectMimeType host f = m /\ isTypeSupported host m = true
  | None =>
      selectMimeType host f = "video/webm"%string /\
      isTypeSupported host (selectMimeType host f) = false
  end.
Proof.
  unfold preferenceList. rewrite find_app_one, selectMimeType_find.
  destruct (find (isTypeSupported host) probedTypes) as [m|] eqn:E.
  - split; [reflexivity|]. apply find_some in E. apply E.
  - destruct (isTypeSupported host "video/webm") eqn:Ew; split; auto.
Qed.

(** C7: at stitch start the engine selects the first type of its order
    of preference ([video/mp4], [video/webm;codecs=h264],
    [video/webm;codecs=vp9], [video/webm]) that the host supports and
    creates and starts the recorder with it; when the host supports none
    of them the stitch fails with the recorder's NotSupportedError,
    before a recorder exists.  The host's constructor and its
    [isTypeSupported] agree, and the set-up reaches step 4 (a non-empty
    timeline, a 2D context, a background volume the element accepts). *)
Theorem C7_codec_selection :
  forall (host : Host) (scenes : list Scene) (bgMusic : option BackgroundMusic)
         (resolution : ExportResolution) (format : ExportFormat)
         (aspectRatio : AspectRatio),
    validScenesOf scenes <> [] ->
    getContext2d host = true ->
    volumeOk bgMusic = true ->
    recorderConsistent host ->
    let o := stitchVideos host scenes bgMusic resolution format aspectRatio idle in
    let bps := videoBitsPerSecond resolution in
    match find (isTypeSupported host) preferenceList with
    | Some m =>
        selectMimeType host format = m /\
        In (CreateRecorder m bps) (evs o) /\ In RecorderStart (evs o) /\
        res o <> Throw NotSupportedError
    | None =>
        res o = Throw NotSupportedError /\
        ~ In RecorderStart (evs o) /\
        ~ In (CreateRecorder (selectMimeType host format) bps) (evs o)
    end.
Proof.
  intros host scenes bg r f a Hne Hctx Hvol Hcons o bps.
  pose proof (selectMimeType_preferred host f) as Hsel.
  subst o. rewrite stitchVideos_unfold.
  destruct (validScenesOf scenes) as [|c rest] eqn:E; [congruence|].
  change (List.length (c :: rest) =? 0)%nat with false. cbv iota.
  destruct (find (isTypeSupported host) preferenceList) as [m|].
  - destruct Hsel as [Hm Hsup]. split; [exact Hm|].
    assert (Hacc : recorderAccepts host (selectMimeType host f) = true)
      by (rewrite Hcons, Hm; exact Hsup).
    rewrite (startRecording_run _ _ _ _ _ _ _ Hctx Hvol Hacc). cbn [evs res].
    rewrite Hm. repeat split.
    + apply in_or_app. left. unfold startEvents.
      destruct (bgElementOf bg); simpl; tauto.
    + apply in_or_app. left. unfold startEvents.
      destruct (bgElementOf bg); simpl; tauto.
    + apply tryCatchFinally_never_NotSupported.
  - destruct Hsel as [_ Hsup].
    apply startRecording_rejected; [exact Hctx | exact Hvol |].
    rewrite Hcons. exact Hsup.
Qed.

Lemma C7_codec_selection_witness :
  let o := stitchVideos webmHost fadeFirst None r720p mp4 ar16_9 idle in
  selectMimeType webmHost mp4 = "video/webm"%string /\
  In (CreateRecorder "video/webm" 5000000) (evs o) /\ In RecorderStart (evs o) /\
  res o <> Throw NotSupportedError.
Proof.
  apply (C7_codec_selection webmHost fadeFirst None r720p mp4 ar16_9).
  - discriminate.
  - reflexivity.
  - reflexivity.
  - intros m. reflexivity.
Defined.

(** ** Background track level *)

Lemma keeps_bind {A B} (m : M A) (k : A -> M B) :
  keepsBgLevels m -> (forall a, keepsBgLevels (k a)) -> keepsBgLevels (bind m k).
Proof.
  intros Hm Hk s. rewrite final_bind.
  destruct (res (m s)); [rewrite Hk|..]; apply Hm.
Qed.

Lemma keeps_tryCatchFinally {A} (body : M A) (handler : Err -> M A) (fin : M unit) :
  keepsBgLevels body -> (forall e, keepsBgLevels (handler e)) -> keepsBgLevels fin ->
  keepsBgLevels (tryCatchFinally body handler fin).
Proof.
  intros Hb Hh Hf s. unfold tryCatchFinally.
  destruct (res (body s)) as [a|e|]; cbn [final].
  - rewrite Hf. apply Hb.
  - destruct (res (handler e (final (body s)))); cbn [final];
      rewrite ?Hf, Hh; apply Hb.
  - apply Hb.
Qed.

Create HintDb keeps.

Ltac keeps_step :=
  match goal with
  | |- keepsBgLevels (bind _ _) => apply keeps_bind; [|intros]
  | |- keepsBgLevels (if ?c then _ else _) => destruct c
  | |- keepsBgLevels (match ?x with _ => _ end) => destruct x
  | |- keepsBgLevels _ => solve [auto with keeps]
  | |- keepsBgLevels _ => solve [intros ?; reflexivity]
  end.

Ltac keeps_tac := repeat keeps_step.

Lemma keeps_bgPlay : keepsBgLevels bgPlay.
Proof.
  intros s. unfold bgLevels, bgPlay, bind; simpl.
  destruct (bgMusicEl s) eqn:E; simpl; unfold setBgPlaying; rewrite E; reflexivity.
Qed.

Lemma keeps_bgPause : keepsBgLevels bgPause.
Proof.
  intros s. unfold bgLevels, bgPause, bind; simpl.
  destruct (bgMusicEl s) eqn:E; simpl; unfold setBgPlaying; rewrite E; reflexivity.
Qed.

Lemma keeps_awaitLoadedMetadata (host : Host) (k : nat) :
  keepsBgLevels (awaitLoadedMetadata host k).
Proof.
  intros s. unfold awaitLoadedMetadata, bind; simpl.
  destruct (src (slotAt s k)) as [u|]; [destruct (metadata host u)|]; reflexivity.
Qed.

Lemma keeps_play (host : Host) (k : nat) : keepsBgLevels (play host k).
Proof.
  intros s. unfold play, bind; simpl.
  destruct (src (slotAt s k)) as [u|]; [destruct (playResolves host u)|]; reflexivity.
Qed.

Lemma keeps_cleanup : keepsBgLevels cleanup.
Proof. intros s. unfold cleanup, bind; simpl. destruct (bgMusicEl s); reflexivity. Qed.
#[export] Hint Resolve keeps_bgPlay keeps_bgPause keeps_awaitLoadedMetadata keeps_play
  keeps_cleanup : keeps.

Lemma keeps_drawEffect (w h : Q) (ty : TransitionType) (cur next : nat) (t : Q) :
  keepsBgLevels (drawEffect w h ty cur next t).
Proof. destruct ty; intros s; reflexivity. Qed.
#[export] Hint Resolve keeps_drawEffect : keeps.

Lemma keeps_drawTrans (w h : Q) (ty : TransitionType) (td ns : Q) (cur next : nat)
    (frames : list Q) :
  keepsBgLevels (drawTrans w h ty td ns cur next frames).
Proof.
  induction frames as [|ct rest IH]; simpl; [intros s; reflexivity|].
  apply keeps_bind.
  - unfold drawTransFrame. keeps_tac.
  - intros [|]; [intros s; reflexivity | exact IH].
Qed.

Lemma keeps_drawSolo (w h : Q) (r : ExportResolution) (n i : nat)
    (overlay : option string) (num : Z) (cur : nat) (soloEndTime : Q) (frames : list Frame) :
  keepsBgLevels (drawSolo w h r n i overlay num cur soloEndTime frames).
Proof.
  induction frames as [|f rest IH]; simpl; [intros s; reflexivity|].
  destruct (paused f || ended f || Qle_bool soloEndTime (currentTime f));
    [intros s; reflexivity|].
  apply keeps_bind; [intros s; reflexivity|]. intros s.
  do 3 (apply keeps_bind; [keeps_tac|]; intros ?).
  exact IH.
Qed.
#[export] Hint Resolve keeps_drawTrans keeps_drawSolo : keeps.

Lemma keeps_iteration (host : Host) (w h : Q) (r : ExportResolution)
    (validScenes : list Scene) (i : nat) :
  keepsBgLevels (iteration host w h r validScenes i).
Proof. unfold iteration, swapSlots. keeps_tac. Qed.
#[export] Hint Resolve keeps_iteration : keeps.

Lemma keeps_forLoop (host : Host) (w h : Q) (r : ExportResolution)
    (validScenes : list Scene) (remaining : nat) :
  forall i, keepsBgLevels (forLoop host w h r validScenes remaining i).
Proof.
  induction remaining as [|k IH]; intros i; simpl; [intros s; reflexivity|].
  apply keeps_bind; [auto with keeps | intros _; apply IH].
Qed.
#[export] Hint Resolve keeps_forLoop : keeps.

Lemma keeps_playback (host : Host) (w h : Q) (r : ExportResolution)
    (validScenes : list Scene) (mimeType : string) :
  keepsBgLevels (playback host w h r validScenes mimeType).
Proof. unfold playback. keeps_tac. Qed.

(** From the start of the recording to the end of the stitch, whatever
    its outcome, nothing writes the background element's volume or the
    gain of its gain node: both keep the configured volume. *)
Lemma background_level_fixed (host : Host) (scenes : list Scene)
    (b : BackgroundMusic) (r : ExportResolution) (f : ExportFormat) (a : AspectRatio) :
  validScenesOf scenes <> [] ->
  getContext2d host = true ->
  recorderAccepts host (selectMimeType host f) = true ->
  truthyStr (Some (url b)) = true ->
  volumeAccepted (volume b) = true ->
  let o := stitchVideos host scenes (Some b) r f a idle in
  bgLevels (final o) = Some (volume b, volume b) /\
  bgMixLevel (final o) = Some (volume b * volume b).
Proof.
  intros Hne Hctx Hacc Hurl Hv o.
  assert (Hvol : volumeOk (Some b) = true)
    by (unfold volumeOk; rewrite Hv; apply orb_true_r).
  assert (H : bgLevels (final o) = Some (volume b, volume b)).
  { subst o. rewrite stitchVideos_unfold.
    destruct (validScenesOf scenes) as [|c rest] eqn:E; [congruence|].
    change (List.length (c :: rest) =? 0)%nat with false. cbv iota.
    rewrite (startRecording_run _ _ _ _ _ _ _ Hctx Hvol Hacc). cbn [final].
    rewrite keeps_tryCatchFinally;
      [| apply keeps_playback | intros e s; reflexivity | apply keeps_cleanup].
    unfold bgLevels, recordingState, bgElementOf; cbn [bgMusicEl].
    rewrite Hurl. reflexivity. }
  split; [exact H|].
  unfold bgLevels in H. unfold bgMixLevel.
  destruct (bgMusicEl (final o)) as [e|]; [|discriminate].
  injection H as H1 H2. rewrite H1, H2. reflexivity.
Qed.

(** C10 at volume 1/2: the element's volume and the gain of its gain
    node are both set to 1/2, so the track reaches the mix at 1/4, not at
    the configured 1/2; it is created, started, paused and removed once
    each, in that order. *)
Theorem C10_background_level_applied_twice :
  let music := {| url := "music.mp3"; volume := 1 # 2 |} in
  let o := stitchVideos webmHost fadeFirst (Some music) r720p mp4 ar16_9 idle in
  res o = Ret "video/webm"%string /\
  filter isBgCall (evs o) =
    [CreateBgMusic "music.mp3" (1 # 2) (1 # 2); BgPlay; BgPause; RemoveBgMusic] /\
  exists level,
    bgMixLevel (final o) = Some level /\ level == 1 # 4 /\ ~ level == volume music.
Proof.
  vm_compute. repeat split.
  eexists. repeat split. intro H; discriminate H.
Qed.

(** ** Gains over a whole stitch *)

Lemma gains_bind {A B} (m : M A) (k : A -> M B) :
  gainsInRange m -> (forall a, gainsInRange (k a)) -> gainsInRange (bind m k).
Proof.
  intros Hm Hk s. rewrite evs_bind. apply Forall_app. split; [apply Hm|].
  destruct (res (m s)); [apply Hk | constructor | constructor].
Qed.

Lemma gains_tryCatchFinally {A} (body : M A) (handler : Err -> M A) (fin : M unit) :
  gainsInRange body -> (forall e, gainsInRange (handler e)) -> gainsInRange fin ->
  gainsInRange (tryCatchFinally body handler fin).
Proof.
  intros Hb Hh Hf s. unfold tryCatchFinally.
  destruct (res (body s)) as [a|e|]; cbn [evs].
  - apply Forall_app. split; [apply Hb | apply Hf].
  - destruct (res (handler e (final (body s)))); cbn [evs];
      repeat (apply Forall_app; split); try apply Hb; try apply Hh; apply Hf.
  - apply Hb.
Qed.

Lemma gains_setGain (k : nat) (v : Q) : 0 <= v <= 1 -> gainsInRange (setGain k v).
Proof. intros Hv s. unfold setGain, bind; simpl. repeat constructor; apply Hv. Qed.

Create HintDb gains.

Ltac gains_prim := intros ?; unfold bind; simpl; repeat constructor.

Ltac gains_step :=
  match goal with
  | |- gainsInRange (bind _ _) => apply gains_bind; [|intros]
  | |- gainsInRange (setGain _ _) => apply gains_setGain; lra
  | |- gainsInRange (if ?c then _ else _) => destruct c
  | |- gainsInRange (match ?x with _ => _ end) => destruct x
  | |- gainsInRange _ => solve [auto with gains]
  | |- gainsInRange _ => solve [gains_prim]
  end.

Ltac gains_tac := repeat gains_step.

Lemma gains_bgPlay : gainsInRange bgPlay.
Proof. intros s. unfold bgPlay, bind; simpl. destruct (bgMusicEl s); simpl; repeat constructor. Qed.
Lemma gains_bgPause : gainsInRange bgPause.
Proof. intros s. unfold bgPause, bind; simpl. destruct (bgMusicEl s); simpl; repeat constructor. Qed.
Lemma gains_awaitLoadedMetadata (host : Host) (k : nat) :
  gainsInRange (awaitLoadedMetadata host k).
Proof.
  intros s. unfold awaitLoadedMetadata, bind; simpl.
  destruct (src (slotAt s k)) as [u|]; [destruct (metadata host u)|];
    simpl; repeat constructor.
Qed.
Lemma gains_play (host : Host) (k : nat) : gainsInRange (play host k).
Proof.
  intros s. unfold play, bind; simpl.
  destruct (src (slotAt s k)) as [u|]; [destruct (playResolves host u)|];
    simpl; repeat constructor.
Qed.
Lemma gains_cleanup : gainsInRange cleanup.
Proof. intros s. unfold cleanup, bind; simpl. destruct (bgMusicEl s); simpl; repeat constructor. Qed.
Lemma gains_drawEffect (w h : Q) (ty : TransitionType) (cur next : nat) (t : Q) :
  gainsInRange (drawEffect w h ty cur next t).
Proof. destruct ty; gains_prim. Qed.
#[export] Hint Resolve gains_bgPlay gains_bgPause gains_awaitLoadedMetadata gains_play
  gains_cleanup gains_drawEffect : gains.

Lemma gains_drawTransFrame (w h : Q) (ty : TransitionType) (td ns : Q)
    (cur next : nat) (ct : Q) :
  gainsInRange (drawTransFrame w h ty td ns cur next ct).
Proof.
  unfold drawTransFrame.
  pose proof (transitionProgress_range td ns ct) as Hr.
  destruct (Qle_bool 1 (transitionProgress td ns ct)) eqn:E; [gains_prim|].
  assert (Hlt : transitionProgress td ns ct < 1).
  { apply Qnot_le_lt. intros Hle. apply Qle_bool_iff in Hle. congruence. }
  gains_tac.
Qed.
#[export] Hint Resolve gains_drawTransFrame : gains.

Lemma gains_drawTrans (w h : Q) (ty : TransitionType) (td ns : Q) (cur next : nat)
    (frames : list Q) :
  gainsInRange (drawTrans w h ty td ns cur next frames).
Proof.
  induction frames as [|ct rest IH]; simpl; [gains_prim|].
  apply gains_bind; [auto with gains|].
  intros [|]; [gains_prim | exact IH].
Qed.

Lemma gains_drawSolo (w h : Q) (r : ExportResolution) (n i : nat)
    (overlay : option string) (num : Z) (cur : nat) (soloEndTime : Q) (frames : list Frame) :
  gainsInRange (drawSolo w h r n i overlay num cur soloEndTime frames).
Proof.
  induction frames as [|f rest IH]; simpl; [gains_prim|].
  destruct (paused f || ended f || Qle_bool soloEndTime (currentTime f)); [gains_prim|].
  apply gains_bind; [gains_prim|]. intros s.
  do 3 (apply gains_bind; [gains_tac|]; intros ?).
  exact IH.
Qed.
#[export] Hint Resolve gains_drawTrans gains_drawSolo : gains.

Lemma gains_iteration (host : Host) (w h : Q) (r : ExportResolution)
    (validScenes : list Scene) (i : nat) :
  gainsInRange (iteration host w h r validScenes i).
Proof. unfold iteration, swapSlots. gains_tac. Qed.
#[export] Hint Resolve gains_iteration : gains.

Lemma gains_forLoop (host : Host) (w h : Q) (r : ExportResolution)
    (validScenes : list Scene) (remaining : nat) :
  forall i, gainsInRange (forLoop host w h r validScenes remaining i).
Proof.
  induction remaining as [|k IH]; intros i; simpl; [gains_prim|].
  apply gains_bind; [auto with gains | intros _; apply IH].
Qed.
#[export] Hint Resolve gains_forLoop : gains.

Lemma gains_stitchVideos (host : Host) (scenes : list Scene)
    (bg : option BackgroundMusic) (r : ExportResolution) (f : ExportFormat)
    (a : AspectRatio) :
  gainsInRange (stitchVideos host scenes bg r f a).
Proof.
  unfold stitchVideos.
  destruct (List.length (validScenesOf scenes) =? 0)%nat; [gains_prim|].
  unfold getContext, setupBgMusic, newMediaRecorder.
  do 11 (apply gains_bind; [gains_tac | intros ?]).
  apply gains_tryCatchFinally; [|intros e; gains_prim | auto with gains].
  unfold playback. gains_tac.
Qed.

(** C2 (amended): the progress [t] of a transition frame lies in [[0,1]];
    a frame with [t < 1] leaves the outgoing gain at [1 - t] and the
    incoming gain at [t], both in [[0,1]], hence [(1,0)] at [t = 0]; the
    frame on which [t] reaches 1 writes no gain and resolves the loop;
    the swap then sets both gains to 1 and exchanges the roles.  Every
    gain written during a stitch lies in [[0,1]]. *)
Theorem C2_crossfade_gains :
  (forall (width height : Q) (ty : TransitionType)
          (transitionDuration nextStart currentTime : Q) (cur : nat) (s : St),
      (cur < 2)%nat -> List.length (slots s) = 2%nat ->
      let next := (1 - cur)%nat in
      let t := transitionProgress transitionDuration nextStart currentTime in
      let o := drawTransFrame width height ty transitionDuration nextStart
                 cur next currentTime s in
      let outgoing := gainValue (slotAt (final o) cur) in
      let incoming := gainValue (slotAt (final o) next) in
      let swapped := final (swapSlots cur next s) in
      (0 <= t <= 1) /\
      (t < 1 ->
         res o = Ret false /\ outgoing == 1 - t /\ incoming == t /\
         (0 <= outgoing <= 1) /\ (0 <= incoming <= 1)) /\
      (t == 0 -> outgoing == 1 /\ incoming == 0) /\
      (1 <= t -> res o = Ret true /\ final o = s /\ evs o = []) /\
      gainValue (slotAt swapped cur) = 1 /\ gainValue (slotAt swapped next) = 1 /\
      activeSlotIndex swapped = next) /\
  (forall (host : Host) (scenes : list Scene) (bgMusic : option BackgroundMusic)
          (resolution : ExportResolution) (format : ExportFormat)
          (aspectRatio : AspectRatio) (s : St),
      Forall gainOk
        (evs (stitchVideos host scenes bgMusic resolution format aspectRatio s))).
Proof.
  split.
  - exact crossfade_frame.
  - intros host scenes bg r f a s. apply gains_stitchVideos.
Qed.

Lemma C2_crossfade_gains_witness :
  let t := transitionProgress 2 0 (1 # 2) in
  let o := drawTransFrame 1280 720 fade 2 0 0 (1 - 0) (1 # 2) twoFreshSlots in
  let outgoing := gainValue (slotAt (final o) 0) in
  let incoming := gainValue (slotAt (final o) (1 - 0)) in
  let swapped := final (swapSlots 0 (1 - 0) twoFreshSlots) in
  (0 <= t <= 1) /\
  (t < 1 ->
     res o = Ret false /\ outgoing == 1 - t /\ incoming == t /\
     (0 <= outgoing <= 1) /\ (0 <= incoming <= 1)) /\
  (t == 0 -> outgoing == 1 /\ incoming == 0) /\
  (1 <= t -> res o = Ret true /\ final o = twoFreshSlots /\ evs o = []) /\
  gainValue (slotAt swapped 0) = 1 /\ gainValue (slotAt swapped (1 - 0)) = 1 /\
  activeSlotIndex swapped = (1 - 0)%nat.
Proof.
  destruct C2_crossfade_gains as [Hframe _].
  apply (Hframe 1280 720 fade 2 0 (1 # 2) 0%nat twoFreshSlots).
  - lia.
  - reflexivity.
Defined.

(** C2 as stated fails on the frame where [t] reaches 1: a 1 s fade
    sampled at 0.5 s and at 1 s leaves the gains at [(1/2, 1/2)] when the
    loop resolves, not at [(0, 1)]. *)
Lemma C2_counterexample :
  let o := drawTrans 1280 720 fade 1 0 0 1 [1 # 2; 1] twoFreshSlots in
  transitionProgress 1 0 1 == 1 /\
  res o = Ret tt /\
  gainValue (slotAt (final o) 0) == 1 # 2 /\
  gainValue (slotAt (final o) 1) == 1 # 2 /\
  ~ gainValue (slotAt (final o) 0) == 1 - transitionProgress 1 0 1 /\
  ~ gainValue (slotAt (final o) 1) == transitionProgress 1 0 1.
Proof. vm_compute. repeat split; intro H; discriminate H. Qed.

(** ** Completion on a cooperative host *)

Lemma hoare_bind {A B} (P : St -> Prop) (Q : A -> St -> Prop) (R : B -> St -> Prop)
    (m : M A) (k : A -> M B) :
  hoare P m Q -> (forall a, hoare (Q a) (k a) R) -> hoare P (bind m k) R.
Proof.
  intros Hm Hk s HP.
  destruct (Hm s HP) as (a & Ha & HQ).
  destruct (Hk a (final (m s)) HQ) as (b & Hb & HR).
  exists b. unfold bind. rewrite Ha. cbn [res final]. split; assumption.
Qed.

Lemma hoare_get (P : St -> Prop) : hoare P get (fun a s => a = s /\ P s).
Proof. intros s HP. exists s. repeat split; assumption. Qed.

Lemma keeping_hoare {A} (P : list (option string) -> nat -> Prop) (m : M A) :
  keeping P m ->
  hoare (fun s => P (srcs s) (activeSlotIndex s)) m
        (fun _ s => P (srcs s) (activeSlotIndex s)).
Proof.
  intros Hm s HP. destruct (Hm s HP) as ((a & Ha) & Hs & Hi).
  exists a. split; [exact Ha|]. rewrite Hs, Hi. exact HP.
Qed.

Lemma keeping_bind {A B} (P : list (option string) -> nat -> Prop)
    (m : M A) (k : A -> M B) :
  keeping P m -> (forall a, keeping P (k a)) -> keeping P (bind m k).
Proof.
  intros Hm Hk s HP. destruct (Hm s HP) as ((a & Ha) & Hs & Hi).
  assert (HP' : P (srcs (final (m s))) (activeSlotIndex (final (m s))))
    by (rewrite Hs, Hi; exact HP).
  destruct (Hk a (final (m s)) HP') as ((b & Hb) & Hs' & Hi').
  unfold bind. rewrite Ha. cbn [res final]. repeat split.
  - exists b. exact Hb.
  - rewrite Hs'. exact Hs.
  - rewrite Hi'. exact Hi.
Qed.

Lemma keeping_weaken {A} (P P' : list (option string) -> nat -> Prop) (m : M A) :
  (forall l a, P' l a -> P l a) -> keeping P m -> keeping P' m.
Proof. intros HP Hm s Hs. apply Hm, HP, Hs. Qed.

Lemma map_src_updNth (k : nat) (f : VideoSlot -> VideoSlot) (l : list VideoSlot) :
  (forall v, src (f v) = src v) -> map src (updNth k f l) = map src l.
Proof.
  intros Hf. revert k. induction l as [|x l IH]; intros [|k]; simpl;
    rewrite ?Hf, ?IH; reflexivity.
Qed.

Lemma src_slotAt (s : St) (k : nat) : src (slotAt s k) = nth k (srcs s) None.
Proof.
  unfold slotAt, srcs. symmetry.
  exact (map_nth src (slots s) freshSlot k).
Qed.

(** Steps that return and touch neither the sources nor the index. *)
Ltac still := intros ? _; repeat split; eexists; reflexivity.

Lemma keeping_emit P (e : Event) : keeping P (emit e).
Proof. still. Qed.
Lemma keeping_ret {A} P (a : A) : keeping P (ret a).
Proof. still. Qed.
Lemma keeping_get P : keeping P get.
Proof. still. Qed.
Lemma keeping_onProgress P (p : Q) (m : Msg) : keeping P (onProgress p m).
Proof. still. Qed.
Lemma keeping_seek P (k : nat) (t : Q) : keeping P (seek k t).
Proof. still. Qed.
Lemma keeping_pauseVideo P (k : nat) : keeping P (pauseVideo k).
Proof. still. Qed.
Lemma keeping_recorderPause P : keeping P recorderPause.
Proof. still. Qed.
Lemma keeping_recorderResume P : keeping P recorderResume.
Proof. still. Qed.
Lemma keeping_recorderStop P : keeping P recorderStop.
Proof. still. Qed.
Lemma keeping_setLastProgressUpdate P (t : Z) : keeping P (setLastProgressUpdate t).
Proof. still. Qed.
Lemma keeping_drawScaled P (w h : Q) (k : nat) (alpha x : Q) :
  keeping P (drawScaled w h k alpha x).
Proof. still. Qed.
Lemma keeping_bgPause P : keeping P bgPause.
Proof.
  intros s _. unfold bgPause, bind; simpl.
  destruct (bgMusicEl s) eqn:E; simpl; unfold srcs, setBgPlaying; rewrite ?E;
    repeat split; eexists; reflexivity.
Qed.
Lemma keeping_setGain P (k : nat) (v : Q) : keeping P (setGain k v).
Proof.
  intros s _. repeat split; [eexists; reflexivity|].
  unfold srcs, setGain, bind; simpl. apply map_src_updNth. reflexivity.
Qed.
Lemma keeping_drawEffect P (w h : Q) (ty : TransitionType) (cur next : nat) (t : Q) :
  keeping P (drawEffect w h ty cur next t).
Proof. destruct ty; still. Qed.

Create HintDb keeping.
#[export] Hint Resolve keeping_emit keeping_ret keeping_get keeping_onProgress
  keeping_seek keeping_pauseVideo keeping_recorderPause keeping_recorderResume
  keeping_recorderStop keeping_setLastProgressUpdate keeping_drawScaled
  keeping_bgPause keeping_setGain keeping_drawEffect : keeping.

Ltac keeping_step :=
  match goal with
  | |- keeping _ (bind _ _) => apply keeping_bind; [|intros]
  | |- keeping _ (if ?c then _ else _) => destruct c
  | |- keeping _ _ => solve [auto with keeping]
  end.

Ltac keeping_tac := repeat keeping_step.

Lemma keeping_play (host : Host) (k : nat) (P : list (option string) -> nat -> Prop) :
  (forall u, playResolves host u = true) ->
  (forall l a, P l a -> nth k l None <> None) ->
  keeping P (play host k).
Proof.
  intros Hplay Hsrc s HP. specialize (Hsrc _ _ HP).
  rewrite <- src_slotAt in Hsrc.
  unfold play, bind; simpl.
  destruct (src (slotAt s k)) as [u|]; [|congruence].
  rewrite Hplay. simpl. repeat split. eexists; reflexivity.
Qed.

Lemma keeping_awaitLoadedMetadata (host : Host) (k : nat)
    (P : list (option string) -> nat -> Prop) :
  (forall u, metadata host u <> None) ->
  (forall l a, P l a -> nth k l None <> None) ->
  keeping P (awaitLoadedMetadata host k).
Proof.
  intros Hmeta Hsrc s HP. specialize (Hsrc _ _ HP).
  rewrite <- src_slotAt in Hsrc.
  unfold awaitLoadedMetadata, bind; simpl.
  destruct (src (slotAt s k)) as [u|]; [|congruence].
  specialize (Hmeta u). destruct (metadata host u) as [m|]; [|congruence].
  simpl. repeat split; [eexists; reflexivity|].
  unfold srcs; simpl. apply map_src_updNth. reflexivity.
Qed.

Lemma keeping_drawTransFrame P (w h : Q) (ty : TransitionType) (td ns : Q)
    (cur next : nat) (ct : Q) :
  keeping P (drawTransFrame w h ty td ns cur next ct).
Proof. unfold drawTransFrame. keeping_tac. Qed.
#[export] Hint Resolve keeping_drawTransFrame : keeping.

Lemma keeping_drawTrans P (w h : Q) (ty : TransitionType) (td ns : Q) (cur next : nat)
    (frames : list Q) :
  Exists (fun ct => 1 <= transitionProgress td ns ct) frames ->
  keeping P (drawTrans w h ty td ns cur next frames).
Proof.
  induction 1 as [ct rest Hct | ct rest _ IH]; simpl.
  - intros s HP.
    unfold bind. rewrite (drawTransFrame_resolved w h ty td ns cur next ct s Hct).
    simpl. repeat split. eexists; reflexivity.
  - apply keeping_bind; [auto with keeping|].
    intros [|]; [auto with keeping | exact IH].
Qed.

Lemma keeping_drawSolo P (w h : Q) (r : ExportResolution) (n i : nat)
    (overlay : option string) (num : Z) (cur : nat) (soloEndTime : Q) (frames : list Frame) :
  Exists (fun f => ended f = true) frames ->
  keeping P (drawSolo w h r n i overlay num cur soloEndTime frames).
Proof.
  induction 1 as [f rest Hf | f rest _ IH]; simpl.
  - rewrite Hf, orb_true_r. simpl. auto with keeping.
  - destruct (paused f || ended f || Qle_bool soloEndTime (currentTime f));
      [auto with keeping|].
    apply keeping_bind; [auto with keeping|]. intros s.
    do 3 (apply keeping_bind; [keeping_tac|]; intros ?).
    exact IH.
Qed.

Lemma hoare_setSrc (cur next : nat) (u : string) :
  next = (1 - cur)%nat ->
  hoare (fun s => readyAt cur (srcs s) (activeSlotIndex s))
        (setSrc next u)
        (fun _ s => bothAt cur (srcs s) (activeSlotIndex s)).
Proof.
  intros -> s (Hlen & Hact & Hcur & Hsrc).
  exists tt. split; [reflexivity|].
  unfold bothAt, srcs in *. unfold setSrc, bind; simpl.
  destruct (slots s) as [|x [|y [|z l]]]; simpl in Hlen; try discriminate.
  destruct cur as [|[|k]]; [| |lia]; simpl in *;
    repeat split; try assumption; try lia; discriminate.
Qed.

Lemma hoare_setActiveSlotIndex (cur next : nat) :
  next = (1 - cur)%nat ->
  hoare (fun s => bothAt cur (srcs s) (activeSlotIndex s))
        (setActiveSlotIndex next)
        (fun _ s => ready s).
Proof.
  intros -> s (Hlen & Hact & Hcur & H0 & H1).
  exists tt. split; [reflexivity|].
  unfold ready, readyAt, srcs in *. unfold setActiveSlotIndex, modify; simpl.
  destruct cur as [|[|k]]; [| |lia]; simpl; repeat split; try assumption; lia.
Qed.

Lemma hoare_pre {A} (P P' : St -> Prop) (Q : A -> St -> Prop) (m : M A) :
  (forall s, P' s -> P s) -> hoare P m Q -> hoare P' m Q.
Proof. intros HP H s Hs. apply H, HP, Hs. Qed.

Lemma hoare_post {A} (P : St -> Prop) (Q Q' : A -> St -> Prop) (m : M A) :
  (forall a s, Q a s -> Q' a s) -> hoare P m Q -> hoare P m Q'.
Proof.
  intros HQ H s Hs. destruct (H s Hs) as (a & Ha & Hq).
  exists a. split; [exact Ha | apply HQ, Hq].
Qed.

Lemma bothAt_src (cur k : nat) (l : list (option string)) (a : nat) :
  (k < 2)%nat -> bothAt cur l a -> nth k l None <> None.
Proof.
  intros Hk (_ & _ & _ & H0 & H1).
  destruct k as [|[|k]]; [exact H0 | exact H1 | lia].
Qed.

Ltac keep_then tac :=
  eapply hoare_bind; [apply keeping_hoare; tac | intros ?].

Lemma iteration_completes (host : Host) (w h : Q) (r : ExportResolution)
    (validScenes : list Scene) (i : nat) :
  cooperative host validScenes ->
  (i < List.length validScenes)%nat ->
  hoare ready (iteration host w h r validScenes i) (fun _ => ready).
Proof.
  intros (_ & Hmeta & Hplay & Hsolo & Htrans) Hi.
  unfold iteration.
  destruct (nth_error validScenes i) as [c|] eqn:Ec;
    [|apply nth_error_None in Ec; lia].
  eapply hoare_bind; [apply hoare_get|]. intros s0.
  apply (hoare_pre (fun s => readyAt (activeSlotIndex s0) (srcs s) (activeSlotIndex s)));
    [intros s [<- H]; exact H|].
  cbv zeta. set (cur := activeSlotIndex s0).
  assert (Hcur : forall l a, readyAt cur l a -> nth cur l None <> None)
    by (intros l k H; apply H).
  keep_then ltac:(destruct (i =? 0)%nat; keeping_tac; apply keeping_play; assumption).
  keep_then ltac:(apply keeping_drawSolo, Hsolo).
  destruct (hasNextAt validScenes i) eqn:Hn;
    [destruct (nextSceneAt validScenes i) as [ns|] eqn:Ens|].
  - assert (Hnext : nth_error validScenes (S i) = Some ns).
    { unfold nextSceneAt in Ens. rewrite Hn in Ens. exact Ens. }
    assert (Hb : forall l a, bothAt cur l a -> nth (1 - cur) l None <> None).
    { intros l k H. apply (bothAt_src cur (1 - cur) l k); [|exact H].
      destruct H as (_ & _ & Hlt & _). lia. }
    assert (Hb' : forall l a, bothAt cur l a -> nth cur l None <> None).
    { intros l k H. apply (bothAt_src cur cur l k); [|exact H].
      destruct H as (_ & _ & Hlt & _). exact Hlt. }
    keep_then ltac:(auto with keeping).
    keep_then ltac:(auto with keeping).
    eapply hoare_bind; [apply hoare_setSrc; reflexivity | intros ?].
    keep_then ltac:(apply keeping_awaitLoadedMetadata; assumption).
    keep_then ltac:(auto with keeping).
    keep_then ltac:(apply keeping_play; assumption).
    keep_then ltac:(destruct (pausedAtResume host i);
                    [apply keeping_play; assumption | auto with keeping]).
    keep_then ltac:(auto with keeping).
    keep_then ltac:(apply keeping_drawTrans; simpl; rewrite Ens; simpl;
                    apply (Htrans i ns Hnext)).
    unfold swapSlots.
    keep_then ltac:(auto with keeping).
    keep_then ltac:(auto with keeping).
    keep_then ltac:(auto with keeping).
    apply hoare_setActiveSlotIndex. reflexivity.
  - apply (hoare_post _ (fun _ s => readyAt cur (srcs s) (activeSlotIndex s))).
    + intros _ s H. unfold ready. destruct H as (H1 & H2 & H3 & H4).
      rewrite H2. repeat split; assumption.
    + apply keeping_hoare. auto with keeping.
  - apply (hoare_post _ (fun _ s => readyAt cur (srcs s) (activeSlotIndex s))).
    + intros _ s H. unfold ready. destruct H as (H1 & H2 & H3 & H4).
      rewrite H2. repeat split; assumption.
    + apply keeping_hoare. auto with keeping.
Qed.

Lemma forLoop_completes (host : Host) (w h : Q) (r : ExportResolution)
    (validScenes : list Scene) (remaining : nat) :
  cooperative host validScenes ->
  forall i, (i + remaining = List.length validScenes)%nat ->
    hoare ready (forLoop host w h r validScenes remaining i) (fun _ => ready).
Proof.
  intros Hcoop. induction remaining as [|k IH]; intros i Hsum; simpl.
  - intros s Hs. exists tt. split; [reflexivity | exact Hs].
  - eapply hoare_bind; [apply iteration_completes; [exact Hcoop | lia]|].
    intros ?. apply IH. lia.
Qed.

Lemma hoare_still {A} (P : St -> Prop) (m : M A) :
  keeping (fun _ _ => True) m -> hoare P m (fun _ _ => True).
Proof.
  intros Hm s _. destruct (Hm s I) as ((a & Ha) & _).
  exists a. split; [exact Ha | exact I].
Qed.

Lemma firstLoad_completes (host : Host) (w h : Q) (r : ExportResolution)
    (validScenes : list Scene) (u mimeType : string) :
  cooperative host validScenes ->
  hoare (fun s => List.length (slots s) = 2%nat /\ activeSlotIndex s = 0%nat)
    (setSrc 0 u ;;
     awaitLoadedMetadata host 0 ;;
     forLoop host w h r validScenes (List.length validScenes) 0 ;;
     onProgress 100 Finalizing ;;
     recorderStop ;;
     bgPause ;;
     ret mimeType)
    (fun a _ => a = mimeType).
Proof.
  intros Hcoop. pose proof Hcoop as (_ & Hmeta & _).
  eapply hoare_bind.
  { intros s (Hlen & Ha). exists tt. split; [reflexivity|].
    instantiate (1 := fun _ s => readyAt 0 (srcs s) (activeSlotIndex s)).
    unfold readyAt, srcs, setSrc, bind; simpl.
    destruct (slots s) as [|x [|y [|z l]]]; simpl in Hlen; try discriminate.
    simpl. repeat split; try assumption; try lia. discriminate. }
  intros ?.
  keep_then ltac:(apply keeping_awaitLoadedMetadata;
                  [exact Hmeta | intros l k H; apply H]).
  eapply hoare_bind.
  { apply (hoare_pre ready); [|apply (forLoop_completes _ _ _ _ _ _ Hcoop); reflexivity].
    intros s H. unfold ready. destruct H as (H1 & H2 & H3 & H4).
    rewrite H2. repeat split; assumption. }
  intros ?.
  do 3 (eapply hoare_bind; [apply hoare_still; auto with keeping | intros ?]).
  intros s _. exists mimeType. split; reflexivity.
Qed.

Lemma playback_completes (host : Host) (w h : Q) (r : ExportResolution)
    (validScenes : list Scene) (mimeType : string) :
  cooperative host validScenes ->
  validScenes <> [] ->
  hoare (fun s => List.length (slots s) = 2%nat /\ activeSlotIndex s = 0%nat)
    (playback host w h r validScenes mimeType)
    (fun a _ => a = mimeType).
Proof.
  intros Hcoop Hne s Hs.
  destruct validScenes as [|c rest]; [congruence|].
  unfold playback.
  unfold bind at 1. cbn [onProgress emit res final].
  unfold bind at 1. cbn [get res final].
  pose proof Hs as [_ Ha]. rewrite Ha.
  exact (firstLoad_completes host w h r (c :: rest) (urlOf c) mimeType Hcoop s Hs).
Qed.

Lemma res_tryCatchFinally_returns {A} (body : M A) (handler : Err -> M A) (s : St) (a : A) :
  res (body s) = Ret a -> res (tryCatchFinally body handler cleanup s) = Ret a.
Proof.
  intros H. unfold tryCatchFinally. rewrite H. cbn [res]. rewrite res_cleanup. reflexivity.
Qed.

(** On a cooperative host whose recorder accepts the selected type, every
    stitch of a non-empty timeline whose background volume is accepted returns (the blob has the selected
    type) and has reported 100 last. *)
Lemma stitch_completes (host : Host) (scenes : list Scene)
    (bg : option BackgroundMusic) (r : ExportResolution) (f : ExportFormat)
    (a : AspectRatio) :
  cooperative host (validScenesOf scenes) ->
  validScenesOf scenes <> [] ->
  volumeOk bg = true ->
  recorderAccepts host (selectMimeType host f) = true ->
  let o := stitchVideos host scenes bg r f a idle in
  res o = Ret (selectMimeType host f) /\
  exists before, progressValues (evs o) = before ++ [100].
Proof.
  intros Hcoop Hne Hvol Hacc o.
  assert (Hres : res o = Ret (selectMimeType host f)).
  { subst o. rewrite stitchVideos_unfold.
    destruct (validScenesOf scenes) as [|c rest] eqn:E; [congruence|].
    change (List.length (c :: rest) =? 0)%nat with false. cbv iota.
    destruct Hcoop as (Hctx & Hrest).
    rewrite (startRecording_run _ _ _ _ _ _ _ Hctx Hvol Hacc). cbn [res].
    apply res_tryCatchFinally_returns.
    destruct (playback_completes host (outWidth a r) (outHeight a r) r (c :: rest)
                (selectMimeType host f) (conj Hctx Hrest) ltac:(discriminate)
                (recordingState (outWidth a r) (outHeight a r) bg)
                (conj eq_refl eq_refl)) as (x & Hx & ->).
    exact Hx. }
  split; [exact Hres|].
  exact (stitchVideos_endsAt100 host scenes bg r f a idle _ Hres).
Qed.

Example webmHost_cooperative : cooperative webmHost fadeFirst.
Proof.
  repeat split; try discriminate.
  - intros i. simpl. do 3 apply Exists_cons_tl. apply Exists_cons_hd. reflexivity.
  - intros [|i] ns H; [|destruct i; discriminate H].
    injection H as <-. simpl.
    do 2 apply Exists_cons_tl. apply Exists_cons_hd.
    vm_compute. discriminate.
Qed.

(** ** What one iteration plays and renders *)

Lemma bind_inv {A B : Type} (m : M A) (k : A -> M B) (s : St) (b : B) :
  res (bind m k s) = Ret b ->
  exists a, res (m s) = Ret a /\ res (k a (final (m s))) = Ret b /\
            evs (bind m k s) = evs (m s) ++ evs (k a (final (m s))).
Proof.
  unfold bind. destruct (res (m s)) as [a| |]; cbn [res evs]; intros H; try discriminate.
  exists a. repeat split; assumption.
Qed.

Lemma bind_ext {A B : Type} (m : M A) (k1 k2 : A -> M B) (s : St) :
  (forall a s', k1 a s' = k2 a s') -> bind m k1 s = bind m k2 s.
Proof. intros H. unfold bind. destruct (res (m s)); rewrite ?H; reflexivity. Qed.





Lemma transitionProgress_configured (tr : option Transition) (nextStart ct : Q) :
  transitionProgress (transitionDurationOf tr) nextStart ct =
  transitionProgress
    (match tr with
     | Some t => match type t with none => 0 | _ => duration t end
     | None => 0
     end) nextStart ct.
Proof.
  destruct tr as [t|]; [|reflexivity].
  unfold transitionDurationOf, transitionProgress.
  destruct (type t); cbn [isNone]; try reflexivity;
    destruct (Qeq_bool (duration t) 0) eqn:E; cbv zeta; rewrite ?E; reflexivity.
Qed.

Lemma drawTrans_compat (w h : Q) (ty : TransitionType) (d1 d2 nextStart : Q)
    (cur next : nat) (frames : list Q) :
  (forall ct, transitionProgress d1 nextStart ct = transitionProgress d2 nextStart ct) ->
  forall s, drawTrans w h ty d1 nextStart cur next frames s =
            drawTrans w h ty d2 nextStart cur next frames s.
Proof.
  intros E. induction frames as [|ct rest IH]; intros s; [reflexivity|].
  cbn [drawTrans]. unfold drawTransFrame. rewrite (E ct).
  apply bind_ext. intros resolved s'. destruct resolved; [reflexivity | apply IH].
Qed.

Lemma evs_play (host : Host) (k : nat) (s : St) : evs (play host k s) = [Play k].
Proof.
  unfold play, bind, get, emit; cbn [res evs final app].
  destruct (src (slotAt s k)) as [u|]; [destruct (playResolves host u)|]; reflexivity.
Qed.

Lemma final_play (host : Host) (k : nat) (s : St) : final (play host k s) = s.
Proof.
  unfold play, bind, get, emit; cbn [res evs final app].
  destruct (src (slotAt s k)) as [u|]; [destruct (playResolves host u)|]; reflexivity.
Qed.

Lemma evs_awaitLoadedMetadata (host : Host) (k : nat) (s : St) :
  res (awaitLoadedMetadata host k s) = Ret tt ->
  evs (awaitLoadedMetadata host k s) = [LoadedMetadata k].
Proof.
  unfold awaitLoadedMetadata, bind, get; cbn [res evs final app].
  destruct (src (slotAt s k)) as [u|]; [destruct (metadata host u)|];
    cbn; intros H; try discriminate; reflexivity.
Qed.

Lemma evs_recorderPause (s : St) : evs (recorderPause s) = [RecorderPause].
Proof. reflexivity. Qed.

Lemma evs_recorderResume (s : St) : evs (recorderResume s) = [RecorderResume].
Proof. reflexivity. Qed.

Lemma evs_onProgress (p : Q) (m : Msg) (s : St) : evs (onProgress p m s) = [Progress p m].
Proof. reflexivity. Qed.

Lemma evs_setSrc (k : nat) (u : string) (s : St) : evs (setSrc k u s) = [SetSrc k u].
Proof. reflexivity. Qed.

Lemma evs_seek (k : nat) (t : Q) (s : St) : evs (seek k t s) = [SeekTo k t; Seeked k].
Proof. reflexivity. Qed.

Lemma evs_swapSlots (cur next : nat) (s : St) :
  evs (swapSlots cur next s) = [PauseVideo cur; SetGain cur 1; SetGain next 1].
Proof. reflexivity. Qed.

Lemma evs_playIf (host : Host) (c : bool) (k : nat) (s : St) :
  evs ((if c then play host k else ret tt) s) = if c then [Play k] else [].
Proof. destruct c; [apply evs_play | reflexivity]. Qed.

Lemma nextSceneAt_none (validScenes : list Scene) (i : nat) :
  nth_error validScenes (S i) = None -> nextSceneAt validScenes i = None.
Proof. intros H. unfold nextSceneAt. rewrite H. destruct (hasNextAt validScenes i); reflexivity. Qed.

Lemma hasNextAt_some (validScenes : list Scene) (i : nat) (nextScene : Scene) :
  nth_error validScenes (S i) = Some nextScene -> hasNextAt validScenes i = true.
Proof.
  intros H. unfold hasNextAt. apply Nat.ltb_lt. apply nth_error_Some. rewrite H. discriminate.
Qed.

(** The call log of an iteration that completes: the start of the
    first clip, the solo loop, and then either the pause of the last
    clip or the load of the next one, the transition loop and the swap. *)
Lemma iteration_log (host : Host) (w h : Q) (r : ExportResolution)
    (validScenes : list Scene) (i : nat) (c : Scene) (s : St) :
  nth_error validScenes i = Some c ->
  res (iteration host w h r validScenes i s) = Ret tt ->
  let cur := activeSlotIndex s in
  let tm := timingAt validScenes i c (mediaDuration (info (slotAt s cur))) in
  exists s1,
    evs (iteration host w h r validScenes i s) =
    firstClipCalls i cur (start tm) ++
    evs (drawSolo w h r (List.length validScenes) i (overlayText c) (scene_number c)
           cur (soloEnd tm) (soloFrames host i) s) ++
    match nth_error validScenes (S i) with
    | Some ns =>
        nextClipCalls host validScenes i cur ns ++
        evs (drawTrans w h (transitionType tm) (transitionDuration tm) (startOf ns)
               cur (1 - cur) (transFrames host i) s1) ++
        [PauseVideo cur; SetGain cur 1; SetGain (1 - cur) 1]
    | None => [PauseVideo cur]
    end.
Proof.
  intros Hnth Hret cur tm. unfold iteration in *. rewrite Hnth in *.
  destruct (bind_inv _ _ _ _ Hret) as (s0 & Hget & H1 & ->).
  injection Hget as <-. change (final (get s)) with s in *.
  change (evs (get s)) with (@nil Event). cbn [app].
  cbv zeta in H1 |- *. fold cur in H1 |- *. fold tm in H1 |- *.
  destruct (bind_inv _ _ _ _ H1) as ([] & _ & H2 & ->).
  assert (Hfirst : forall t,
            evs ((if (i =? 0)%nat then seek cur t ;; play host cur else ret tt) s) =
              firstClipCalls i cur t /\
            final ((if (i =? 0)%nat then seek cur t ;; play host cur else ret tt) s) = s).
  { intros t. unfold firstClipCalls. destruct (i =? 0)%nat; [|split; reflexivity].
    rewrite evs_bind, final_bind. change (res (seek cur t s)) with (Ret tt).
    change (final (seek cur t s)) with s. rewrite evs_play, final_play.
    split; reflexivity. }
  destruct (Hfirst (start tm)) as [-> Hs]. rewrite Hs in *.
  destruct (bind_inv _ _ _ _ H2) as ([] & _ & H3 & ->).
  rewrite <- ?app_assoc.
  destruct (nth_error validScenes (S i)) as [ns|] eqn:Hn.
  - rewrite (nextSceneAt_some validScenes i ns Hn), (hasNextAt_some validScenes i ns Hn) in *.
    destruct (bind_inv _ _ _ _ H3) as ([] & _ & H4 & ->).
    destruct (bind_inv _ _ _ _ H4) as ([] & _ & H5 & ->).
    destruct (bind_inv _ _ _ _ H5) as ([] & _ & H6 & ->).
    destruct (bind_inv _ _ _ _ H6) as ([] & Hmeta & H7 & ->).
    destruct (bind_inv _ _ _ _ H7) as ([] & _ & H8 & ->).
    destruct (bind_inv _ _ _ _ H8) as ([] & _ & H9 & ->).
    destruct (bind_inv _ _ _ _ H9) as ([] & _ & H10 & ->).
    destruct (bind_inv _ _ _ _ H10) as ([] & _ & H11 & ->).
    destruct (bind_inv _ _ _ _ H11) as ([] & _ & H12 & ->).
    rewrite (evs_awaitLoadedMetadata _ _ _ Hmeta).
    rewrite evs_recorderPause, evs_onProgress, evs_setSrc, evs_seek, evs_play,
      evs_playIf, evs_recorderResume, evs_swapSlots.
    eexists. unfold nextClipCalls. fold cur.
    rewrite <- ?app_assoc. cbn [app]. reflexivity.
  - rewrite (nextSceneAt_none validScenes i Hn) in *.
    exists s. destruct (hasNextAt validScenes i); reflexivity.
Qed.




(** C6 (amended): in every iteration that completes and has a next
    clip, what is rendered between the resume of the recorder and the
    swap is the transition loop run with the kind and the duration
    configured in the [transition] field of clip [i+1] (kind [none]
    and duration 0 when the field is absent; the duration counts only
    for a kind other than [none]), timed from that clip's [trimStart].
    The field of the first clip is never used: replacing it changes
    nothing in the stitch. *)
Theorem C6_transition_of_next_scene :
  (forall (host : Host) (width height : Q) (resolution : ExportResolution)
          (validScenes : list Scene) (i : nat) (currentScene nextScene : Scene) (s : St),
      nth_error validScenes i = Some currentScene ->
      nth_error validScenes (S i) = Some nextScene ->
      res (iteration host width height resolution validScenes i s) = Ret tt ->
      let cur := activeSlotIndex s in
      let next := (1 - cur)%nat in
      exists before s1,
        evs (iteration host width height resolution validScenes i s) =
          before ++
          nextClipCalls host validScenes i cur nextScene ++
          evs (drawTrans width height (configuredKind nextScene)
                 (configuredDuration nextScene) (startOf nextScene)
                 cur next (transFrames host i) s1) ++
          [PauseVideo cur; SetGain cur 1; SetGain next 1]) /\
  (forall (host : Host) (scenes scenes' : list Scene) (first : Scene) (rest : list Scene)
          (tr : option Transition) (bgMusic : option BackgroundMusic)
          (resolution : ExportResolution) (format : ExportFormat)
          (aspectRatio : AspectRatio) (s : St),
      validScenesOf scenes = first :: rest ->
      validScenesOf scenes' = setTransition tr first :: rest ->
      stitchVideos host scenes' bgMusic resolution format aspectRatio s =
      stitchVideos host scenes bgMusic resolution format aspectRatio s).
Proof.
  split.
  - intros host w h r vs i c ns s Hnth Hn Hret cur next.
    destruct (iteration_log host w h r vs i c s Hnth Hret) as (s1 & Hlog).
    cbv zeta in Hlog. fold cur in Hlog. rewrite Hn in Hlog.
    eexists. exists s1. rewrite Hlog, <- app_assoc. f_equal. f_equal.
    unfold timingAt; cbn [transitionType transitionDuration].
    rewrite (nextSceneAt_some vs i ns Hn). cbn [transitionOf].
    change (transitionTypeOf (transition ns)) with (configuredKind ns).
    rewrite (drawTrans_compat w h (configuredKind ns)
               (transitionDurationOf (transition ns)) (configuredDuration ns)
               (startOf ns) cur (1 - cur) (transFrames host i)
               (transitionProgress_configured (transition ns) (startOf ns))).
    reflexivity.
  - intros host scenes scenes' c rest tr bg r f a s H H'.
    unfold stitchVideos. rewrite H, H'.
    rewrite playback_ignores_first_transition. reflexivity.
Qed.

Lemma C6_transition_of_next_scene_witness :
  (exists before s1,
     evs (iteration webmHost 1280 720 r720p fadeFirst 0 firstLoaded) =
       before ++
       nextClipCalls webmHost fadeFirst 0 0
         (clip 2 "b.mp4" (Some {| type := wipe_left; duration := 2 |})) ++
       evs (drawTrans 1280 720 wipe_left 2 0 0 1 (transFrames webmHost 0) s1) ++
       [PauseVideo 0; SetGain 0 1; SetGain 1 1]) /\
  stitchVideos webmHost
    [clip 1 "a.mp4" None; clip 2 "b.mp4" (Some {| type := wipe_left; duration := 2 |})]
    None r720p mp4 ar16_9 idle =
  stitchVideos webmHost fadeFirst None r720p mp4 ar16_9 idle.
Proof.
  destruct C6_transition_of_next_scene as [Hkind Hfirst].
  split.
  - apply (Hkind webmHost 1280 720 r720p fadeFirst 0%nat
             (clip 1 "a.mp4" (Some {| type := fade; duration := 1 |}))
             (clip 2 "b.mp4" (Some {| type := wipe_left; duration := 2 |}))
             firstLoaded); reflexivity.
  - apply (Hfirst webmHost fadeFirst
             [clip 1 "a.mp4" None; clip 2 "b.mp4" (Some {| type := wipe_left; duration := 2 |})]
             (clip 1 "a.mp4" (Some {| type := fade; duration := 1 |}))
             [clip 2 "b.mp4" (Some {| type := wipe_left; duration := 2 |})]
             None None r720p mp4 ar16_9 idle); reflexivity.
Defined.

(** * Further properties *)

(** ** Caption wrapping *)

Lemma splitSpace_nonempty (text : string) : splitSpace text <> [].
Proof.
  induction text as [|c rest IH]; simpl; [discriminate|].
  destruct (Ascii.eqb c Ascii.Space); [discriminate|].
  destruct (splitSpace rest); discriminate.
Qed.

Lemma concat_empty_cons (w : string) (ws : list string) :
  String.concat EmptyString (w :: ws) = (w ++ String.concat EmptyString ws)%string.
Proof.
  destruct ws as [|v ws]; simpl; [|reflexivity].
  induction w as [|c w IH]; simpl; [reflexivity | rewrite <- IH; reflexivity].
Qed.

Lemma append_assoc (a b c : string) : ((a ++ b) ++ c = a ++ (b ++ c))%string.
Proof. induction a as [|x a IH]; simpl; [reflexivity | rewrite IH; reflexivity]. Qed.

Lemma append_nil_r (a : string) : (a ++ EmptyString = a)%string.
Proof. induction a as [|x a IH]; simpl; [reflexivity | rewrite IH; reflexivity]. Qed.

Lemma spaced_cons (w : string) (ws : list string) :
  spaced (w :: ws) = (w ++ " " ++ spaced ws)%string.
Proof. unfold spaced. simpl map. rewrite concat_empty_cons, append_assoc. reflexivity. Qed.

(** X1: joining the pieces of [text.split(' ')] with single spaces gives
    the text back, and the split is never empty. *)
Theorem splitSpace_join (text : string) :
  String.concat " "%string (splitSpace text) = text /\ splitSpace text <> [].
Proof.
  split; [|apply splitSpace_nonempty].
  induction text as [|c rest IH]; simpl; [reflexivity|].
  destruct (Ascii.eqb c Ascii.Space) eqn:E.
  - apply Ascii.eqb_eq in E. subst c.
    pose proof (splitSpace_nonempty rest) as Hne.
    destruct (splitSpace rest) as [|w ws]; [congruence|].
    simpl in *. rewrite IH. reflexivity.
  - pose proof (splitSpace_nonempty rest) as Hne.
    destruct (splitSpace rest) as [|w ws]; [congruence|].
    destruct ws as [|v ws]; simpl in *; rewrite <- IH; reflexivity.
Qed.

Lemma spaced_splitSpace (text : string) : spaced (splitSpace text) = (text ++ " ")%string.
Proof.
  induction text as [|c rest IH]; [reflexivity|].
  simpl splitSpace. destruct (Ascii.eqb c Ascii.Space) eqn:E.
  - apply Ascii.eqb_eq in E. subst c. rewrite spaced_cons, IH. reflexivity.
  - pose proof (splitSpace_nonempty rest) as Hne.
    destruct (splitSpace rest) as [|w ws]; [congruence|].
    rewrite spaced_cons in IH. rewrite spaced_cons. simpl. f_equal. exact IH.
Qed.

Lemma wrapWords_concat (measure : string -> Q) (maxWidth : Q) (words : list string) :
  forall n line,
    String.concat EmptyString (wrapWords measure maxWidth n line words) =
    (line ++ spaced words)%string.
Proof.
  induction words as [|w rest IH]; intros n line; simpl wrapWords.
  - simpl. symmetry. apply append_nil_r.
  - rewrite spaced_cons.
    destruct (negb (Qle_bool (measure (line ++ w ++ " ")%string) maxWidth) &&
              negb (n =? 0)%nat).
    + rewrite concat_empty_cons, IH, !append_assoc. reflexivity.
    + rewrite IH, !append_assoc. reflexivity.
Qed.

(** X2: wrapping loses and reorders nothing: the lines, concatenated,
    are the text followed by one space. *)
Theorem wrapText_preserves_text (measure : string -> Q) (maxWidth : Q) (text : string) :
  String.concat EmptyString (wrapText measure maxWidth text) = (text ++ " ")%string.
Proof. unfold wrapText. rewrite wrapWords_concat, spaced_splitSpace. reflexivity. Qed.

Lemma wrapWords_fit (measure : string -> Q) (maxWidth : Q) (P : string -> Prop)
    (words : list string) :
  (forall l, measure l <= maxWidth -> P l) ->
  (forall w, In w words -> P (w ++ " ")%string) ->
  forall n line, n <> 0%nat -> P line ->
    Forall P (wrapWords measure maxWidth n line words).
Proof.
  intros Hfit. induction words as [|w rest IH]; intros Hword n line Hn Hline; simpl.
  - constructor; [exact Hline | constructor].
  - assert (Hrest : forall v, In v rest -> P (v ++ " ")%string)
      by (intros v Hv; apply Hword; right; exact Hv).
    destruct (Qle_bool (measure (line ++ w ++ " ")%string) maxWidth) eqn:E; simpl.
    + apply IH; [exact Hrest | discriminate |].
      apply Hfit, Qle_bool_iff, E.
    + destruct (n =? 0)%nat eqn:En; [apply Nat.eqb_eq in En; contradiction|]. simpl.
      constructor; [exact Hline|].
      apply IH; [exact Hrest | discriminate | apply Hword; left; reflexivity].
Qed.

Lemma wrapWords_length (measure : string -> Q) (maxWidth : Q) (words : list string) :
  forall n line,
    (1 <= List.length (wrapWords measure maxWidth n line words) <= S (List.length words))%nat.
Proof.
  induction words as [|w rest IH]; intros n line; simpl wrapWords; [simpl; lia|].
  destruct (negb (Qle_bool (measure (line ++ w ++ " ")%string) maxWidth) &&
            negb (n =? 0)%nat).
  - specialize (IH (S n) (w ++ " ")%string). simpl. lia.
  - specialize (IH (S n) (line ++ w ++ " ")%string). simpl. lia.
Qed.

(** X3: every line of a wrapped caption either measures at most
    [maxWidth] or is a single word of the text (with its space); there is
    at least one line and never more lines than words. *)
Theorem wrapText_lines_fit (measure : string -> Q) (maxWidth : Q) (text : string) :
  let lines := wrapText measure maxWidth text in
  Forall (fun l => measure l <= maxWidth \/
                   exists w, In w (splitSpace text) /\ l = (w ++ " ")%string) lines /\
  (1 <= List.length lines <= List.length (splitSpace text))%nat.
Proof.
  unfold wrapText.
  pose proof (splitSpace_nonempty text) as Hne.
  destruct (splitSpace text) as [|w rest] eqn:E; [congruence|].
  simpl wrapWords. rewrite andb_false_r. split.
  - apply wrapWords_fit.
    + intros l Hl. left. exact Hl.
    + intros v Hv. right. exists v. split; [right; exact Hv | reflexivity].
    + discriminate.
    + right. exists w. split; [left; reflexivity | reflexivity].
  - pose proof (wrapWords_length measure maxWidth rest 1 (w ++ " ")%string). simpl. lia.
Qed.

Lemma drawLines_length (lines : list string) (x y lineHeight : Q) (count : nat) :
  List.length (drawLines lines x y lineHeight count) = (2 * count)%nat.
Proof. induction count as [|k IH]; simpl; [reflexivity | rewrite IH; lia]. Qed.

Lemma drawLines_nth (lines : list string) (x y lineHeight : Q) (count : nat) :
  forall j, (j < count)%nat ->
    let k := (count - 1 - j)%nat in
    let lineY := y - inject_Z (Z.of_nat (List.length lines - 1 - k)) * lineHeight in
    nth_error (drawLines lines x y lineHeight count) (2 * j) =
      Some (StrokeText (nth k lines EmptyString) x lineY) /\
    nth_error (drawLines lines x y lineHeight count) (2 * j + 1) =
      Some (FillText (nth k lines EmptyString) x lineY).
Proof.
  induction count as [|c IH]; intros j Hj; [lia|].
  cbv zeta. destruct j as [|j].
  - replace (S c - 1 - 0)%nat with c by lia. split; reflexivity.
  - replace (2 * S j)%nat with (S (S (2 * j))) by lia.
    replace (S (S (2 * j)) + 1)%nat with (S (S (2 * j + 1))) by lia.
    replace (S c - 1 - S j)%nat with (c - 1 - j)%nat by lia.
    simpl nth_error. apply IH. lia.
Qed.

Lemma drawLines_below (lines : list string) (x y lineHeight : Q) (count : nat) :
  0 <= lineHeight ->
  Forall (fun c => yOf c <= y) (drawLines lines x y lineHeight count).
Proof.
  intros Hh. induction count as [|k IH]; simpl; [constructor|].
  assert (H0 : 0 <= inject_Z (Z.of_nat (List.length lines - 1 - k)) * lineHeight).
  { apply Qmult_le_0_compat; [|exact Hh].
    change 0 with (inject_Z 0). rewrite <- Zle_Qle. lia. }
  repeat constructor; simpl; try lra. exact IH.
Qed.

(** X4: the caption is drawn bottom-up, each line stroked and then
    filled at the same point: the [j]-th line from the bottom sits
    [j] line heights above [y], so the last line sits on [y] and, for a
    non-negative line height, no line is drawn below [y]. *)
Theorem drawWrappedText_layout (measure : string -> Q) (text : string)
    (x y maxWidth lineHeight fontSize : Q) :
  let lines := wrapText measure maxWidth text in
  let calls := snd (drawWrappedText measure text x y maxWidth lineHeight fontSize) in
  List.length calls = (2 * List.length lines)%nat /\
  (forall j, (j < List.length lines)%nat ->
     let line := nth (List.length lines - 1 - j) lines EmptyString in
     let lineY := y - inject_Z (Z.of_nat j) * lineHeight in
     nth_error calls (2 * j) = Some (StrokeText line x lineY) /\
     nth_error calls (2 * j + 1) = Some (FillText line x lineY)) /\
  (0 <= lineHeight -> Forall (fun c => yOf c <= y) calls).
Proof.
  intros lines calls. subst calls. unfold drawWrappedText. cbn [snd]. fold lines.
  split; [apply drawLines_length|]. split; [|apply drawLines_below].
  intros j Hj.
  pose proof (drawLines_nth lines x y lineHeight (List.length lines) j Hj) as H.
  cbv zeta in H.
  replace (List.length lines - 1 - (List.length lines - 1 - j))%nat with j in H by lia.
  exact H.
Qed.

Example drawWrappedText_layout_witness :
  let measure := fun l : string => inject_Z (Z.of_nat (String.length l)) in
  let calls := snd (drawWrappedText measure "a bb ccc" 640 648 6 38 32) in
  wrapText measure 6 "a bb ccc" = ["a bb "; "ccc "]%string /\
  Forall (fun c => yOf c <= 648) calls.
Proof.
  intros measure calls. split; [reflexivity|].
  apply (drawWrappedText_layout measure "a bb ccc" 640 648 6 38 32). lra.
Defined.

(** ** Logs accepted by a state machine *)

Section Scanning.
Context {T : Type} (step : T -> Event -> option T).

Lemma scan_app (t : T) (l1 l2 : list Event) :
  scan step t (l1 ++ l2) =
  match scan step t l1 with
  | Some t' => scan step t' l2
  | None => None
  end.
Proof.
  revert t. induction l1 as [|e l1 IH]; intros t; simpl; [reflexivity|].
  destruct (step t e); [apply IH | reflexivity].
Qed.

Lemma triple_bind {A B} (P : T -> St -> Prop) (Q : A -> T -> St -> Prop)
    (R : B -> T -> St -> Prop) (m : M A) (k : A -> M B) :
  triple step P m Q -> (forall a, triple step (Q a) (k a) R) ->
  triple step P (bind m k) R.
Proof.
  intros Hm Hk t s HP.
  destruct (Hm t s HP) as (t1 & Hscan & Hret).
  rewrite evs_bind, scan_app, Hscan.
  destruct (res (m s)) as [a| |] eqn:Ea.
  - destruct (Hk a t1 (final (m s)) (Hret a eq_refl)) as (t2 & Hscan2 & Hret2).
    exists t2. split; [exact Hscan2|].
    intros b Hb. unfold bind in Hb |- *. rewrite Ea in *. cbn [res final] in *.
    apply Hret2, Hb.
  - exists t1. split; [reflexivity|].
    intros b Hb. unfold bind in Hb. rewrite Ea in Hb. discriminate.
  - exists t1. split; [reflexivity|].
    intros b Hb. unfold bind in Hb. rewrite Ea in Hb. discriminate.
Qed.

Lemma triple_pre {A} (P P' : T -> St -> Prop) (Q : A -> T -> St -> Prop) (m : M A) :
  (forall t s, P' t s -> P t s) -> triple step P m Q -> triple step P' m Q.
Proof. intros HP H t s Hs. apply H, HP, Hs. Qed.

Lemma triple_post {A} (P : T -> St -> Prop) (Q Q' : A -> T -> St -> Prop) (m : M A) :
  (forall a t s, Q a t s -> Q' a t s) -> triple step P m Q -> triple step P m Q'.
Proof.
  intros HQ H t s Hs. destruct (H t s Hs) as (t' & Hscan & Hret).
  exists t'. split; [exact Hscan|]. intros a Ha. apply HQ, Hret, Ha.
Qed.

Lemma triple_get (P : T -> St -> Prop) :
  triple step P get (fun a t s => a = s /\ P t s).
Proof.
  intros t s HP. exists t. split; [reflexivity|].
  intros a Ha. injection Ha as <-. split; [reflexivity | exact HP].
Qed.

(** A step whose calls the machine ignores and which keeps [P]. *)
Lemma triple_skip {A} (P : T -> St -> Prop) (m : M A) :
  (forall t s, scan step t (evs (m s)) = Some t) ->
  (forall t s, P t s -> P t (final (m s))) ->
  triple step P m (fun _ => P).
Proof.
  intros Hscan Hkeep t s HP. exists t. split; [apply Hscan|].
  intros a _. apply Hkeep, HP.
Qed.

(** [try]/[catch]/[finally] around [body], when the machine ignores
    the calls of the [finally] block. *)
Lemma triple_tryCatchFinally {A} (P : T -> St -> Prop) (Q : A -> T -> St -> Prop)
    (body : M A) :
  (forall t s, scan step t (evs (cleanup s)) = Some t) ->
  triple step P body Q ->
  triple step P (tryCatchFinally body (fun _ => throw StitchingFailed) cleanup) Q.
Proof.
  intros Hfin Hbody t s HP.
  destruct (Hbody t s HP) as (t1 & Hscan & Hret).
  assert (Hstate : forall s', final (cleanup s') = s')
    by (intros s'; unfold cleanup, bind; simpl; destruct (bgMusicEl s'); reflexivity).
  unfold tryCatchFinally.
  destruct (res (body s)) as [a| |] eqn:Ea; unfold throw; cbn [res final evs].
  - exists t1. rewrite scan_app, Hscan, Hfin, res_cleanup, Hstate.
    split; [reflexivity|]. intros b Hb. injection Hb as <-. apply Hret. reflexivity.
  - exists t1. rewrite res_cleanup. cbn [app]. rewrite scan_app, Hscan, Hfin.
    split; [reflexivity|]. intros b Hb. discriminate.
  - exists t1. split; [exact Hscan|]. intros b Hb. discriminate.
Qed.
End Scanning.

(** ** The recorder is driven as its state machine allows *)

Lemma triple_const {T A} (step : T -> Event -> option T) (a b : T) (m : M A) :
  (forall s, scan step a (evs (m s)) = Some b) ->
  triple step (fun t _ => t = a) m (fun _ t _ => t = b).
Proof.
  intros H t s ->. exists b. split; [apply H | intros; reflexivity].
Qed.

Ltac run_calls :=
  intros ?; unfold bind; simpl;
  repeat match goal with
         | |- context [match ?x with _ => _ end] => destruct x; simpl
         end;
  reflexivity.

Ltac rec_const := apply triple_const; run_calls.

Lemma rec_drawSolo (w h : Q) (r : ExportResolution) (n i : nat)
    (overlay : option string) (num : Z) (cur : nat) (soloEndTime : Q) (frames : list Frame) :
  triple recorderStep (fun t _ => t = recording)
    (drawSolo w h r n i overlay num cur soloEndTime frames)
    (fun _ t _ => t = recording).
Proof.
  induction frames as [|f rest IH]; simpl; [rec_const|].
  destruct (paused f || ended f || Qle_bool soloEndTime (currentTime f)); [rec_const|].
  eapply triple_bind; [rec_const | intros s0].
  eapply triple_bind; [rec_const | intros ?].
  eapply triple_bind; [destruct (truthyStr overlay); rec_const | intros ?].
  eapply triple_bind;
    [destruct (now f - lastProgressUpdate s0 >? 100)%Z; rec_const | intros ?].
  exact IH.
Qed.

Lemma rec_drawTransFrame (w h : Q) (ty : TransitionType) (td ns : Q)
    (cur next : nat) (ct : Q) :
  triple recorderStep (fun t _ => t = recording)
    (drawTransFrame w h ty td ns cur next ct)
    (fun _ t _ => t = recording).
Proof.
  unfold drawTransFrame.
  destruct (Qle_bool 1 (transitionProgress td ns ct)); [rec_const|].
  eapply triple_bind; [rec_const | intros ?].
  eapply triple_bind; [rec_const | intros ?].
  eapply triple_bind; [destruct ty; rec_const | intros ?].
  rec_const.
Qed.

Lemma rec_drawTrans (w h : Q) (ty : TransitionType) (td ns : Q) (cur next : nat)
    (frames : list Q) :
  triple recorderStep (fun t _ => t = recording)
    (drawTrans w h ty td ns cur next frames)
    (fun _ t _ => t = recording).
Proof.
  induction frames as [|ct rest IH]; simpl; [rec_const|].
  eapply triple_bind; [apply rec_drawTransFrame|].
  intros [|]; [rec_const | exact IH].
Qed.

Lemma rec_play (host : Host) (k : nat) (rs : RecorderState) :
  triple recorderStep (fun t _ => t = rs) (play host k) (fun _ t _ => t = rs).
Proof.
  apply triple_const. intros s. unfold play, bind; simpl.
  destruct (src (slotAt s k)) as [u|]; [destruct (playResolves host u)|]; reflexivity.
Qed.

Lemma rec_awaitLoadedMetadata (host : Host) (k : nat) (rs : RecorderState) :
  triple recorderStep (fun t _ => t = rs) (awaitLoadedMetadata host k)
    (fun _ t _ => t = rs).
Proof.
  apply triple_const. intros s. unfold awaitLoadedMetadata, bind; simpl.
  destruct (src (slotAt s k)) as [u|]; [destruct (metadata host u)|]; reflexivity.
Qed.

Lemma rec_iteration (host : Host) (w h : Q) (r : ExportResolution)
    (validScenes : list Scene) (i : nat) :
  triple recorderStep (fun t _ => t = recording)
    (iteration host w h r validScenes i)
    (fun _ t _ => t = recording).
Proof.
  unfold iteration.
  destruct (nth_error validScenes i) as [c|]; [|rec_const].
  eapply triple_bind; [rec_const | intros s0]. cbv zeta.
  eapply triple_bind.
  { destruct (i =? 0)%nat; [|rec_const].
    eapply triple_bind; [rec_const | intros ?]. apply rec_play. }
  intros ?.
  eapply triple_bind; [apply rec_drawSolo | intros ?].
  destruct (hasNextAt validScenes i); [|rec_const].
  destruct (nextSceneAt validScenes i) as [ns|]; [|rec_const].
  eapply triple_bind; [apply (triple_const _ recording held); run_calls | intros ?].
  eapply triple_bind; [rec_const | intros ?].
  eapply triple_bind; [rec_const | intros ?].
  eapply triple_bind; [apply rec_awaitLoadedMetadata | intros ?].
  eapply triple_bind; [rec_const | intros ?].
  eapply triple_bind; [apply rec_play | intros ?].
  eapply triple_bind;
    [destruct (pausedAtResume host i); [apply rec_play | rec_const] | intros ?].
  eapply triple_bind; [apply (triple_const _ held recording); run_calls | intros ?].
  eapply triple_bind; [apply rec_drawTrans | intros ?].
  unfold swapSlots.
  do 3 (eapply triple_bind; [rec_const | intros ?]).
  rec_const.
Qed.

Lemma rec_forLoop (host : Host) (w h : Q) (r : ExportResolution)
    (validScenes : list Scene) (remaining : nat) :
  forall i,
    triple recorderStep (fun t _ => t = recording)
      (forLoop host w h r validScenes remaining i)
      (fun _ t _ => t = recording).
Proof.
  induction remaining as [|k IH]; intros i; simpl; [rec_const|].
  eapply triple_bind; [apply rec_iteration | intros ?; apply IH].
Qed.

Lemma rec_bgPause (rs : RecorderState) :
  triple recorderStep (fun t _ => t = rs) bgPause (fun _ t _ => t = rs).
Proof.
  apply triple_const. intros s. unfold bgPause, bind; simpl.
  destruct (bgMusicEl s); reflexivity.
Qed.

Lemma rec_playback (host : Host) (w h : Q) (r : ExportResolution)
    (validScenes : list Scene) (mimeType : string) :
  triple recorderStep (fun t _ => t = recording)
    (playback host w h r validScenes mimeType)
    (fun _ t _ => t = inactive).
Proof.
  unfold playback. destruct validScenes as [|c rest].
  - intros t s ->. exists recording. split; [reflexivity | intros a Ha; discriminate].
  - eapply triple_bind; [rec_const | intros ?].
    eapply triple_bind; [rec_const | intros s0].
    eapply triple_bind; [rec_const | intros ?].
    eapply triple_bind; [apply rec_awaitLoadedMetadata | intros ?].
    eapply triple_bind; [apply rec_forLoop | intros ?].
    eapply triple_bind; [rec_const | intros ?].
    eapply triple_bind; [apply (triple_const _ recording inactive); run_calls | intros ?].
    eapply triple_bind; [apply rec_bgPause | intros ?].
    rec_const.
Qed.

Lemma scan_cleanup_recorder (t : RecorderState) (s : St) :
  scan recorderStep t (evs (cleanup s)) = Some t.
Proof. unfold cleanup, bind; simpl. destruct (bgMusicEl s); reflexivity. Qed.

(** X5: every stitch drives the recorder as its state machine allows:
    it is started only while inactive, paused and stopped only while
    recording, resumed only while paused, and every frame and caption
    is painted while it records; a stitch that returns has stopped
    it. *)
Theorem recorder_protocol (host : Host) (scenes : list Scene)
    (bgMusic : option BackgroundMusic) (resolution : ExportResolution)
    (format : ExportFormat) (aspectRatio : AspectRatio) (s : St) :
  let o := stitchVideos host scenes bgMusic resolution format aspectRatio s in
  exists rs, scan recorderStep inactive (evs o) = Some rs /\
             forall u, res o = Ret u -> rs = inactive.
Proof.
  intros o.
  assert (H : triple recorderStep (fun t _ => t = inactive)
                (stitchVideos host scenes bgMusic resolution format aspectRatio)
                (fun _ t _ => t = inactive)).
  { unfold stitchVideos.
    destruct (List.length (validScenesOf scenes) =? 0)%nat.
    - intros t s0 ->. exists inactive. split; [reflexivity | intros; reflexivity].
    - eapply triple_bind; [rec_const | intros ?].
      eapply triple_bind; [unfold getContext; destruct (getContext2d host); rec_const | intros ?].
      do 3 (eapply triple_bind; [rec_const | intros ?]).
      eapply triple_bind.
      { unfold setupBgMusic. destruct bgMusic as [b|];
          [destruct (truthyStr (Some (url b))); [destruct (volumeAccepted (volume b))|]|]; rec_const. }
      intros ?.
      eapply triple_bind.
      { unfold newMediaRecorder.
        destruct (recorderAccepts host (selectMimeType host format)); rec_const. }
      intros ?.
      eapply triple_bind; [apply (triple_const _ inactive recording); run_calls | intros ?].
      eapply triple_bind.
      { apply triple_const. intros s0. unfold bgPlay, bind; simpl.
        destruct (bgMusicEl s0); reflexivity. }
      intros ?.
      do 2 (eapply triple_bind; [rec_const | intros ?]).
      apply triple_tryCatchFinally; [apply scan_cleanup_recorder | apply rec_playback]. }
  destruct (H inactive s eq_refl) as (rs & Hscan & Hret).
  exists rs. split; [exact Hscan | exact Hret].
Qed.

Example recorderStep_rejects :
  scan recorderStep inactive [RecorderStart; RecorderPause; DrawImage 0 (wipeLeftClip 1 1 0) 1]
    = None /\
  scan recorderStep inactive [RecorderStart; RecorderPause; RecorderPause] = None.
Proof. split; reflexivity. Qed.

(** ** Clips are loaded in timeline order on alternating slots *)

Lemma triple_assume {T A} (step : T -> Event -> option T) (phi : Prop)
    (P : T -> St -> Prop) (Q : A -> T -> St -> Prop) (m : M A) :
  (forall t s, P t s -> phi) -> (phi -> triple step P m Q) -> triple step P m Q.
Proof. intros H1 H2 t s HP. exact (H2 (H1 t s HP) t s HP). Qed.

Lemma slot_alternates (i : nat) : (1 - i mod 2 = S i mod 2)%nat.
Proof.
  pose proof (Nat.mod_upper_bound i 2 ltac:(lia)) as Hb.
  replace (S i) with (i + 1)%nat by lia.
  rewrite Nat.Div0.add_mod.
  destruct (i mod 2)%nat as [|[|k]]; [reflexivity | reflexivity | lia].
Qed.

Section Loads.
Variable urls : list string.

Ltac ld_skip :=
  apply triple_skip;
  [ intros ? ?; unfold bind; simpl;
    repeat match goal with
           | |- context [match ?x with _ => _ end] => destruct x; simpl
           end;
    reflexivity
  | intros ? ? ?; assumption ].

Lemma ld_play (host : Host) (k : nat) (P : nat -> St -> Prop) :
  triple (loadStep urls) P (play host k) (fun _ => P).
Proof.
  intros t s HP. exists t. unfold play, bind; simpl.
  destruct (src (slotAt s k)) as [u|]; [destruct (playResolves host u)|]; simpl;
    (split; [reflexivity | intros a Ha; try discriminate; exact HP]).
Qed.

Lemma ld_awaitLoadedMetadata (host : Host) (k : nat) (c : nat) (Phi : nat -> Prop) :
  triple (loadStep urls) (fun t s => Phi t /\ activeSlotIndex s = c)
    (awaitLoadedMetadata host k)
    (fun _ t s => Phi t /\ activeSlotIndex s = c).
Proof.
  intros t s HP. exists t. unfold awaitLoadedMetadata, bind; simpl.
  destruct (src (slotAt s k)) as [u|]; [destruct (metadata host u)|]; simpl;
    (split; [reflexivity | intros a Ha; try discriminate; exact HP]).
Qed.

Lemma ld_drawSolo (w h : Q) (r : ExportResolution) (n i : nat)
    (overlay : option string) (num : Z) (cur : nat) (soloEndTime : Q)
    (frames : list Frame) (c : nat) (Phi : nat -> Prop) :
  triple (loadStep urls) (fun t s => Phi t /\ activeSlotIndex s = c)
    (drawSolo w h r n i overlay num cur soloEndTime frames)
    (fun _ t s => Phi t /\ activeSlotIndex s = c).
Proof.
  induction frames as [|f rest IH]; simpl; [ld_skip|].
  destruct (paused f || ended f || Qle_bool soloEndTime (currentTime f)); [ld_skip|].
  eapply triple_bind; [ld_skip | intros s0].
  eapply triple_bind; [ld_skip | intros ?].
  eapply triple_bind; [destruct (truthyStr overlay); ld_skip | intros ?].
  eapply triple_bind;
    [destruct (now f - lastProgressUpdate s0 >? 100)%Z; ld_skip | intros ?].
  exact IH.
Qed.

Lemma ld_drawTrans (w h : Q) (ty : TransitionType) (td ns : Q) (cur next : nat)
    (frames : list Q) (c : nat) (Phi : nat -> Prop) :
  triple (loadStep urls) (fun t s => Phi t /\ activeSlotIndex s = c)
    (drawTrans w h ty td ns cur next frames)
    (fun _ t s => Phi t /\ activeSlotIndex s = c).
Proof.
  induction frames as [|ct rest IH]; simpl; [ld_skip|].
  eapply triple_bind.
  { unfold drawTransFrame.
    destruct (Qle_bool 1 (transitionProgress td ns ct)); [ld_skip|].
    eapply triple_bind; [ld_skip | intros ?].
    eapply triple_bind; [ld_skip | intros ?].
    eapply triple_bind; [destruct ty; ld_skip | intros ?].
    ld_skip. }
  intros [|]; [ld_skip | exact IH].
Qed.

Lemma ld_iteration (host : Host) (w h : Q) (r : ExportResolution)
    (validScenes : list Scene) (i : nat) :
  urls = map urlOf validScenes ->
  (i < List.length validScenes)%nat ->
  triple (loadStep urls) (loadInv (List.length validScenes) i)
    (iteration host w h r validScenes i)
    (fun _ => loadInv (List.length validScenes) (S i)).
Proof.
  intros Hurls Hi. set (n := List.length validScenes) in *.
  unfold iteration.
  destruct (nth_error validScenes i) as [c|] eqn:Ec;
    [|apply nth_error_None in Ec; lia].
  eapply triple_bind; [apply triple_get | intros s0].
  apply (triple_assume _ (activeSlotIndex s0 = i mod 2)%nat).
  { intros t s (-> & _ & Ha). apply Ha, Hi. }
  intros Hcur. cbv zeta. rewrite Hcur.
  apply (triple_pre _ (fun t s => t = Nat.min (S i) n /\
                                  activeSlotIndex s = (i mod 2)%nat)).
  { intros t s (_ & Ht & Ha). split; [exact Ht | apply Ha, Hi]. }
  eapply triple_bind.
  { destruct (i =? 0)%nat; [|ld_skip].
    eapply triple_bind; [ld_skip | intros ?]. apply ld_play. }
  intros ?.
  eapply triple_bind; [apply ld_drawSolo with (Phi := fun t => t = Nat.min (S i) n) | intros ?].
  destruct (hasNextAt validScenes i) eqn:Hn.
  - apply Nat.ltb_lt in Hn. fold n in Hn.
    destruct (nextSceneAt validScenes i) as [ns|] eqn:Ens.
    + assert (Hns : nth_error validScenes (S i) = Some ns).
      { unfold nextSceneAt, hasNextAt in Ens. fold n in Ens.
        apply Nat.ltb_lt in Hn. rewrite Hn in Ens. exact Ens. }
      eapply triple_bind; [ld_skip | intros ?].
      eapply triple_bind; [ld_skip | intros ?].
      eapply triple_bind.
      { instantiate (1 := fun _ t s => t = S (S i) /\ activeSlotIndex s = (i mod 2)%nat).
        intros t s (Ht & Ha). exists (S (S i)). split; [|intros; split; [reflexivity | exact Ha]].
        change (evs (setSrc (1 - i mod 2) (urlOf ns) s))
          with [SetSrc (1 - i mod 2) (urlOf ns)].
        subst t. replace (Nat.min (S i) n) with (S i) by lia.
        cbn [scan loadStep].
        rewrite Hurls, (map_nth_error urlOf (S i) validScenes Hns).
        rewrite slot_alternates, Nat.eqb_refl, String.eqb_refl. reflexivity. }
      intros ?.
      eapply triple_bind;
        [apply ld_awaitLoadedMetadata with (Phi := fun t => t = S (S i)) | intros ?].
      eapply triple_bind; [ld_skip | intros ?].
      eapply triple_bind; [apply ld_play | intros ?].
      eapply triple_bind;
        [destruct (pausedAtResume host i); [apply ld_play | ld_skip] | intros ?].
      eapply triple_bind; [ld_skip | intros ?].
      eapply triple_bind; [apply ld_drawTrans with (Phi := fun t => t = S (S i)) | intros ?].
      unfold swapSlots.
      do 3 (eapply triple_bind; [ld_skip | intros ?]).
      intros t s (Ht & Ha). exists t. split; [reflexivity|].
      intros _ _. unfold loadInv. split; [lia|].
      intros _. exact (slot_alternates i).
    + unfold nextSceneAt, hasNextAt in Ens. fold n in Ens.
      apply Nat.ltb_lt in Hn. rewrite Hn in Ens.
      apply nth_error_None in Ens. apply Nat.ltb_lt in Hn. fold n in Ens. lia.
  - apply Nat.ltb_ge in Hn. fold n in Hn.
    apply (triple_post _ _ (fun _ t s => t = Nat.min (S i) n /\
                                        activeSlotIndex s = (i mod 2)%nat)).
    + intros _ t s (Ht & _). split; lia.
    + ld_skip.
Qed.

Lemma ld_forLoop (host : Host) (w h : Q) (r : ExportResolution)
    (validScenes : list Scene) (remaining : nat) :
  urls = map urlOf validScenes ->
  forall i, (i + remaining = List.length validScenes)%nat ->
    triple (loadStep urls) (loadInv (List.length validScenes) i)
      (forLoop host w h r validScenes remaining i)
      (fun _ t _ => t = List.length validScenes).
Proof.
  intros Hurls. induction remaining as [|k IH]; intros i Hsum; simpl.
  - intros t s (Ht & _). exists t. split; [reflexivity|]. intros _ _. lia.
  - eapply triple_bind; [apply ld_iteration; [exact Hurls | lia] | intros ?].
    apply IH. lia.
Qed.

Lemma ld_playback (host : Host) (w h : Q) (r : ExportResolution)
    (validScenes : list Scene) (mimeType : string) :
  urls = map urlOf validScenes ->
  triple (loadStep urls) (fun t s => t = 0%nat /\ activeSlotIndex s = 0%nat)
    (playback host w h r validScenes mimeType)
    (fun _ t _ => t = List.length validScenes).
Proof.
  intros Hurls. unfold playback. destruct validScenes as [|c rest] eqn:E.
  - intros t s (Ht & _). exists t. split; [reflexivity | intros a Ha; discriminate].
  - rewrite <- E in *.
    assert (Hn : (0 < List.length validScenes)%nat) by (rewrite E; simpl; lia).
    eapply triple_bind; [ld_skip | intros ?].
    eapply triple_bind; [apply triple_get | intros s0].
    apply (triple_assume _ (activeSlotIndex s0 = 0)%nat).
    { intros t s (-> & _ & Ha). exact Ha. }
    intros Hcur. rewrite Hcur.
    eapply triple_bind.
    { instantiate (1 := fun _ t s => t = 1%nat /\ activeSlotIndex s = 0%nat).
      intros t s (_ & Ht & Ha). exists 1%nat.
      split; [|intros; split; [reflexivity | exact Ha]].
      change (evs (setSrc 0 (urlOf c) s)) with [SetSrc 0 (urlOf c)].
      subst t. cbn [scan loadStep]. rewrite Hurls, E. cbn [map nth_error].
      rewrite String.eqb_refl. reflexivity. }
    intros ?.
    eapply triple_bind;
      [apply ld_awaitLoadedMetadata with (Phi := fun t => t = 1%nat) | intros ?].
    eapply triple_bind.
    { apply (triple_pre _ (loadInv (List.length validScenes) 0));
        [|apply ld_forLoop; [exact Hurls | reflexivity]].
      intros t s (Ht & Ha). split; [lia | intros _; exact Ha]. }
    intros ?.
    eapply triple_bind; [ld_skip | intros ?].
    eapply triple_bind; [ld_skip | intros ?].
    eapply triple_bind.
    { apply triple_skip; [|intros ? ? H; exact H].
      intros t s. unfold bgPause, bind; simpl. destruct (bgMusicEl s); reflexivity. }
    intros ?. ld_skip.
Qed.

Lemma ld_stitchVideos (host : Host) (scenes : list Scene)
    (bg : option BackgroundMusic) (r : ExportResolution) (f : ExportFormat)
    (a : AspectRatio) :
  urls = map urlOf (validScenesOf scenes) ->
  triple (loadStep urls) (fun t _ => t = 0%nat)
    (stitchVideos host scenes bg r f a)
    (fun _ t _ => t = List.length (validScenesOf scenes)).
Proof.
  intros Hurls. unfold stitchVideos.
  destruct (List.length (validScenesOf scenes) =? 0)%nat.
  - intros t s Ht. exists t. split; [reflexivity | intros x Hx; discriminate].
  - eapply triple_bind; [ld_skip | intros ?].
    eapply triple_bind;
      [unfold getContext; destruct (getContext2d host); ld_skip | intros ?].
    do 3 (eapply triple_bind; [ld_skip | intros ?]).
    eapply triple_bind.
    { unfold setupBgMusic. destruct bg as [b|];
        [destruct (truthyStr (Some (url b))); [destruct (volumeAccepted (volume b))|]|]; ld_skip. }
    intros ?.
    eapply triple_bind.
    { unfold newMediaRecorder.
      destruct (recorderAccepts host (selectMimeType host f)); ld_skip. }
    intros ?.
    eapply triple_bind; [ld_skip | intros ?].
    eapply triple_bind.
    { apply triple_skip; [|intros ? ? H; exact H].
      intros t s. unfold bgPlay, bind; simpl. destruct (bgMusicEl s); reflexivity. }
    intros ?.
    eapply triple_bind.
    { instantiate (1 := fun _ t s => t = 0%nat /\ activeSlotIndex s = 0%nat).
      intros t s Ht. exists t. split; [reflexivity|]. intros; split; [exact Ht | reflexivity]. }
    intros ?.
    eapply triple_bind; [ld_skip | intros ?].
    apply triple_tryCatchFinally.
    + intros t s. unfold cleanup, bind; simpl. destruct (bgMusicEl s); reflexivity.
    + apply ld_playback. exact Hurls.
Qed.
End Loads.

(** X6: in every stitch the clips are bound to the slots in timeline
    order, each at most once, on alternating slots starting with slot 0
    (clip [i] on slot [i mod 2]); a stitch that returns has bound every
    clip of the timeline. *)
Theorem clips_loaded_in_order (host : Host) (scenes : list Scene)
    (bgMusic : option BackgroundMusic) (resolution : ExportResolution)
    (format : ExportFormat) (aspectRatio : AspectRatio) (s : St) :
  let urls := map urlOf (validScenesOf scenes) in
  let o := stitchVideos host scenes bgMusic resolution format aspectRatio s in
  exists loaded, scan (loadStep urls) 0%nat (evs o) = Some loaded /\
                 forall u, res o = Ret u -> loaded = List.length (validScenesOf scenes).
Proof.
  intros urls o.
  destruct (ld_stitchVideos urls host scenes bgMusic resolution format aspectRatio
              eq_refl 0%nat s eq_refl) as (loaded & Hscan & Hret).
  exists loaded. split; [exact Hscan | exact Hret].
Qed.

(** ** The shape of a stitch's call log *)

Lemma scan_allow (c : Event -> bool) (l : list Event) :
  scan (allowStep c) tt l = Some tt -> forallb c l = true.
Proof.
  induction l as [|e l IH]; simpl; [reflexivity|].
  unfold allowStep at 1. destruct (c e); [|discriminate].
  intros H. apply IH, H.
Qed.

Ltac al_const := apply (triple_const (allowStep loopEvent) tt tt); run_calls.

Lemma al_drawSolo (w h : Q) (r : ExportResolution) (n i : nat)
    (overlay : option string) (num : Z) (cur : nat) (soloEndTime : Q) (frames : list Frame) :
  triple (allowStep loopEvent) (fun t _ => t = tt)
    (drawSolo w h r n i overlay num cur soloEndTime frames)
    (fun _ t _ => t = tt).
Proof.
  induction frames as [|f rest IH]; simpl; [al_const|].
  destruct (paused f || ended f || Qle_bool soloEndTime (currentTime f)); [al_const|].
  eapply triple_bind; [al_const | intros s0].
  eapply triple_bind; [al_const | intros ?].
  eapply triple_bind; [destruct (truthyStr overlay); al_const | intros ?].
  eapply triple_bind;
    [destruct (now f - lastProgressUpdate s0 >? 100)%Z; al_const | intros ?].
  exact IH.
Qed.

Lemma al_drawTrans (w h : Q) (ty : TransitionType) (td ns : Q) (cur next : nat)
    (frames : list Q) :
  triple (allowStep loopEvent) (fun t _ => t = tt)
    (drawTrans w h ty td ns cur next frames)
    (fun _ t _ => t = tt).
Proof.
  induction frames as [|ct rest IH]; simpl; [al_const|].
  eapply triple_bind.
  { unfold drawTransFrame.
    destruct (Qle_bool 1 (transitionProgress td ns ct)); [al_const|].
    eapply triple_bind; [al_const | intros ?].
    eapply triple_bind; [al_const | intros ?].
    eapply triple_bind; [destruct ty; al_const | intros ?].
    al_const. }
  intros [|]; [al_const | exact IH].
Qed.

Lemma al_play (host : Host) (k : nat) :
  triple (allowStep loopEvent) (fun t _ => t = tt) (play host k) (fun _ t _ => t = tt).
Proof.
  apply triple_const. intros s. unfold play, bind; simpl.
  destruct (src (slotAt s k)) as [u|]; [destruct (playResolves host u)|]; reflexivity.
Qed.

Lemma al_awaitLoadedMetadata (host : Host) (k : nat) :
  triple (allowStep loopEvent) (fun t _ => t = tt) (awaitLoadedMetadata host k)
    (fun _ t _ => t = tt).
Proof.
  apply triple_const. intros s. unfold awaitLoadedMetadata, bind; simpl.
  destruct (src (slotAt s k)) as [u|]; [destruct (metadata host u)|]; reflexivity.
Qed.

Lemma al_iteration (host : Host) (w h : Q) (r : ExportResolution)
    (validScenes : list Scene) (i : nat) :
  triple (allowStep loopEvent) (fun t _ => t = tt)
    (iteration host w h r validScenes i)
    (fun _ t _ => t = tt).
Proof.
  unfold iteration.
  destruct (nth_error validScenes i) as [c|]; [|al_const].
  eapply triple_bind; [al_const | intros s0]. cbv zeta.
  eapply triple_bind.
  { destruct (i =? 0)%nat; [|al_const].
    eapply triple_bind; [al_const | intros ?]. apply al_play. }
  intros ?.
  eapply triple_bind; [apply al_drawSolo | intros ?].
  destruct (hasNextAt validScenes i); [|al_const].
  destruct (nextSceneAt validScenes i) as [ns|]; [|al_const].
  do 3 (eapply triple_bind; [al_const | intros ?]).
  eapply triple_bind; [apply al_awaitLoadedMetadata | intros ?].
  eapply triple_bind; [al_const | intros ?].
  eapply triple_bind; [apply al_play | intros ?].
  eapply triple_bind;
    [destruct (pausedAtResume host i); [apply al_play | al_const] | intros ?].
  eapply triple_bind; [al_const | intros ?].
  eapply triple_bind; [apply al_drawTrans | intros ?].
  unfold swapSlots.
  do 3 (eapply triple_bind; [al_const | intros ?]).
  al_const.
Qed.

Lemma al_forLoop (host : Host) (w h : Q) (r : ExportResolution)
    (validScenes : list Scene) (remaining : nat) :
  forall i,
    triple (allowStep loopEvent) (fun t _ => t = tt)
      (forLoop host w h r validScenes remaining i)
      (fun _ t _ => t = tt).
Proof.
  induction remaining as [|k IH]; intros i; simpl; [al_const|].
  eapply triple_bind; [apply al_iteration | intros ?; apply IH].
Qed.

Lemma al_accepted {A} (m : M A) (Q : A -> unit -> St -> Prop) :
  triple (allowStep loopEvent) (fun t _ => t = tt) m Q ->
  forall s, forallb loopEvent (evs (m s)) = true.
Proof.
  intros H s. apply scan_allow.
  destruct (H tt s eq_refl) as ([] & Hscan & _). exact Hscan.
Qed.

Lemma shaped_bind {A B} (tail : list Event) (m : M A) (k : A -> M B) (s : St) :
  forallb loopEvent (evs (m s)) = true ->
  (forall a, res (m s) = Ret a -> shaped tail (k a) (final (m s))) ->
  shaped tail (bind m k) s.
Proof.
  intros Hm Hk. unfold shaped. rewrite evs_bind. unfold bind.
  destruct (res (m s)) as [a| |]; cbn [res].
  - destruct (Hk a eq_refl) as (body & Hbody & Hevs).
    exists (evs (m s) ++ body). split.
    + rewrite forallb_app, Hm, Hbody. reflexivity.
    + rewrite Hevs, app_assoc. reflexivity.
  - exists (evs (m s)). split; [exact Hm | reflexivity].
  - exists (evs (m s)). split; [exact Hm | reflexivity].
Qed.

Lemma playTail_kept {A} (m : M A) (s : St) :
  keepsBgLevels m -> playTail (final (m s)) = playTail s.
Proof. intros H. unfold playTail. rewrite H. reflexivity. Qed.

Lemma playback_shaped (host : Host) (w h : Q) (r : ExportResolution)
    (validScenes : list Scene) (mimeType : string) (s : St) :
  validScenes <> [] ->
  shaped (playTail s) (playback host w h r validScenes mimeType) s.
Proof.
  intros Hne. unfold playback. destruct validScenes as [|c rest] eqn:E; [congruence|].
  rewrite <- E.
  apply shaped_bind; [reflexivity | intros _ _].
  change (final (onProgress 0 PreparingScene1 s)) with s.
  apply shaped_bind; [reflexivity | intros s0 Hs0].
  injection Hs0 as <-. change (final (get s)) with s.
  apply shaped_bind; [reflexivity | intros _ _].
  rewrite <- (playTail_kept (setSrc (activeSlotIndex s) (urlOf c)) s)
    by (intros ?; reflexivity).
  set (s1 := final (setSrc (activeSlotIndex s) (urlOf c) s)).
  apply shaped_bind; [apply (al_accepted _ _ (al_awaitLoadedMetadata host _)) | intros _ _].
  rewrite <- (playTail_kept (awaitLoadedMetadata host (activeSlotIndex s)) s1)
    by auto with keeps.
  set (s2 := final (awaitLoadedMetadata host (activeSlotIndex s) s1)).
  apply shaped_bind; [apply (al_accepted _ _ (al_forLoop host w h r validScenes _ 0)) | intros _ _].
  rewrite <- (playTail_kept
    (forLoop host w h r validScenes (List.length validScenes) 0) s2)
    by auto with keeps.
  set (s3 := final (forLoop host w h r validScenes (List.length validScenes) 0 s2)).
  exists []. split; [reflexivity|].
  unfold playTail, bgLevels, bgPause, bind; simpl.
  destruct (bgMusicEl s3); reflexivity.
Qed.

Lemma evs_cleanup (s : St) :
  evs (cleanup s) =
  [CloseAudioContext; RemoveSlot 0; RemoveSlot 1; RemoveCanvas] ++
  match bgLevels s with
  | Some _ => [RemoveBgMusic]
  | None => []
  end.
Proof. unfold cleanup, bgLevels, bind; simpl. destruct (bgMusicEl s); reflexivity. Qed.

Lemma bgLevels_recordingState (w h : Q) (bg : option BackgroundMusic) :
  bgLevels (recordingState w h bg) =
  match bgElementOf bg with
  | Some e => Some (bgElementVolume e, bgGainValue e)
  | None => None
  end.
Proof. reflexivity. Qed.

Lemma playback_ret_value (host : Host) (w h : Q) (r : ExportResolution)
    (validScenes : list Scene) (mimeType : string) (s : St) (a : string) :
  res (playback host w h r validScenes mimeType s) = Ret a -> a = mimeType.
Proof.
  unfold playback. destruct validScenes as [|c rest]; [discriminate|].
  intros H.
  do 8 (apply res_bind_Ret in H; destruct H as (? & _ & H)).
  injection H as <-. reflexivity.
Qed.

Lemma stitch_run (host : Host) (scenes : list Scene)
    (bgMusic : option BackgroundMusic) (resolution : ExportResolution)
    (format : ExportFormat) (aspectRatio : AspectRatio) :
  validScenesOf scenes <> [] ->
  getContext2d host = true ->
  volumeOk bgMusic = true ->
  recorderAccepts host (selectMimeType host format) = true ->
  let o := stitchVideos host scenes bgMusic resolution format aspectRatio idle in
  (exists body,
     forallb loopEvent body = true /\
     evs o = startEvents (outWidth aspectRatio resolution) (outHeight aspectRatio resolution)
               bgMusic (selectMimeType host format) (videoBitsPerSecond resolution)
             ++ body ++ tailCalls bgMusic (res o)) /\
  (res o = Ret (selectMimeType host format) \/ res o = Throw StitchingFailed \/
   res o = Pending).
Proof.
  intros Hne Hctx Hvol Hacc o. subst o. rewrite stitchVideos_unfold.
  destruct (validScenesOf scenes) as [|c rest] eqn:E; [congruence|].
  change (List.length (c :: rest) =? 0)%nat with false. cbv iota.
  rewrite (startRecording_run _ _ _ _ _ _ _ Hctx Hvol Hacc). cbn [evs res].
  set (w := outWidth aspectRatio resolution). set (h := outHeight aspectRatio resolution).
  set (s1 := recordingState w h bgMusic).
  set (body := playback host w h resolution (c :: rest) (selectMimeType host format)).
  destruct (playback_shaped host w h resolution (c :: rest) (selectMimeType host format) s1
              ltac:(discriminate)) as (l & Hl & Hevs).
  fold body in Hevs.
  assert (Hkeep : bgLevels (final (body s1)) = bgLevels s1) by apply keeps_playback.
  assert (Htail : playTail s1 = wrapUpCalls bgMusic).
  { unfold playTail, wrapUpCalls, s1. rewrite bgLevels_recordingState.
    destruct (bgElementOf bgMusic); reflexivity. }
  assert (Hrel : evs (cleanup (final (body s1))) = releaseCalls bgMusic).
  { rewrite evs_cleanup, Hkeep. unfold releaseCalls, s1.
    rewrite bgLevels_recordingState. destruct (bgElementOf bgMusic); reflexivity. }
  pose proof (playback_ret_value host w h resolution (c :: rest)
                (selectMimeType host format) s1) as Hval. fold body in Hval.
  unfold tryCatchFinally.
  destruct (res (body s1)) as [a| |] eqn:Er; unfold throw; cbn [res final evs].
  - rewrite res_cleanup, Hrel, Hevs, Htail. split.
    + exists l. split; [exact Hl|]. cbn [tailCalls]. rewrite <- !app_assoc. reflexivity.
    + left. rewrite (Hval a eq_refl). reflexivity.
  - rewrite res_cleanup, Hrel, Hevs. cbn [app]. split.
    + exists l. split; [exact Hl|]. cbn [tailCalls]. rewrite app_nil_r. reflexivity.
    + right. left. reflexivity.
  - rewrite Hevs. split.
    + exists l. split; [exact Hl|]. reflexivity.
    + right. right. reflexivity.
Qed.

(** X7: the call log of a stitch that starts recording is the
    allocation prelude, then calls of the playback loop only, then what
    the outcome dictates: wrap-up and release when the stitch returns,
    release alone when it fails, nothing while it stalls.  A failure in
    the [try] block is always reported as "Stitching failed.", and the
    value returned is the selected type. *)
Theorem stitch_call_log (host : Host) (scenes : list Scene)
    (bgMusic : option BackgroundMusic) (resolution : ExportResolution)
    (format : ExportFormat) (aspectRatio : AspectRatio) :
  validScenesOf scenes <> [] ->
  getContext2d host = true ->
  volumeOk bgMusic = true ->
  recorderAccepts host (selectMimeType host format) = true ->
  let o := stitchVideos host scenes bgMusic resolution format aspectRatio idle in
  (exists body,
     forallb loopEvent body = true /\
     evs o = startEvents (outWidth aspectRatio resolution) (outHeight aspectRatio resolution)
               bgMusic (selectMimeType host format) (videoBitsPerSecond resolution)
             ++ body ++ tailCalls bgMusic (res o)) /\
  (res o = Ret (selectMimeType host format) \/ res o = Throw StitchingFailed \/
   res o = Pending).
Proof. exact (stitch_run host scenes bgMusic resolution format aspectRatio). Qed.

Lemma stitch_call_log_witness :
  let o := stitchVideos webmHost fadeFirst None r720p mp4 ar16_9 idle in
  exists body,
    forallb loopEvent body = true /\
    evs o = startEvents 1280 720 None "video/webm" 5000000
            ++ body ++ tailCalls None (res o).
Proof.
  intros o.
  destruct (stitch_call_log webmHost fadeFirst None r720p mp4 ar16_9)
    as ((body & Hbody & Hevs) & _).
  - discriminate.
  - reflexivity.
  - reflexivity.
  - reflexivity.
  - exists body. split; [exact Hbody | exact Hevs].
Defined.

Lemma filter_none {A : Type} (keep drop : A -> bool) (l : list A) :
  (forall x, keep x = true -> drop x = false) ->
  forallb keep l = true -> filter drop l = [].
Proof.
  intros Hd. induction l as [|x l IH]; [reflexivity|].
  cbn [forallb filter]. intros H. apply andb_true_iff in H. destruct H as [Hx Hl].
  rewrite (Hd x Hx). exact (IH Hl).
Qed.

(** X8: the [finally] block runs exactly when the [try] block settles.
    Of a stitch that starts recording, the release calls are the
    [finally] block's, once and in its order, when the stitch returns or
    fails, and none while an awaited promise is outstanding. *)
Theorem release_when_settled (host : Host) (scenes : list Scene)
    (bgMusic : option BackgroundMusic) (resolution : ExportResolution)
    (format : ExportFormat) (aspectRatio : AspectRatio) :
  validScenesOf scenes <> [] ->
  getContext2d host = true ->
  volumeOk bgMusic = true ->
  recorderAccepts host (selectMimeType host format) = true ->
  let o := stitchVideos host scenes bgMusic resolution format aspectRatio idle in
  filter isRelease (evs o) =
  match res o with
  | Pending => []
  | _ => releaseCalls bgMusic
  end.
Proof.
  intros Hne Hctx Hvol Hacc o.
  destruct (stitch_run host scenes bgMusic resolution format aspectRatio Hne Hctx Hvol Hacc)
    as ((body & Hbody & Hevs) & _).
  fold o in Hevs. rewrite Hevs, !filter_app.
  rewrite (filter_none loopEvent isRelease body) by (try exact Hbody; intros []; simpl; congruence).
  unfold startEvents, tailCalls, wrapUpCalls, releaseCalls.
  destruct (res o); destruct (bgElementOf bgMusic); reflexivity.
Qed.

Lemma release_when_settled_witness :
  filter isRelease
    (evs (stitchVideos webmHost fadeFirst None r720p mp4 ar16_9 idle)) =
  [CloseAudioContext; RemoveSlot 0; RemoveSlot 1; RemoveCanvas].
Proof.
  rewrite (release_when_settled webmHost fadeFirst None r720p mp4 ar16_9);
    [reflexivity | discriminate | reflexivity | reflexivity | reflexivity].
Defined.

(** X9: a stitch that starts recording allocates once, before the [try]
    block: one canvas, one audio context, two video slots, the
    background element if a track with a URL was given, one recorder.
    No clip, however many there are, allocates anything more. *)
Theorem allocations_fixed (host : Host) (scenes : list Scene)
    (bgMusic : option BackgroundMusic) (resolution : ExportResolution)
    (format : ExportFormat) (aspectRatio : AspectRatio) :
  validScenesOf scenes <> [] ->
  getContext2d host = true ->
  volumeOk bgMusic = true ->
  recorderAccepts host (selectMimeType host format) = true ->
  filter isAllocation
    (evs (stitchVideos host scenes bgMusic resolution format aspectRatio idle)) =
  [CreateCanvas (outWidth aspectRatio resolution) (outHeight aspectRatio resolution);
   CreateAudioContext; CreateSlot 0; CreateSlot 1] ++
  match bgElementOf bgMusic with
  | Some e => [CreateBgMusic (bgSrc e) (bgElementVolume e) (bgGainValue e)]
  | None => []
  end ++
  [CreateRecorder (selectMimeType host format) (videoBitsPerSecond resolution)].
Proof.
  intros Hne Hctx Hvol Hacc.
  destruct (stitch_run host scenes bgMusic resolution format aspectRatio Hne Hctx Hvol Hacc)
    as ((body & Hbody & Hevs) & _).
  cbv zeta in Hevs. rewrite Hevs, !filter_app.
  rewrite (filter_none loopEvent isAllocation body) by (try exact Hbody; intros []; simpl; congruence).
  unfold startEvents, tailCalls, wrapUpCalls, releaseCalls.
  destruct (res _); destruct (bgElementOf bgMusic); reflexivity.
Qed.

Lemma allocations_fixed_witness :
  filter isAllocation
    (evs (stitchVideos webmHost fadeFirst None r720p mp4 ar16_9 idle)) =
  [CreateCanvas 1280 720; CreateAudioContext; CreateSlot 0; CreateSlot 1;
   CreateRecorder "video/webm" 5000000].
Proof.
  rewrite (allocations_fixed webmHost fadeFirst None r720p mp4 ar16_9);
    [reflexivity | discriminate | reflexivity | reflexivity | reflexivity].
Defined.

(** X10: the background track is touched at fixed points only: created
    and started before the [try] block, paused after the last clip if
    the stitch returns, removed by the [finally] block.  A stitch that
    fails removes the element without pausing it, and the loop never
    touches it. *)
Theorem background_calls_by_outcome (host : Host) (scenes : list Scene)
    (bgMusic : option BackgroundMusic) (resolution : ExportResolution)
    (format : ExportFormat) (aspectRatio : AspectRatio) :
  validScenesOf scenes <> [] ->
  getContext2d host = true ->
  volumeOk bgMusic = true ->
  recorderAccepts host (selectMimeType host format) = true ->
  let o := stitchVideos host scenes bgMusic resolution format aspectRatio idle in
  filter isBgCall (evs o) =
  match bgElementOf bgMusic with
  | None => []
  | Some e =>
      [CreateBgMusic (bgSrc e) (bgElementVolume e) (bgGainValue e); BgPlay] ++
      match res o with
      | Ret _ => [BgPause; RemoveBgMusic]
      | Throw _ => [RemoveBgMusic]
      | Pending => []
      end
  end.
Proof.
  intros Hne Hctx Hvol Hacc o.
  destruct (stitch_run host scenes bgMusic resolution format aspectRatio Hne Hctx Hvol Hacc)
    as ((body & Hbody & Hevs) & _).
  fold o in Hevs. rewrite Hevs, !filter_app.
  rewrite (filter_none loopEvent isBgCall body) by (try exact Hbody; intros []; simpl; congruence).
  unfold startEvents, tailCalls, wrapUpCalls, releaseCalls.
  destruct (res o); destruct (bgElementOf bgMusic); reflexivity.
Qed.

Lemma background_calls_by_outcome_witness :
  filter isBgCall
    (evs (stitchVideos noAutoplayHost fadeFirst
            (Some {| url := "music.mp3"; volume := 1 # 2 |}) r720p mp4 ar16_9 idle)) =
  [CreateBgMusic "music.mp3" (1 # 2) (1 # 2); BgPlay; RemoveBgMusic].
Proof.
  rewrite (background_calls_by_outcome noAutoplayHost fadeFirst
             (Some {| url := "music.mp3"; volume := 1 # 2 |}) r720p mp4 ar16_9);
    [reflexivity | discriminate | reflexivity | reflexivity | reflexivity].
Defined.

Lemma startRecording_fails {A : Type} (host : Host) (w h : Q)
    (bgMusic : option BackgroundMusic) (mimeType : string) (bps : Z) (rest : M A)
    (e : Err) :
  setupError host bgMusic mimeType = Some e ->
  let o := startRecording host w h bgMusic mimeType bps rest idle in
  res o = Throw e /\ evs o = setupCalls host w h bgMusic.
Proof.
  unfold setupError, setupCalls, startRecording, getContext, newMediaRecorder,
    setupBgMusic, volumeOk, bgElementOf.
  destruct (getContext2d host); cbn [negb];
    [|intros H; injection H as <-; split; reflexivity].
  destruct bgMusic as [b|];
    [destruct (truthyStr (Some (url b))); cbn [negb orb];
       [destruct (volumeAccepted (volume b)); cbn [negb]|]|];
    cbn [negb];
    try (intros H; injection H as <-; split; reflexivity);
    (destruct (recorderAccepts host mimeType); cbn [negb]; [discriminate|];
     intros H; injection H as <-; split; reflexivity).
Qed.

(** X11: a set-up failure is outside the [try] block.  When the canvas
    gives no 2D context, the background element rejects the volume, or
    the recorder's constructor rejects the selected type, the stitch
    throws that error itself, not "Stitching failed.", and stops there:
    the log holds the set-up calls completed so far and not one release
    call. *)
Theorem setup_failure_skips_finally (host : Host) (scenes : list Scene)
    (bgMusic : option BackgroundMusic) (resolution : ExportResolution)
    (format : ExportFormat) (aspectRatio : AspectRatio) (e : Err) :
  validScenesOf scenes <> [] ->
  setupError host bgMusic (selectMimeType host format) = Some e ->
  let o := stitchVideos host scenes bgMusic resolution format aspectRatio idle in
  res o = Throw e /\
  evs o = setupCalls host (outWidth aspectRatio resolution)
            (outHeight aspectRatio resolution) bgMusic /\
  filter isRelease (evs o) = [] /\
  e <> StitchingFailed.
Proof.
  intros Hne Hfail o. subst o. rewrite stitchVideos_unfold.
  destruct (validScenesOf scenes) as [|c rest] eqn:E; [congruence|].
  change (List.length (c :: rest) =? 0)%nat with false. cbv iota.
  destruct (startRecording_fails host (outWidth aspectRatio resolution)
              (outHeight aspectRatio resolution) bgMusic (selectMimeType host format)
              (videoBitsPerSecond resolution)
              (tryCatchFinally
                 (playback host (outWidth aspectRatio resolution)
                    (outHeight aspectRatio resolution) resolution (c :: rest)
                    (selectMimeType host format))
                 (fun _ => throw StitchingFailed) cleanup) e Hfail) as [Hres Hevs].
  split; [exact Hres|]. split; [exact Hevs|]. split.
  - rewrite Hevs. unfold setupCalls.
    destruct (getContext2d host); [|reflexivity].
    destruct (volumeOk bgMusic); [destruct (bgElementOf bgMusic)|]; reflexivity.
  - unfold setupError in Hfail.
    destruct (getContext2d host); [|injection Hfail as <-; discriminate].
    destruct (volumeOk bgMusic); [|injection Hfail as <-; discriminate].
    destruct (recorderAccepts host (selectMimeType host format));
      [discriminate | injection Hfail as <-; discriminate].
Qed.

Lemma setup_failure_skips_finally_witness :
  let o := stitchVideos webmHost fadeFirst (Some tooLoud) r720p mp4 ar16_9 idle in
  let o' := stitchVideos headlessHost fadeFirst None r720p mp4 ar16_9 idle in
  (res o = Throw IndexSizeError /\
   evs o = [CreateCanvas 1280 720; CreateAudioContext; CreateSlot 0; CreateSlot 1]) /\
  (res o' = Throw NoCanvasContext /\ evs o' = [CreateCanvas 1280 720]).
Proof.
  intros o o'.
  destruct (setup_failure_skips_finally webmHost fadeFirst (Some tooLoud) r720p mp4
              ar16_9 IndexSizeError) as (Hres & Hevs & _);
    [discriminate | reflexivity |].
  destruct (setup_failure_skips_finally headlessHost fadeFirst None r720p mp4
              ar16_9 NoCanvasContext) as (Hres' & Hevs' & _);
    [discriminate | reflexivity |].
  split; split; assumption.
Defined.

Lemma first_load_stalls {A : Type} (host : Host) (u : string) (rest : M A)
    (w h : Q) (bgMusic : option BackgroundMusic) :
  metadata host u = None ->
  let o := (onProgress 0 PreparingScene1 ;;
            s <- get ;;
            setSrc (activeSlotIndex s) u ;;
            awaitLoadedMetadata host (activeSlotIndex s) ;;
            rest) (recordingState w h bgMusic) in
  res o = Pending /\ evs o = [Progress 0 PreparingScene1; SetSrc 0 u].
Proof.
  intros Hmeta. unfold awaitLoadedMetadata, setSrc, onProgress, bind, get, modify, emit, pend.
  simpl. rewrite Hmeta. simpl. split; reflexivity.
Qed.

(** X12: [waitForEvent] has no failure path.  When the first clip never
    reports its metadata, the stitch neither returns nor throws: it
    waits for ever right after binding the clip, with the recorder
    started, and the [finally] block is never reached. *)
Theorem unloadable_first_clip_stalls (host : Host) (scenes : list Scene)
    (bgMusic : option BackgroundMusic) (resolution : ExportResolution)
    (format : ExportFormat) (aspectRatio : AspectRatio)
    (firstScene : Scene) (others : list Scene) :
  validScenesOf scenes = firstScene :: others ->
  getContext2d host = true ->
  volumeOk bgMusic = true ->
  recorderAccepts host (selectMimeType host format) = true ->
  metadata host (urlOf firstScene) = None ->
  let o := stitchVideos host scenes bgMusic resolution format aspectRatio idle in
  res o = Pending /\
  evs o = startEvents (outWidth aspectRatio resolution) (outHeight aspectRatio resolution)
            bgMusic (selectMimeType host format) (videoBitsPerSecond resolution)
          ++ [Progress 0 PreparingScene1; SetSrc 0 (urlOf firstScene)].
Proof.
  intros E Hctx Hvol Hacc Hmeta o. subst o. rewrite stitchVideos_unfold, E.
  change (List.length (firstScene :: others) =? 0)%nat with false. cbv iota.
  rewrite (startRecording_run _ _ _ _ _ _ _ Hctx Hvol Hacc). cbn [evs res].
  unfold tryCatchFinally.
  destruct (first_load_stalls host (urlOf firstScene)
              (forLoop host (outWidth aspectRatio resolution) (outHeight aspectRatio resolution)
                 resolution (firstScene :: others) (List.length (firstScene :: others)) 0 ;;
               onProgress 100 Finalizing ;;
               recorderStop ;;
               bgPause ;;
               ret (selectMimeType host format))
              (outWidth aspectRatio resolution) (outHeight aspectRatio resolution)
              bgMusic Hmeta) as (Hres & Hevs).
  change (playback host (outWidth aspectRatio resolution) (outHeight aspectRatio resolution)
            resolution (firstScene :: others) (selectMimeType host format))
    with (onProgress 0 PreparingScene1 ;;
          s <- get ;;
          setSrc (activeSlotIndex s) (urlOf firstScene) ;;
          awaitLoadedMetadata host (activeSlotIndex s) ;;
          forLoop host (outWidth aspectRatio resolution) (outHeight aspectRatio resolution)
            resolution (firstScene :: others) (List.length (firstScene :: others)) 0 ;;
          onProgress 100 Finalizing ;;
          recorderStop ;;
          bgPause ;;
          ret (selectMimeType host format)).
  cbv zeta in Hres, Hevs. rewrite Hres. cbn [res evs]. rewrite Hevs.
  split; reflexivity.
Qed.

Lemma unloadable_first_clip_stalls_witness :
  let o := stitchVideos deadLinkHost fadeFirst None r720p mp4 ar16_9 idle in
  res o = Pending /\ filter isRelease (evs o) = [].
Proof.
  intros o.
  destruct (unloadable_first_clip_stalls deadLinkHost fadeFirst None r720p mp4 ar16_9
              (clip 1 "a.mp4" (Some {| type := fade; duration := 1 |}))
              [clip 2 "b.mp4" (Some {| type := wipe_left; duration := 2 |})])
    as (Hres & Hevs); try reflexivity.
  split; [exact Hres | fold o in Hevs; rewrite Hevs; reflexivity].
Defined.

(** ** Errors *)

Lemma res_then {B : Type} (m : M unit) (k : unit -> M B) (s : St) :
  res (m s) = Ret tt -> res (bind m k s) = res (k tt (final (m s))).
Proof. unfold bind. intros ->. reflexivity. Qed.

Lemma res_bgPlay (s : St) : res (bgPlay s) = Ret tt.
Proof. unfold bgPlay, bind, get; cbn [res final]. destruct (bgMusicEl s); reflexivity. Qed.

Lemma res_setupBgMusic (bgMusic : option BackgroundMusic) (s : St) :
  volumeOk bgMusic = true -> res (setupBgMusic bgMusic s) = Ret tt.
Proof.
  unfold volumeOk, setupBgMusic. destruct bgMusic as [b|]; [|reflexivity].
  destruct (truthyStr (Some (url b))); [|reflexivity].
  cbn [negb orb]. intros ->. reflexivity.
Qed.

Lemma startRecording_from {A : Type} (host : Host) (w h : Q)
    (bgMusic : option BackgroundMusic) (mimeType : string) (bps : Z) (rest : M A)
    (s : St) :
  match setupError host bgMusic mimeType with
  | Some e => res (startRecording host w h bgMusic mimeType bps rest s) = Throw e
  | None => exists s', res (startRecording host w h bgMusic mimeType bps rest s) =
                       res (rest s')
  end.
Proof.
  unfold setupError, startRecording.
  destruct (getContext2d host) eqn:Hctx; cbn [negb];
    [|unfold getContext; rewrite Hctx; reflexivity].
  rewrite res_then by reflexivity.
  rewrite res_then by (unfold getContext; rewrite Hctx; reflexivity).
  do 3 (rewrite res_then by reflexivity).
  destruct (volumeOk bgMusic) eqn:Hvol; cbn [negb].
  - rewrite res_then by (apply res_setupBgMusic; exact Hvol).
    destruct (recorderAccepts host mimeType) eqn:Hacc; cbn [negb].
    + rewrite res_then by (unfold newMediaRecorder; rewrite Hacc; reflexivity).
      rewrite res_then by reflexivity.
      rewrite res_then by apply res_bgPlay.
      do 2 (rewrite res_then by reflexivity).
      eexists. reflexivity.
    + unfold bind at 1. unfold newMediaRecorder. rewrite Hacc. reflexivity.
  - unfold bind at 1. unfold volumeOk, setupBgMusic in *.
    destruct bgMusic as [b|]; [|discriminate].
    destruct (truthyStr (Some (url b))); [|discriminate].
    cbn [negb orb] in Hvol. rewrite Hvol. reflexivity.
Qed.

Lemma setupError_explains (host : Host) (scenes : list Scene)
    (bgMusic : option BackgroundMusic) (format : ExportFormat) :
  validScenesOf scenes <> [] ->
  match setupError host bgMusic (selectMimeType host format) with
  | Some e => explains host scenes bgMusic format e
  | None => explains host scenes bgMusic format StitchingFailed
  end.
Proof.
  intros Hne. unfold setupError.
  destruct (getContext2d host) eqn:Hctx; cbn [negb]; [|split; [exact Hne | exact Hctx]].
  destruct (volumeOk bgMusic) eqn:Hvol; cbn [negb]; [|repeat split; assumption].
  destruct (recorderAccepts host (selectMimeType host format)) eqn:Hacc; cbn [negb];
    repeat split; assumption.
Qed.

Lemma stitch_throws (host : Host) (scenes : list Scene)
    (bgMusic : option BackgroundMusic) (resolution : ExportResolution)
    (format : ExportFormat) (aspectRatio : AspectRatio) (s : St) (e : Err) :
  res (stitchVideos host scenes bgMusic resolution format aspectRatio s) = Throw e ->
  explains host scenes bgMusic format e.
Proof.
  rewrite stitchVideos_unfold.
  destruct (validScenesOf scenes) as [|c rest] eqn:E.
  - intros H. injection H as <-. exact E.
  - change (List.length (c :: rest) =? 0)%nat with false. cbv iota.
    assert (Hne : validScenesOf scenes <> []) by (rewrite E; discriminate).
    pose proof (setupError_explains host scenes bgMusic format Hne) as Hex.
    pose proof (startRecording_from host (outWidth aspectRatio resolution)
                  (outHeight aspectRatio resolution) bgMusic (selectMimeType host format)
                  (videoBitsPerSecond resolution)
                  (tryCatchFinally
                     (playback host (outWidth aspectRatio resolution)
                        (outHeight aspectRatio resolution) resolution (validScenesOf scenes)
                        (selectMimeType host format))
                     (fun _ => throw StitchingFailed) cleanup) s) as Hrun.
    rewrite E in Hrun.
    destruct (setupError host bgMusic (selectMimeType host format)) as [e'|].
    + rewrite Hrun. intros H. injection H as <-. exact Hex.
    + destruct Hrun as [s' ->]. unfold tryCatchFinally.
      destruct (res (playback _ _ _ _ _ _ s')) as [a|e'|]; unfold throw;
        cbn [res final evs]; rewrite ?res_cleanup; intros H; try discriminate.
      injection H as <-. exact Hex.
Qed.



(** ** The workflow layer *)

Lemma filter_length_all {A : Type} (f : A -> bool) (l : list A) :
  List.length (filter f l) = List.length l -> filter f l = l.
Proof.
  induction l as [|x l IH]; [reflexivity|]. simpl.
  pose proof (filter_length_le f l) as Hle.
  destruct (f x); simpl; intros H.
  - f_equal. apply IH. lia.
  - lia.
Qed.

Lemma filter_length_lt {A : Type} (f : A -> bool) (l : list A) (x : A) :
  In x l -> f x = false -> (List.length (filter f l) < List.length l)%nat.
Proof.
  induction l as [|y l IH]; [intros []|]. simpl.
  pose proof (filter_length_le f l) as Hle.
  intros [->|Hin] Hx.
  - rewrite Hx. lia.
  - specialize (IH Hin Hx). destruct (f y); simpl; lia.
Qed.

Lemma validScenesOf_stitchInput (p : App.Project) :
  validScenesOf (App.stitchInput p) = map App.fields (filter App.isReady (App.scenes p)).
Proof.
  unfold App.stitchInput, validScenesOf. induction (App.scenes p) as [|x l IH];
    [reflexivity|].
  simpl. unfold App.isReady at 1.
  destruct (isCompleted (status (App.fields x)) && truthyStr (videoUrl (App.fields x)));
    simpl; rewrite IH; reflexivity.
Qed.

Lemma stitch_NoCompleted_iff (host : Host) (scenes : list Scene)
    (bgMusic : option BackgroundMusic) (resolution : ExportResolution)
    (format : ExportFormat) (aspectRatio : AspectRatio) (s : St) :
  res (stitchVideos host scenes bgMusic resolution format aspectRatio s) =
    Throw NoCompletedVideos <->
  validScenesOf scenes = [].
Proof.
  split.
  - intros H. exact (stitch_throws host scenes bgMusic resolution format aspectRatio s _ H).
  - intros E. rewrite stitchVideos_unfold, E. reflexivity.
Qed.

(** X14: the export button and the engine agree.  When the button is
    enabled ([canStitch]), the engine's filter drops nothing: the movie
    is made of every scene of the project, in the project's order, and
    the engine does not answer "No completed videos to stitch.". *)
Theorem export_button_guards_stitch (p : App.Project) :
  App.canStitch (Some p) = true ->
  validScenesOf (App.stitchInput p) = App.stitchInput p /\
  forall host resolution format s,
    res (stitchVideos host (App.stitchInput p) (App.backgroundMusic p)
           resolution format (App.aspectRatio p) s) <> Throw NoCompletedVideos.
Proof.
  unfold App.canStitch, App.readyVideosCount, App.totalVideos. intros H.
  apply andb_true_iff in H. destruct H as [Hpos Hall].
  apply Nat.ltb_lt in Hpos. apply Nat.eqb_eq in Hall.
  assert (Hvalid : validScenesOf (App.stitchInput p) = App.stitchInput p).
  { rewrite validScenesOf_stitchInput. unfold App.stitchInput.
    rewrite (filter_length_all _ _ Hall). reflexivity. }
  split; [exact Hvalid|].
  intros host resolution format s Hthrow.
  apply stitch_NoCompleted_iff in Hthrow.
  rewrite Hvalid in Hthrow. unfold App.stitchInput in Hthrow.
  apply map_eq_nil in Hthrow. rewrite Hthrow in Hpos. simpl in Hpos. lia.
Qed.

Lemma export_button_guards_stitch_witness :
  validScenesOf (App.stitchInput (projectOf [done 1 "s1" "a.mp4"; done 2 "s2" "b.mp4"])) =
  App.stitchInput (projectOf [done 1 "s1" "a.mp4"; done 2 "s2" "b.mp4"]).
Proof.
  apply (export_button_guards_stitch (projectOf [done 1 "s1" "a.mp4"; done 2 "s2" "b.mp4"])).
  reflexivity.
Defined.

Lemma stamp_pending (randomUUID : nat -> string) (n : nat) (rawScenes : list App.SceneRow) :
  filter App.isReady (Gemini.stamp randomUUID n rawScenes) = [].
Proof.
  revert n. induction rawScenes as [|x l IH]; intros n; [reflexivity|].
  simpl. exact (IH (S n)).
Qed.

(** X15: a script fresh from [generateScriptFromIdea] holds no playable
    clip, whatever the model answered (a [status] or [videoUrl] in its
    JSON is overridden or useless): the export button is disabled for
    it, and the engine, if called on it, throws "No completed videos to
    stitch." before it allocates anything. *)
Theorem fresh_script_needs_generation (responseText : option string)
    (parse : string -> option (list App.SceneRow)) (randomUUID : nat -> string)
    (p : App.Project) :
  Gemini.generateScriptFromIdea responseText parse randomUUID = Gemini.Ok (App.scenes p) ->
  App.canStitch (Some p) = false /\
  forall host resolution format s,
    let o := stitchVideos host (App.stitchInput p) (App.backgroundMusic p)
               resolution format (App.aspectRatio p) s in
    res o = Throw NoCompletedVideos /\ evs o = [].
Proof.
  unfold Gemini.generateScriptFromIdea.
  destruct responseText as [text|]; [|discriminate].
  destruct (truthyStr (Some text)); [|discriminate].
  destruct (parse text) as [rawScenes|]; [|discriminate].
  intros H. injection H as H.
  assert (Hnone : filter App.isReady (App.scenes p) = [])
    by (rewrite <- H; apply stamp_pending).
  split.
  - unfold App.canStitch, App.readyVideosCount. rewrite Hnone. reflexivity.
  - intros host resolution format s. cbv zeta.
    rewrite stitchVideos_unfold, validScenesOf_stitchInput, Hnone. split; reflexivity.
Qed.

Lemma fresh_script_needs_generation_witness :
  App.canStitch
    (Some (projectOf (Gemini.stamp (fun _ => "id"%string) 0 [done 1 "x" "a.mp4"]))) = false.
Proof.
  apply (fresh_script_needs_generation (Some "[{}]"%string)
           (fun _ => Some [done 1 "x" "a.mp4"]) (fun _ => "id"%string)
           (projectOf (Gemini.stamp (fun _ => "id"%string) 0 [done 1 "x" "a.mp4"]))).
  reflexivity.
Defined.

Lemma handleUpdateScene_edits (p : App.Project) (sceneId : string)
    (updates : App.Updates) (u : App.Ui) :
  oneSceneEdited p (App.currentProject (App.handleUpdateScene (Some p) sceneId updates u)).
Proof. exists sceneId, updates. reflexivity. Qed.

Lemma handleGenerateVideoForScene_edits (p : App.Project) (service : App.Service)
    (sceneId : string) (w : App.World) :
  let w' := fst (App.handleGenerateVideoForScene (Some p) service sceneId w) in
  w' = w \/ oneSceneEdited p (App.currentProject (App.ui w')).
Proof.
  unfold App.handleGenerateVideoForScene.
  destruct (find _ (App.scenes p)) as [scene|]; [|left; reflexivity].
  cbv zeta. destruct (service _ scene _ _); right; cbn [fst App.onUi App.ui];
    apply handleUpdateScene_edits.
Qed.

Lemma forScenes_edits (p : App.Project) (service : App.Service)
    (rest : list App.SceneRow) (w : App.World) :
  let w' := fst (App.forScenes (Some p) service rest w) in
  App.currentProject (App.ui w') = App.currentProject (App.ui w) \/
  oneSceneEdited p (App.currentProject (App.ui w')).
Proof.
  cbv zeta. revert w. induction rest as [|scene tl IH]; intros w; [left; reflexivity|].
  cbn [App.forScenes]. destruct (App.needsVideo scene); [|apply IH].
  pose proof (handleGenerateVideoForScene_edits p service (App.id scene) w) as Hone.
  destruct (App.handleGenerateVideoForScene (Some p) service (App.id scene) w)
    as [w1 settled].
  cbn [fst] in Hone. destruct settled.
  - destruct (IH w1) as [Hsame|Hedit]; [|right; exact Hedit].
    rewrite Hsame. destruct Hone as [->|Hone]; [left; reflexivity | right; exact Hone].
  - cbn [fst]. destruct Hone as [->|Hone]; [left; reflexivity | right; exact Hone].
Qed.

Lemma batch_one_edit (p : App.Project) (service : App.Service)
    (w : App.World) :
  let w' := fst (App.handleGenerateAllVideos (Some p) service w) in
  App.currentProject (App.ui w') = App.currentProject (App.ui w) \/
  oneSceneEdited p (App.currentProject (App.ui w')).
Proof. apply forScenes_edits. Qed.

(** X16: every write of a batch starts from the render's project.  The
    handlers read [currentProject] from the closure of the render in
    which "Generate All" was clicked, so whatever the service answers
    and however many scenes are generated, the project left in the cell
    is either untouched or the clicked render's project with the scenes
    of a single id updated: the results of all other scenes are
    overwritten. *)
Theorem batch_keeps_one_result (p : App.Project) (service : App.Service)
    (w : App.World) :
  let w' := fst (App.handleGenerateAllVideos (Some p) service w) in
  App.currentProject (App.ui w') = App.currentProject (App.ui w) \/
  oneSceneEdited p (App.currentProject (App.ui w')).
Proof. exact (batch_one_edit p service w). Qed.

Lemma canStitch_unready (p : App.Project) (x : App.SceneRow) :
  In x (App.scenes p) -> App.isReady x = false -> App.canStitch (Some p) = false.
Proof.
  intros Hin Hx. unfold App.canStitch, App.readyVideosCount, App.totalVideos.
  pose proof (filter_length_lt App.isReady (App.scenes p) x Hin Hx) as Hlt.
  apply andb_false_iff. right. apply Nat.eqb_neq. lia.
Qed.

(** X17: "Generate All" cannot finish a project that has two unfinished
    scenes.  If two scenes with different ids are not ready when the
    button is clicked, then after the batch, with a service that
    resolves every call or not, at least one of the two is still in the
    project exactly as it was, and the export button stays disabled. *)
Theorem batch_cannot_finish_two (p : App.Project) (service : App.Service)
    (w : App.World) (a b : App.SceneRow) :
  App.currentProject (App.ui w) = Some p ->
  In a (App.scenes p) -> In b (App.scenes p) ->
  App.id a <> App.id b ->
  App.isReady a = false -> App.isReady b = false ->
  let after :=
    App.currentProject (App.ui (fst (App.handleGenerateAllVideos (Some p) service w))) in
  (exists q, after = Some q /\ (In a (App.scenes q) \/ In b (App.scenes q))) /\
  App.canStitch after = false.
Proof.
  intros Hcur Ha Hb Hab Hra Hrb after. subst after.
  destruct (batch_one_edit p service w) as [Hsame|(sceneId & updates & Hedit)].
  - rewrite Hsame, Hcur. split.
    + exists p. split; [reflexivity | left; exact Ha].
    + exact (canStitch_unready p a Ha Hra).
  - rewrite Hedit.
    set (q := App.withScenes p (App.updateScenes sceneId updates (App.scenes p))).
    assert (Hkeep : forall x, In x (App.scenes p) -> App.id x <> sceneId ->
              In x (App.scenes q)).
    { intros x Hin Hid. subst q. cbn [App.withScenes App.scenes].
      unfold App.updateScenes.
      apply in_map_iff. exists x. split; [|exact Hin].
      destruct (String.eqb_spec (App.id x) sceneId); [contradiction | reflexivity]. }
    destruct (String.eqb_spec (App.id a) sceneId) as [Ea|Na].
    + assert (Hin : In b (App.scenes q)) by (apply Hkeep; [exact Hb | congruence]).
      split.
      * exists q. split; [reflexivity | right; exact Hin].
      * exact (canStitch_unready q b Hin Hrb).
    + assert (Hin : In a (App.scenes q)) by (apply Hkeep; [exact Ha | exact Na]).
      split.
      * exists q. split; [reflexivity | left; exact Hin].
      * exact (canStitch_unready q a Hin Hra).
Qed.

Lemma batch_cannot_finish_two_witness :
  let after :=
    App.currentProject (App.ui (fst (App.handleGenerateAllVideos
       (Some (projectOf [draft 1 "s1"; draft 2 "s2"])) obliging
       {| App.ui := {| App.currentProject := Some (projectOf [draft 1 "s1"; draft 2 "s2"]);
                       App.projects := [projectOf [draft 1 "s1"; draft 2 "s2"]] |};
          App.served := 0 |}))) in
  (exists q, after = Some q /\
             (In (draft 1 "s1") (App.scenes q) \/ In (draft 2 "s2") (App.scenes q))) /\
  App.canStitch after = false.
Proof.
  apply (batch_cannot_finish_two (projectOf [draft 1 "s1"; draft 2 "s2"]) obliging _
           (draft 1 "s1") (draft 2 "s2")).
  - reflexivity.
  - left. reflexivity.
  - right. left. reflexivity.
  - discriminate.
  - reflexivity.
  - reflexivity.
Defined.

(** *** The debug console *)

Lemma sliceFromEnd_S {A : Type} (n : nat) (l : list A) :
  App.sliceFromEnd (S n) l = skipn (List.length l - S n) l.
Proof. reflexivity. Qed.

Lemma sliceFromEnd_length {A : Type} (n : nat) (l : list A) :
  List.length (App.sliceFromEnd (S n) l) = Nat.min (S n) (List.length l).
Proof. rewrite sliceFromEnd_S, length_skipn. lia. Qed.

Lemma sliceFromEnd_push {A : Type} (n : nat) (l : list A) (x : A) :
  App.sliceFromEnd (S n) (App.sliceFromEnd (S (S n)) l) ++ [x] =
  App.sliceFromEnd (S (S n)) (l ++ [x]).
Proof.
  rewrite !sliceFromEnd_S, skipn_skipn, length_skipn, length_app. cbn [List.length].
  rewrite skipn_app.
  replace (List.length l + 1 - S (S n) - List.length l)%nat with 0%nat by lia.
  cbn [skipn]. f_equal. f_equal. lia.
Qed.

Lemma addLog_fold (entries prev : list App.LogEntry) :
  fold_left App.addLog entries (App.sliceFromEnd 200 prev) =
  App.sliceFromEnd 200 (prev ++ entries).
Proof.
  revert prev. induction entries as [|e es IH]; intros prev.
  - rewrite app_nil_r. reflexivity.
  - cbn [fold_left]. unfold App.addLog at 2.
    change 200%nat with (S (S 198)). change 199%nat with (S 198).
    rewrite sliceFromEnd_push. change (S (S 198)) with 200%nat.
    rewrite IH, <- app_assoc. reflexivity.
Qed.

(** X18: the debug console is a window on the last 200 messages.  After
    any sequence of [console] calls, the log holds exactly the last 200
    entries of the sequence (all of them if there are fewer), oldest
    first. *)
Theorem addLog_keeps_last_200 (entries : list App.LogEntry) :
  fold_left App.addLog entries [] = App.sliceFromEnd 200 entries /\
  List.length (fold_left App.addLog entries []) = Nat.min 200 (List.length entries).
Proof.
  assert (H : fold_left App.addLog entries [] = App.sliceFromEnd 200 entries)
    by exact (addLog_fold entries []).
  split; [exact H|]. rewrite H. apply sliceFromEnd_length.
Qed.

(** ** The generation service *)

(** X19: outside AI Studio, [ensureApiKey] answers exactly whether
    [getApiKey] will hand a non-empty key to the client, wherever the
    key comes from. *)
Theorem ensureApiKey_outside_studio (env : Gemini.Env) :
  Gemini.hasWindow env = false \/ Gemini.aistudio env = None ->
  Gemini.ensureApiKey env = truthyStr (Some (Gemini.getApiKey env)).
Proof.
  intros Hout. unfold Gemini.ensureApiKey.
  assert (Hstudio : (if Gemini.hasWindow env then Gemini.aistudio env else None) = None)
    by (destruct Hout as [-> | ->]; [reflexivity | destruct (Gemini.hasWindow env); reflexivity]).
  rewrite Hstudio.
  destruct (truthyStr (Some (Gemini.getApiKey env))) eqn:Hk; cbn [andb].
  - unfold Gemini.differsFrom.
    destruct (Gemini.API_KEY env) as [k|] eqn:Hapi; [|reflexivity].
    destruct (String.eqb_spec (Gemini.getApiKey env) k) as [E|]; [|reflexivity].
    cbn [negb]. rewrite <- E. exact Hk.
  - revert Hk. unfold Gemini.getApiKey.
    destruct (truthyStr (Gemini.API_KEY env)) eqn:Hapi; [|reflexivity].
    destruct (Gemini.API_KEY env) as [k|]; [|discriminate].
    destruct (Gemini.hasWindow env); [|rewrite Hapi; discriminate].
    destruct (truthyStr (Gemini.storedKey env)) eqn:Hs; [|rewrite Hapi; discriminate].
    destruct (Gemini.storedKey env) as [c|]; [|discriminate].
    rewrite Hs. discriminate.
Qed.

Lemma ensureApiKey_outside_studio_witness :
  Gemini.ensureApiKey ownKeyEnv = true.
Proof.
  rewrite (ensureApiKey_outside_studio ownKeyEnv); [reflexivity | right; reflexivity].
Defined.
